(** * depgraph: graph assembly, diffing, extraction and scanning

    A shallow embedding of the TypeScript sources of [depgraph]
    ([graph.ts], [diff.ts], [parse.ts], the four language extractors, the
    statistics of [format.ts], the plain report of [hook.ts] and
    [parser-loader.ts]) together with the properties its specification
    states about them and further properties the code has.

    Conventions of the embedding:
    - a JavaScript [string] is a [string]; template literals are [+:+];
    - a string-literal union type ([GraphNode["kind"]], [GraphEdge["kind"]])
      is an inductive type with the function giving the literal;
    - a JavaScript [Map<string, V>] is an association list in insertion
      order ([JsMap]), because the code iterates over it;
    - a JavaScript [Set<string>] that is only tested for membership is a
      [gset string];
    - [arr.push(x)] is [arr ++ [x]], a [for ... of] loop is a [fold_left]
      over the state the loop body mutates;
    - what the code reads from its environment (the clock, git, the file
      system, the tree-sitter parsers) is passed in explicitly;
    - the built-ins [JSON.stringify] and [JSON.parse] are modelled after
      ECMA-262 on the values a graph is made of. *)

From stdpp Require Import base list strings gmap.
From stdpp Require Import sorting.
From Stdlib Require Import ZArith Ascii.
From Stdlib Require DecimalString DecimalN DecimalFacts.

Local Open Scope string_scope.
Local Open Scope list_scope.
Local Open Scope stdpp_scope.

(** ** graph.ts: the data model *)

Inductive NodeKind := class | interface | protocol | enum | type_alias.

Inductive EdgeKind :=
  extends | implements | field_type | method_param | method_return | import.

(** The string literals of the two union types. *)
Definition NodeKind_str (k : NodeKind) : string :=
  match k with
  | class => "class"
  | interface => "interface"
  | protocol => "protocol"
  | enum => "enum"
  | type_alias => "type_alias"
  end.

Definition EdgeKind_str (k : EdgeKind) : string :=
  match k with
  | extends => "extends"
  | implements => "implements"
  | field_type => "field_type"
  | method_param => "method_param"
  | method_return => "method_return"
  | import => "import"
  end.

(** A JavaScript [number] that is an integer or is not finite.  Fractions
    are not modelled: no code here produces one ([line] is always
    [node.startPosition.row + 1]). *)
Inductive number := Int (z : Z) | NaN | Infinity | NegInfinity.

(** [Number.isSafeInteger]: the integers a double represents exactly. *)
Definition isSafeInteger (n : number) : bool :=
  match n with
  | Int z => (Z.abs z <=? 2 ^ 53 - 1)%Z
  | _ => false
  end.

Record GraphNode := mkNode {
  n_name : string;
  n_kind : NodeKind;
  n_file : string;
  n_line : number
}.

Record GraphEdge := mkEdge {
  e_from : string;
  e_to : string;
  e_kind : EdgeKind
}.

(** [commitSha?: string]: [None] is an absent (or [undefined]) property. *)
Record DependencyGraph := mkGraph {
  nodes : list GraphNode;
  edges : list GraphEdge;
  scannedAt : string;
  commitSha : option string
}.

#[global] Instance NodeKind_eq_dec : EqDecision NodeKind.
Proof. solve_decision. Defined.
#[global] Instance EdgeKind_eq_dec : EqDecision EdgeKind.
Proof. solve_decision. Defined.
#[global] Instance number_eq_dec : EqDecision number.
Proof. solve_decision. Defined.
#[global] Instance GraphNode_eq_dec : EqDecision GraphNode.
Proof. solve_decision. Defined.
#[global] Instance GraphEdge_eq_dec : EqDecision GraphEdge.
Proof. solve_decision. Defined.
#[global] Instance DependencyGraph_eq_dec : EqDecision DependencyGraph.
Proof. solve_decision. Defined.

(** [`${node.name}:${node.kind}`] *)
Definition nodeKey (node : GraphNode) : string :=
  n_name node +:+ ":" +:+ NodeKind_str (n_kind node).

(** [`${edge.from}->${edge.to}:${edge.kind}`] *)
Definition edgeKey (edge : GraphEdge) : string :=
  e_from edge +:+ "->" +:+ e_to edge +:+ ":" +:+ EdgeKind_str (e_kind edge).

(** ** JavaScript [Map] with string keys

    Iteration follows insertion order; [set] on a key already present
    replaces the value and keeps the key's position. *)
Module JsMap.

Abbreviation t V := (list (string * V)).

Definition empty {V} : t V := [].

Fixpoint has {V} (m : t V) (k : string) : bool :=
  match m with
  | [] => false
  | (k', _) :: m' => if decide (k' = k) then true else has m' k
  end.

Fixpoint set {V} (m : t V) (k : string) (v : V) : t V :=
  match m with
  | [] => [(k, v)]
  | (k', v') :: m' =>
      if decide (k' = k) then (k, v) :: m' else (k', v') :: set m' k v
  end.

(** [new Map(entries)] *)
Definition from_entries {V} (entries : list (string * V)) : t V :=
  fold_left (fun m kv => set m kv.1 kv.2) entries empty.

Definition keys {V} (m : t V) : list string := m.*1.
Definition values {V} (m : t V) : list V := m.*2.

End JsMap.

(** ** The built-in [JSON] object

    [serializeGraph] and [deserializeGraph] are one call each to
    [JSON.stringify] and [JSON.parse].  The two built-ins are modelled on
    ECMA-262 (SerializeJSONProperty, QuoteJSONString and the JSON grammar)
    for the values that occur here: [null], booleans, [number]s, strings of
    code units below 256, arrays, and objects as the list of their
    properties in enumeration order (keys that look like array indices,
    which JavaScript enumerates first, are not modelled). *)
#[warnings="-register-all"]
Inductive JsValue :=
  | JNull
  | JBool (b : bool)
  | JNum (n : number)
  | JStr (s : string)
  | JArr (items : list JsValue)
  | JObj (props : list (string * JsValue)).

Definition nl : string := String "010" EmptyString.
Definition dquote : string := String "034" EmptyString.

(** The [gap] of [JSON.stringify(value, null, 2)]. *)
Definition gap : string := "  ".

Definition hex_digit (n : N) : ascii :=
  match n with
  | 0 => "0" | 1 => "1" | 2 => "2" | 3 => "3" | 4 => "4" | 5 => "5" | 6 => "6"
  | 7 => "7" | 8 => "8" | 9 => "9" | 10 => "a" | 11 => "b" | 12 => "c"
  | 13 => "d" | 14 => "e" | _ => "f"
  end%N%char.

(** QuoteJSONString on one code unit: the two-character escapes, [\u00XX]
    for the other control characters, the character itself otherwise. *)
Definition quote_char (c : ascii) : string :=
  let n := N_of_ascii c in
  if (n =? 8)%N then "\b"
  else if (n =? 9)%N then "\t"
  else if (n =? 10)%N then "\n"
  else if (n =? 12)%N then "\f"
  else if (n =? 13)%N then "\r"
  else if (n =? 34)%N then String "092" dquote
  else if (n =? 92)%N then String "092" (String "092" EmptyString)
  else if (n <? 32)%N then
    "\u00" +:+ String (hex_digit (n / 16)) (String (hex_digit (n mod 16)) EmptyString)
  else String c EmptyString.

Fixpoint quote_chars (s : string) : string :=
  match s with
  | EmptyString => EmptyString
  | String c s' => quote_char c +:+ quote_chars s'
  end.

Definition QuoteJSONString (s : string) : string :=
  dquote +:+ quote_chars s +:+ dquote.

(** Number::toString on an integer below [10^21]: its decimal digits. *)
Definition Number_toString (z : Z) : string :=
  if (z <? 0)%Z then "-" +:+ DecimalString.NilEmpty.string_of_uint (N.to_uint (Z.abs_N z))
  else DecimalString.NilEmpty.string_of_uint (N.to_uint (Z.abs_N z)).

(** A number that is not finite is written as [null]. *)
Definition number_json (n : number) : string :=
  match n with
  | Int z => Number_toString z
  | _ => "null"
  end.

Fixpoint join (sep : string) (l : list string) : string :=
  match l with
  | [] => EmptyString
  | [x] => x
  | x :: l' => x +:+ sep +:+ join sep l'
  end.

(** SerializeJSONProperty with SerializeJSONArray and SerializeJSONObject;
    [indent] is the current indentation. *)
Fixpoint stringify (indent : string) (v : JsValue) : string :=
  match v with
  | JNull => "null"
  | JBool b => if b then "true" else "false"
  | JNum n => number_json n
  | JStr s => QuoteJSONString s
  | JArr items =>
      match items with
      | [] => "[]"
      | _ =>
          let stepback := indent in
          let indent := indent +:+ gap in
          "[" +:+ nl +:+ indent
          +:+ join ("," +:+ nl +:+ indent) (map (stringify indent) items)
          +:+ nl +:+ stepback +:+ "]"
      end
  | JObj props =>
      match props with
      | [] => "{}"
      | _ =>
          let stepback := indent in
          let indent := indent +:+ gap in
          "{" +:+ nl +:+ indent
          +:+ join ("," +:+ nl +:+ indent)
                (map (fun kv => QuoteJSONString (fst kv) +:+ ": "
                                +:+ stringify indent (snd kv)) props)
          +:+ nl +:+ stepback +:+ "}"
      end
  end.

(** [JSON.stringify(value, null, 2)] *)
Definition JSON_stringify (v : JsValue) : string := stringify EmptyString v.

(** JSON white space: space, tab, line feed, carriage return. *)
Definition is_ws (c : ascii) : bool :=
  let n := N_of_ascii c in
  (n =? 32)%N || (n =? 9)%N || (n =? 10)%N || (n =? 13)%N.

Fixpoint skip_ws (s : string) : string :=
  match s with
  | EmptyString => EmptyString
  | String c s' => if is_ws c then skip_ws s' else s
  end.

Definition hex_value (c : ascii) : option N :=
  let n := N_of_ascii c in
  if (48 <=? n)%N && (n <=? 57)%N then Some (n - 48)%N
  else if (97 <=? n)%N && (n <=? 102)%N then Some (n - 87)%N
  else if (65 <=? n)%N && (n <=? 70)%N then Some (n - 55)%N
  else None.

(** The code unit of [\uXXXX]; [None] when a digit is not hexadecimal or
    the code unit is above 255, which strings here do not hold. *)
Definition code_unit (a b c d : ascii) : option ascii :=
  match hex_value a, hex_value b, hex_value c, hex_value d with
  | Some x, Some y, Some z, Some w =>
      let n := (((x * 16 + y) * 16 + z) * 16 + w)%N in
      if (n <? 256)%N then Some (ascii_of_N n) else None
  | _, _, _, _ => None
  end.

(** The characters of a string literal after its opening quote, up to and
    including the closing quote: the string read and the rest of the input.
    A control character must be escaped. *)
Fixpoint parse_string (s : string) : option (string * string) :=
  match s with
  | EmptyString => None
  | String c s1 =>
      let n := N_of_ascii c in
      if (n =? 34)%N then Some (EmptyString, s1)
      else if (n =? 92)%N then
        match s1 with
        | String e s2 =>
            let cont (c' : ascii) (rest : option (string * string)) :=
              match rest with
              | Some (str, r) => Some (String c' str, r)
              | None => None
              end in
            let m := N_of_ascii e in
            if (m =? 34)%N then cont "034"%char (parse_string s2)
            else if (m =? 92)%N then cont "092"%char (parse_string s2)
            else if (m =? 47)%N then cont "/"%char (parse_string s2)
            else if (m =? 98)%N then cont "008"%char (parse_string s2)
            else if (m =? 102)%N then cont "012"%char (parse_string s2)
            else if (m =? 110)%N then cont "010"%char (parse_string s2)
            else if (m =? 114)%N then cont "013"%char (parse_string s2)
            else if (m =? 116)%N then cont "009"%char (parse_string s2)
            else if (m =? 117)%N then
              match s2 with
              | String a (String b (String c3 (String d s3))) =>
                  match code_unit a b c3 d with
                  | Some u => cont u (parse_string s3)
                  | None => None
                  end
              | _ => None
              end
            else None
        | EmptyString => None
        end
      else if (n <? 32)%N then None
      else
        match parse_string s1 with
        | Some (str, r) => Some (String c str, r)
        | None => None
        end
  end.

Definition digit_of (c : ascii) : option (Decimal.uint -> Decimal.uint) :=
  match N_of_ascii c with
  | 48 => Some Decimal.D0 | 49 => Some Decimal.D1 | 50 => Some Decimal.D2
  | 51 => Some Decimal.D3 | 52 => Some Decimal.D4 | 53 => Some Decimal.D5
  | 54 => Some Decimal.D6 | 55 => Some Decimal.D7 | 56 => Some Decimal.D8
  | 57 => Some Decimal.D9 | _ => None
  end%N.

Fixpoint scan_digits (s : string) : Decimal.uint * string :=
  match s with
  | EmptyString => (Decimal.Nil, EmptyString)
  | String c s' =>
      match digit_of c with
      | Some d => let '(u, rest) := scan_digits s' in (d u, rest)
      | None => (Decimal.Nil, s)
      end
  end.

(** [0 | [1-9][0-9]*]: at least one digit and no leading zero. *)
Definition int_digits (u : Decimal.uint) : bool :=
  match u with
  | Decimal.Nil => false
  | Decimal.D0 Decimal.Nil => true
  | Decimal.D0 _ => false
  | _ => true
  end.

(** A JSON number that is an integer: digits without a leading zero, not
    followed by a fraction or an exponent, which are not modelled. *)
Definition parse_digits (s : string) : option (N * string) :=
  let '(u, rest) := scan_digits s in
  if int_digits u then
    match rest with
    | String c _ =>
        let n := N_of_ascii c in
        if (n =? 46)%N || (n =? 101)%N || (n =? 69)%N then None
        else Some (N.of_uint u, rest)
    | EmptyString => Some (N.of_uint u, rest)
    end
  else None.

Definition parse_number (s : string) : option (JsValue * string) :=
  match s with
  | String c s' =>
      if (N_of_ascii c =? 45)%N then
        match parse_digits s' with
        | Some (n, rest) => Some (JNum (Int (- Z.of_N n)), rest)
        | None => None
        end
      else
        match parse_digits s with
        | Some (n, rest) => Some (JNum (Int (Z.of_N n)), rest)
        | None => None
        end
  | EmptyString => None
  end.

Definition parse_literal (s : string) : option (JsValue * string) :=
  match s with
  | String "n" (String "u" (String "l" (String "l" rest))) => Some (JNull, rest)
  | String "t" (String "r" (String "u" (String "e" rest))) => Some (JBool true, rest)
  | String "f" (String "a" (String "l" (String "s" (String "e" rest)))) =>
      Some (JBool false, rest)
  | _ => parse_number s
  end.

(** The JSON grammar by recursive descent; [fuel] bounds the number of
    nested calls and the length of the input always suffices.  A key
    given twice keeps its first position and its last value, as in
    [JsMap.set]. *)
Fixpoint parse_value (fuel : nat) (s : string) : option (JsValue * string) :=
  match fuel with
  | O => None
  | S fuel' =>
      match skip_ws s with
      | String c s1 =>
          let n := N_of_ascii c in
          if (n =? 34)%N then
            match parse_string s1 with
            | Some (str, rest) => Some (JStr str, rest)
            | None => None
            end
          else if (n =? 91)%N then
            match skip_ws s1 with
            | String c' s2 =>
                if (N_of_ascii c' =? 93)%N then Some (JArr [], s2)
                else parse_elements fuel' s1 []
            | EmptyString => None
            end
          else if (n =? 123)%N then
            match skip_ws s1 with
            | String c' s2 =>
                if (N_of_ascii c' =? 125)%N then Some (JObj [], s2)
                else parse_members fuel' s1 []
            | EmptyString => None
            end
          else parse_literal (String c s1)
      | EmptyString => None
      end
  end
with parse_elements (fuel : nat) (s : string) (acc : list JsValue)
  : option (JsValue * string) :=
  match fuel with
  | O => None
  | S fuel' =>
      match parse_value fuel' s with
      | Some (v, rest) =>
          match skip_ws rest with
          | String c rest' =>
              let n := N_of_ascii c in
              if (n =? 44)%N then parse_elements fuel' rest' (acc ++ [v])
              else if (n =? 93)%N then Some (JArr (acc ++ [v]), rest')
              else None
          | EmptyString => None
          end
      | None => None
      end
  end
with parse_members (fuel : nat) (s : string) (acc : list (string * JsValue))
  : option (JsValue * string) :=
  match fuel with
  | O => None
  | S fuel' =>
      match skip_ws s with
      | String q s1 =>
          if (N_of_ascii q =? 34)%N then
            match parse_string s1 with
            | Some (k, s2) =>
                match skip_ws s2 with
                | String colon s3 =>
                    if (N_of_ascii colon =? 58)%N then
                      match parse_value fuel' s3 with
                      | Some (v, rest) =>
                          match skip_ws rest with
                          | String c rest' =>
                              let n := N_of_ascii c in
                              if (n =? 44)%N
                              then parse_members fuel' rest' (JsMap.set acc k v)
                              else if (n =? 125)%N
                              then Some (JObj (JsMap.set acc k v), rest')
                              else None
                          | EmptyString => None
                          end
                      | None => None
                      end
                    else None
                | EmptyString => None
                end
            | None => None
            end
          else None
      | EmptyString => None
      end
  end.

(** [JSON.parse(text)]: [None] when it throws a SyntaxError, and for
    text with a fraction, an exponent or a code unit above 255. *)
Definition JSON_parse (s : string) : option JsValue :=
  match parse_value (S (String.length s)) s with
  | Some (v, rest) =>
      match skip_ws rest with
      | EmptyString => Some v
      | _ => None
      end
  | None => None
  end.



(** ** graph.ts: serialization *)

(** The object a node, an edge and a graph are at run time, with the
    properties in the order the object literals of the code give them.  A
    [commitSha] that is absent or [undefined] is not written by
    [JSON.stringify]; both are [None]. *)
Definition node_value (n : GraphNode) : JsValue :=
  JObj [ ("name", JStr (n_name n)); ("kind", JStr (NodeKind_str (n_kind n)));
         ("file", JStr (n_file n)); ("line", JNum (n_line n)) ].

Definition edge_value (e : GraphEdge) : JsValue :=
  JObj [ ("from", JStr (e_from e)); ("to", JStr (e_to e));
         ("kind", JStr (EdgeKind_str (e_kind e))) ].

Definition graph_value (g : DependencyGraph) : JsValue :=
  JObj ([ ("nodes", JArr (map node_value (nodes g)));
          ("edges", JArr (map edge_value (edges g)));
          ("scannedAt", JStr (scannedAt g)) ]
        ++ match commitSha g with
           | Some sha => [("commitSha", JStr sha)]
           | None => []
           end).

(** [JSON.stringify(graph, null, 2)] *)
Definition serializeGraph (graph : DependencyGraph) : string :=
  JSON_stringify (graph_value graph).

(** [JSON.parse(json) as DependencyGraph]: the cast checks nothing, the
    result is whatever value the text denotes. *)
Definition deserializeGraph (json : string) : option JsValue :=
  JSON_parse json.

(** ** What assembly reads from its environment

    [clock] is the value of [new Date().toISOString()] at the time of the
    call; [git_head dir] is the trimmed output of [git rev-parse HEAD] run
    in [dir], [None] when [execSync] throws. *)
Record World := mkWorld {
  clock : string;
  git_head : string -> option string
}.

(** ** parse.ts: graph assembly *)

Definition getCommitSha (w : World) (dir : string) : option string :=
  git_head w dir.

(** The first loop of [filterAndDedupe]. *)
Definition dedupe_step (nodeMap : JsMap.t GraphNode) (node : GraphNode)
  : JsMap.t GraphNode :=
  if negb (JsMap.has nodeMap (n_name node))
  then JsMap.set nodeMap (n_name node) node
  else nodeMap.

(** The second loop: the state is [(seenEdges, edges)]. *)
Definition edge_step (nodeNames : gset string)
    (st : gset string * list GraphEdge) (edge : GraphEdge)
  : gset string * list GraphEdge :=
  let '(seenEdges, edges) := st in
  if negb (bool_decide (e_from edge ∈ nodeNames))
     || negb (bool_decide (e_to edge ∈ nodeNames)) then st
  else if bool_decide (e_from edge = e_to edge) then st
  else
    let key := edgeKey edge in
    if negb (bool_decide (key ∈ seenEdges))
    then ({[ key ]} ∪ seenEdges, edges ++ [edge])
    else st.

Definition filterAndDedupe (w : World)
    (allNodes : list GraphNode) (allEdges : list GraphEdge)
    (dir : string) (commitSha : option string) : DependencyGraph :=
  let nodeMap := fold_left dedupe_step allNodes JsMap.empty in
  let nodes := JsMap.values nodeMap in
  let nodeNames : gset string := list_to_set (n_name <$> nodes) in
  let '(_, edges) := fold_left (edge_step nodeNames) allEdges (∅, []) in
  {| nodes := nodes;
     edges := edges;
     scannedAt := clock w;
     commitSha := match commitSha with
                  | Some sha => Some sha
                  | None => getCommitSha w dir
                  end |}.

(** ** diff.ts: the diff engine *)

Record GraphDiff := mkDiff {
  addedNodes : list GraphNode;
  removedNodes : list GraphNode;
  addedEdges : list GraphEdge;
  removedEdges : list GraphEdge
}.

(** The four loops of [diffGraphs] have one shape,
    [for (const [key, x] of m) { if (!other.has(key)) out.push(x) }]. *)
Definition push_missing {V} (m other : JsMap.t V) : list V :=
  fold_left
    (fun out kv => if negb (JsMap.has other kv.1) then out ++ [kv.2] else out)
    m [].

Definition diffGraphs (before after : DependencyGraph) : GraphDiff :=
  let beforeNodes := JsMap.from_entries ((fun n => (nodeKey n, n)) <$> nodes before) in
  let afterNodes := JsMap.from_entries ((fun n => (nodeKey n, n)) <$> nodes after) in
  let beforeEdges := JsMap.from_entries ((fun e => (edgeKey e, e)) <$> edges before) in
  let afterEdges := JsMap.from_entries ((fun e => (edgeKey e, e)) <$> edges after) in
  {| addedNodes := push_missing afterNodes beforeNodes;
     removedNodes := push_missing beforeNodes afterNodes;
     addedEdges := push_missing afterEdges beforeEdges;
     removedEdges := push_missing beforeEdges afterEdges |}.

Definition isDiffEmpty (diff : GraphDiff) : bool :=
  (length (addedNodes diff) =? 0)%nat
  && (length (removedNodes diff) =? 0)%nat
  && (length (addedEdges diff) =? 0)%nat
  && (length (removedEdges diff) =? 0)%nat.

(** ** The syntax-tree interface the extractors use

    A tree-sitter node as the extractors see it: [node.type], [node.text],
    [node.isNamed], [node.startPosition.row], [node.childCount] and
    [node.child(i)], and [node.childForFieldName(f)].  Each node records
    the field name under which its parent holds it, if any. *)
#[warnings="-register-all"]
Inductive SyntaxNode := SNode {
  s_field : option string;
  s_type : string;
  s_text : string;
  s_isNamed : bool;
  s_row : Z;
  s_children : list SyntaxNode
}.

(** [node.childForFieldName(f)]: the first child held under field [f],
    [None] for [null]. *)
Definition childForFieldName (node : SyntaxNode) (f : string) : option SyntaxNode :=
  find (fun c => bool_decide (s_field c = Some f)) (s_children node).

(** The first child of a given type, as in the loops
    [for (...) { if (child.type === ty) return ... }]. *)
Definition first_of_type (ty : string) (l : list SyntaxNode) : option SyntaxNode :=
  find (fun c => bool_decide (s_type c = ty)) l.

(** An [if (...) return ...] that falls through to the next statement when
    it does not return. *)
Definition or_else {A} (o k : option A) : option A :=
  match o with
  | Some a => Some a
  | None => k
  end.

(** A string in a JavaScript condition is true when it is not empty. *)
Definition truthy (s : string) : bool := negb (bool_decide (s = EmptyString)).

(** What one extraction produces: [{ nodes, edges }]. *)
Record Fragment := mkFragment {
  f_nodes : list GraphNode;
  f_edges : list GraphEdge
}.

Definition frag_empty : Fragment := mkFragment [] [].

(** [nodes.push(...r.nodes); edges.push(...r.edges)] *)
Definition frag_push (acc r : Fragment) : Fragment :=
  mkFragment (f_nodes acc ++ f_nodes r) (f_edges acc ++ f_edges r).

Definition frag_concat (l : list Fragment) : Fragment :=
  fold_left frag_push l frag_empty.

(** Loops whose body only pushes onto an output array are written as the
    concatenation, in order, of what each iteration pushes. *)
Definition edges_to (from : string) (kind : EdgeKind) (ids : list string)
  : list GraphEdge :=
  (fun id => mkEdge from id kind) <$> ids.

(** [case "enum_declaration"], shared by the three extractors that have it. *)
Definition enum_fragment (node : SyntaxNode) (filePath : string) : Fragment :=
  match childForFieldName node "name" with
  | Some nameNode =>
      mkFragment [mkNode (s_text nameNode) enum filePath (Int (s_row node + 1))] []
  | None => frag_empty
  end.

(** ** languages/go.ts *)
Module Go.

Definition extractTypeIdentifier (node : SyntaxNode) : option string :=
  if bool_decide (s_type node = "type_identifier") then Some (s_text node)
  else
    or_else
      (if bool_decide (s_type node = "pointer_type")
       then s_text <$> first_of_type "type_identifier" (s_children node)
       else None)
   (or_else
      (if bool_decide (s_type node = "slice_type")
          || bool_decide (s_type node = "array_type")
          || bool_decide (s_type node = "map_type")
       then s_text <$> first_of_type "type_identifier" (s_children node)
       else None)
      (if bool_decide (s_type node = "qualified_type")
       then s_text <$> childForFieldName node "name"
       else None)).

(** The inner [walk] of [extractAllTypeIdentifiers]; [if (id)] fails on
    [null] and on the empty string. *)
Fixpoint extractAllTypeIdentifiers (node : SyntaxNode) : list string :=
  match extractTypeIdentifier node with
  | Some id =>
      if truthy id then [id]
      else flat_map extractAllTypeIdentifiers (s_children node)
  | None => flat_map extractAllTypeIdentifiers (s_children node)
  end.

Definition BUILTIN_TYPES : gset string :=
  list_to_set
    [ "string"; "int"; "int8"; "int16"; "int32"; "int64";
      "uint"; "uint8"; "uint16"; "uint32"; "uint64";
      "float32"; "float64"; "complex64"; "complex128";
      "bool"; "byte"; "rune"; "error"; "any";
      "uintptr"; "comparable" ].

Definition isUserType (name : string) : bool :=
  negb (bool_decide (name ∈ BUILTIN_TYPES)).

Definition findChild (node : SyntaxNode) (type : string) : option SyntaxNode :=
  first_of_type type (s_children node).

(** What [extractStruct] pushes for one child of the field list. *)
Definition struct_field_edges (nameText : string) (field : SyntaxNode)
  : list GraphEdge :=
  if negb (bool_decide (s_type field = "field_declaration")) then []
  else
    match childForFieldName field "name", childForFieldName field "type" with
    | None, Some typeChild =>
        match extractTypeIdentifier typeChild with
        | Some id =>
            if truthy id && isUserType id then [mkEdge nameText id extends] else []
        | None => []
        end
    | None, None =>
        flat_map
          (fun c =>
             if bool_decide (s_type c = "type_identifier") && isUserType (s_text c)
             then [mkEdge nameText (s_text c) extends] else [])
          (s_children field)
    | Some _, Some typeChild =>
        edges_to nameText field_type
          (filter (fun id => isUserType id) (extractAllTypeIdentifiers typeChild))
    | Some _, None => []
    end.

Definition extractStruct (nameText : string) (typeNode : SyntaxNode)
    (filePath : string) (startRow : Z) : Fragment :=
  let nodes := [mkNode nameText class filePath (Int (startRow + 1))] in
  let fieldList :=
    match childForFieldName typeNode "fields" with
    | Some fl => Some fl
    | None => findChild typeNode "field_declaration_list"
    end in
  match fieldList with
  | None => mkFragment nodes []
  | Some fieldList =>
      mkFragment nodes (flat_map (struct_field_edges nameText) (s_children fieldList))
  end.

Definition extractMethodEdges (method : SyntaxNode) (ownerName : string)
  : list GraphEdge :=
  let param_edges :=
    match childForFieldName method "parameters" with
    | Some params =>
        flat_map
          (fun param =>
             if negb (bool_decide (s_type param = "parameter_declaration")) then []
             else
               match childForFieldName param "type" with
               | Some paramType =>
                   edges_to ownerName method_param
                     (filter (fun id => isUserType id)
                        (extractAllTypeIdentifiers paramType))
               | None => []
               end)
          (s_children params)
    | None => []
    end in
  let result_edges :=
    match childForFieldName method "result" with
    | Some result =>
        edges_to ownerName method_return
          (filter (fun id => isUserType id) (extractAllTypeIdentifiers result))
    | None => []
    end in
  param_edges ++ result_edges.

Definition extractInterface (nameText : string) (typeNode : SyntaxNode)
    (filePath : string) (startRow : Z) : Fragment :=
  let nodes := [mkNode nameText interface filePath (Int (startRow + 1))] in
  mkFragment nodes
    (flat_map
       (fun child =>
          (if bool_decide (s_type child = "constraint_elem")
           then flat_map
                  (fun c =>
                     if bool_decide (s_type c = "type_identifier")
                        && isUserType (s_text c)
                     then [mkEdge nameText (s_text c) extends] else [])
                  (s_children child)
           else [])
          ++ (if bool_decide (s_type child = "method_spec")
              then extractMethodEdges child nameText else []))
       (s_children typeNode)).

(** Only the first [parameter_list] child is looked at; in it, the first
    [parameter_declaration] with a [type] field decides. *)
Definition getReceiverType (method : SyntaxNode) : option string :=
  match first_of_type "parameter_list" (s_children method) with
  | Some receiver =>
      match
        find (fun param =>
                bool_decide (s_type param = "parameter_declaration")
                && bool_decide (is_Some (childForFieldName param "type")))
          (s_children receiver)
      with
      | Some param =>
          match childForFieldName param "type" with
          | Some t => extractTypeIdentifier t
          | None => None
          end
      | None => None
      end
  | None => None
  end.

(** What [parseSource] pushes for one [type_spec] candidate. *)
Definition type_spec_fragment (filePath : string) (spec : SyntaxNode) : Fragment :=
  if negb (bool_decide (s_type spec = "type_spec")) then frag_empty
  else
    match childForFieldName spec "name", childForFieldName spec "type" with
    | Some nameNode, Some typeNode =>
        let name := s_text nameNode in
        if bool_decide (s_type typeNode = "struct_type")
        then extractStruct name typeNode filePath (s_row spec)
        else if bool_decide (s_type typeNode = "interface_type")
        then extractInterface name typeNode filePath (s_row spec)
        else frag_empty
    | _, _ => frag_empty
    end.

(** What [parseSource] pushes for one child of the root. *)
Definition top_level_fragment (filePath : string) (child : SyntaxNode) : Fragment :=
  frag_push
    (if bool_decide (s_type child = "type_declaration")
     then frag_concat (type_spec_fragment filePath <$> s_children child)
     else frag_empty)
    (if bool_decide (s_type child = "method_declaration")
     then match getReceiverType child with
          | Some receiverType =>
              if truthy receiverType
              then mkFragment [] (extractMethodEdges child receiverType)
              else frag_empty
          | None => frag_empty
          end
     else frag_empty).

Definition parseSource (root : SyntaxNode) (filePath : string) : Fragment :=
  frag_concat (top_level_fragment filePath <$> s_children root).

Definition GO_EXTENSIONS : list string := [".go"].

End Go.

(** ** languages/java.ts *)
Module Java.

(** The inner [walk] of [extractTypeIdentifiers]. *)
Fixpoint extractTypeIdentifiers (n : SyntaxNode) : list string :=
  if bool_decide (s_type n = "type_identifier") then [s_text n]
  else if bool_decide (s_type n = "scoped_type_identifier") then
    match childForFieldName n "name" with
    | Some nameNode => [s_text nameNode]
    | None => []
    end
  else if bool_decide (s_type n = "generic_type") then
    flat_map extractTypeIdentifiers (s_children n)
  else flat_map extractTypeIdentifiers (s_children n).

(** [const x = node.childForFieldName(f); if (x) for (const typeId of
    extractTypeIdentifiers(x)) edges.push({ from, to: typeId, kind })] *)
Definition field_edges (node : SyntaxNode) (f : string) (from : string)
    (kind : EdgeKind) : list GraphEdge :=
  match childForFieldName node f with
  | Some x => edges_to from kind (extractTypeIdentifiers x)
  | None => []
  end.

(** What the body loop of [extractClass] pushes for one member. *)
Definition member_edges (name : string) (member : SyntaxNode) : list GraphEdge :=
  (if bool_decide (s_type member = "field_declaration")
   then field_edges member "type" name field_type else [])
  ++
  (if bool_decide (s_type member = "method_declaration")
      || bool_decide (s_type member = "constructor_declaration")
   then
     field_edges member "type" name method_return
     ++ match childForFieldName member "parameters" with
        | Some params =>
            flat_map
              (fun param =>
                 if negb (bool_decide (s_type param = "formal_parameter")) then []
                 else field_edges param "type" name method_param)
              (s_children params)
        | None => []
        end
   else []).

Definition extractClass (node : SyntaxNode) (filePath : string) (kind : NodeKind)
  : Fragment :=
  match childForFieldName node "name" with
  | None => frag_empty
  | Some nameNode =>
      let name := s_text nameNode in
      mkFragment
        [mkNode name kind filePath (Int (s_row node + 1))]
        (field_edges node "superclass" name extends
         ++ field_edges node "interfaces" name implements
         ++ field_edges node "extends_interfaces" name extends
         ++ match childForFieldName node "body" with
            | Some body => flat_map (member_edges name) (s_children body)
            | None => []
            end)
  end.

(** The inner [walk] of [parseSource]. *)
Fixpoint walk (filePath : string) (node : SyntaxNode) : Fragment :=
  if bool_decide (s_type node = "class_declaration")
  then extractClass node filePath class
  else if bool_decide (s_type node = "interface_declaration")
  then extractClass node filePath interface
  else if bool_decide (s_type node = "enum_declaration")
  then enum_fragment node filePath
  else frag_concat (walk filePath <$> s_children node).

Definition parseSource (root : SyntaxNode) (filePath : string) : Fragment :=
  walk filePath root.

Definition JAVA_EXTENSIONS : list string := [".java"].

End Java.

(** ** languages/swift.ts *)
Module Swift.

(** The inner [walk] of [extractTypeIdentifiers]. *)
Fixpoint extractTypeIdentifiers (n : SyntaxNode) : list string :=
  if bool_decide (s_type n = "user_type")
     || bool_decide (s_type n = "type_identifier")
  then
    match childForFieldName n "name" with
    | Some nameChild => [s_text nameChild]
    | None =>
        if bool_decide (s_type n = "type_identifier") then [s_text n]
        else
          match first_of_type "type_identifier" (s_children n) with
          | Some child => [s_text child]
          | None => []
          end
    end
    ++ flat_map
         (fun child =>
            if bool_decide (s_type child = "type_arguments")
            then extractTypeIdentifiers child else [])
         (s_children n)
  else flat_map extractTypeIdentifiers (s_children n).

Definition field_edges (node : SyntaxNode) (f : string) (from : string)
    (kind : EdgeKind) : list GraphEdge :=
  match childForFieldName node f with
  | Some x => edges_to from kind (extractTypeIdentifiers x)
  | None => []
  end.

(** What [extractBodyMembers] pushes for one member. *)
Definition member_edges (ownerName : string) (member : SyntaxNode) : list GraphEdge :=
  (if bool_decide (s_type member = "property_declaration")
      || bool_decide (s_type member = "variable_declaration")
   then
     field_edges member "type" ownerName field_type
     ++ flat_map
          (fun child =>
             if bool_decide (s_type child = "pattern_binding")
             then field_edges child "type" ownerName field_type else [])
          (s_children member)
   else [])
  ++
  (if bool_decide (s_type member = "function_declaration")
   then
     field_edges member "return_type" ownerName method_return
     ++ match childForFieldName member "parameters" with
        | Some params =>
            flat_map (fun param => field_edges param "type" ownerName method_param)
              (s_children params)
        | None => []
        end
   else []).

Definition extractBodyMembers (body : SyntaxNode) (ownerName : string)
  : list GraphEdge :=
  flat_map (member_edges ownerName) (s_children body).

(** The inheritance-clause loop of [extractDeclaration] and of the
    [extension_declaration] case. *)
Definition inheritance_edges (node : SyntaxNode) (name : string) (kind : EdgeKind)
  : list GraphEdge :=
  flat_map
    (fun child =>
       if bool_decide (s_type child = "type_inheritance_clause")
          || bool_decide (s_type child = "inheritance_specifier")
       then edges_to name kind (extractTypeIdentifiers child) else [])
    (s_children node).

Definition extractDeclaration (node : SyntaxNode) (filePath : string)
    (kind : NodeKind) : Fragment :=
  match childForFieldName node "name" with
  | None => frag_empty
  | Some nameNode =>
      let name := s_text nameNode in
      mkFragment
        [mkNode name kind filePath (Int (s_row node + 1))]
        (inheritance_edges node name
           (if bool_decide (kind = protocol) then extends else implements)
         ++ match childForFieldName node "body" with
            | Some body => extractBodyMembers body name
            | None => []
            end)
  end.

(** The grammar uses [class_declaration] for enums too: a child that is
    not named and whose text is [enum] marks one. *)
Definition has_enum_keyword (node : SyntaxNode) : bool :=
  existsb (fun child => negb (s_isNamed child) && bool_decide (s_text child = "enum"))
    (s_children node).

(** The inner [walk] of [parseSource]. *)
Fixpoint walk (filePath : string) (node : SyntaxNode) : Fragment :=
  if bool_decide (s_type node = "class_declaration") then
    if has_enum_keyword node then enum_fragment node filePath
    else extractDeclaration node filePath class
  else if bool_decide (s_type node = "protocol_declaration")
  then extractDeclaration node filePath protocol
  else if bool_decide (s_type node = "enum_declaration")
  then enum_fragment node filePath
  else if bool_decide (s_type node = "extension_declaration") then
    match childForFieldName node "name" with
    | Some nameNode =>
        mkFragment [] (inheritance_edges node (s_text nameNode) implements)
    | None => frag_empty
    end
  else frag_concat (walk filePath <$> s_children node).

Definition parseSource (root : SyntaxNode) (filePath : string) : Fragment :=
  walk filePath root.

Definition SWIFT_EXTENSIONS : list string := [".swift"].

End Swift.

(** ** languages/typescript.ts *)
Module TypeScript.

(** The inner [walk] of [extractTypeIdentifiers]. *)
Fixpoint extractTypeIdentifiers (n : SyntaxNode) : list string :=
  if bool_decide (s_type n = "type_identifier")
     || bool_decide (s_type n = "identifier")
  then [s_text n]
  else if bool_decide (s_type n = "nested_type_identifier")
          || bool_decide (s_type n = "member_expression")
  then [s_text n]
  else flat_map extractTypeIdentifiers (s_children n).

Definition field_edges (node : SyntaxNode) (f : string) (from : string)
    (kind : EdgeKind) : list GraphEdge :=
  match childForFieldName node f with
  | Some x => edges_to from kind (extractTypeIdentifiers x)
  | None => []
  end.

(** What [extractBodyMembers] pushes for one member. *)
Definition member_edges (ownerName : string) (member : SyntaxNode) : list GraphEdge :=
  (if bool_decide (s_type member = "public_field_definition")
      || bool_decide (s_type member = "property_definition")
      || bool_decide (s_type member = "field_definition")
   then field_edges member "type" ownerName field_type else [])
  ++
  (if bool_decide (s_type member = "method_definition")
      || bool_decide (s_type member = "method_signature")
   then
     match childForFieldName member "parameters" with
     | Some params =>
         flat_map (fun param => field_edges param "type" ownerName method_param)
           (s_children params)
     | None => []
     end
     ++ field_edges member "return_type" ownerName method_return
   else [])
  ++
  (if bool_decide (s_type member = "property_signature")
   then field_edges member "type" ownerName field_type else []).

Definition extractBodyMembers (body : SyntaxNode) (ownerName : string)
  : list GraphEdge :=
  flat_map (member_edges ownerName) (s_children body).

(** What the heritage loop of [extractFromClassOrInterface] pushes for one
    child of the declaration. *)
Definition heritage_edges (name : string) (child : SyntaxNode) : list GraphEdge :=
  (if bool_decide (s_type child = "class_heritage")
   then
     flat_map
       (fun clause =>
          (if bool_decide (s_type clause = "extends_clause")
           then edges_to name extends (extractTypeIdentifiers clause) else [])
          ++ (if bool_decide (s_type clause = "implements_clause")
              then edges_to name implements (extractTypeIdentifiers clause)
              else []))
       (s_children child)
   else [])
  ++
  (if bool_decide (s_type child = "extends_clause")
      || bool_decide (s_type child = "extends_type_clause")
   then edges_to name extends (extractTypeIdentifiers child) else [])
  ++
  (if bool_decide (s_type child = "implements_clause")
   then edges_to name implements (extractTypeIdentifiers child) else []).

Definition extractFromClassOrInterface (node : SyntaxNode) (filePath : string)
    (kind : NodeKind) : Fragment :=
  match childForFieldName node "name" with
  | None => frag_empty
  | Some nameNode =>
      let name := s_text nameNode in
      mkFragment
        [mkNode name kind filePath (Int (s_row node + 1))]
        (flat_map (heritage_edges name) (s_children node)
         ++ match childForFieldName node "body" with
            | Some body => extractBodyMembers body name
            | None => []
            end)
  end.

(** The inner [walk] of [parseSource]. *)
Fixpoint walk (filePath : string) (node : SyntaxNode) : Fragment :=
  if bool_decide (s_type node = "class_declaration")
     || bool_decide (s_type node = "abstract_class_declaration")
  then extractFromClassOrInterface node filePath class
  else if bool_decide (s_type node = "interface_declaration")
  then extractFromClassOrInterface node filePath interface
  else if bool_decide (s_type node = "type_alias_declaration") then
    match childForFieldName node "name" with
    | Some nameNode =>
        let name := s_text nameNode in
        mkFragment
          [mkNode name type_alias filePath (Int (s_row node + 1))]
          (field_edges node "value" name extends)
    | None => frag_empty
    end
  else if bool_decide (s_type node = "enum_declaration")
  then enum_fragment node filePath
  else frag_concat (walk filePath <$> s_children node).

Definition parseSource (root : SyntaxNode) (filePath : string) : Fragment :=
  walk filePath root.

Definition TYPESCRIPT_EXTENSIONS : list string := [".ts"; ".tsx"].

End TypeScript.

(** ** parse.ts: scanning a directory *)

(** A call that either returns or throws; [err] is the thrown value as
    [`${err}`] prints it. *)
Inductive Result (A : Type) :=
  | Ok (a : A)
  | Throw (err : string).
Arguments Ok {A} a.
Arguments Throw {A} err.

Definition bind {A B} (r : Result A) (k : A -> Result B) : Result B :=
  match r with
  | Ok a => k a
  | Throw err => Throw err
  end.

(** [s.endsWith(suffix)] and [s.includes(sub)] *)
Definition endsWith (s suffix : string) : bool :=
  let n := String.length s in
  let m := String.length suffix in
  (m <=? n)%nat && String.eqb (String.substring (n - m) m s) suffix.

Definition includes (s sub : string) : bool :=
  bool_decide (is_Some (String.index 0 sub s)).

(** What a scan reads from its environment: [node:path], [glob],
    [readFileSync], and tree-sitter.  [ts_parse grammar source] stands for
    [getParser()] followed by [parser.parse(source)]; it throws when no
    backend supplies the grammar or the runtime faults. *)
Record ScanEnv := mkScanEnv {
  path_resolve : string -> string;
  path_resolve2 : string -> string -> string;
  path_relative : string -> string -> string;
  glob : list string -> string -> Result (list string);
  readFileSync : string -> Result string;
  ts_parse : string -> string -> Result SyntaxNode
}.

Definition ParseFn := string -> string -> Result Fragment.

Definition parseTypeScript (env : ScanEnv) : ParseFn := fun source filePath =>
  let isTsx := endsWith filePath ".tsx" in
  bind (ts_parse env (if isTsx then "tsx" else "typescript") source)
    (fun tree => Ok (TypeScript.parseSource tree filePath)).

Definition parseJava (env : ScanEnv) : ParseFn := fun source filePath =>
  bind (ts_parse env "java" source)
    (fun tree => Ok (Java.parseSource tree filePath)).

Definition parseSwift (env : ScanEnv) : ParseFn := fun source filePath =>
  bind (ts_parse env "swift" source)
    (fun tree => Ok (Swift.parseSource tree filePath)).

Record LanguageEntry := mkLanguage {
  extensions : list string;
  parse : ScanEnv -> ParseFn
}.

Definition LANGUAGES : list LanguageEntry :=
  [ mkLanguage TypeScript.TYPESCRIPT_EXTENSIONS parseTypeScript;
    mkLanguage Java.JAVA_EXTENSIONS parseJava;
    mkLanguage Swift.SWIFT_EXTENSIONS parseSwift ].

Definition getParserForFile (env : ScanEnv) (filePath : string) : option ParseFn :=
  (fun lang => parse lang env)
    <$> find (fun lang => existsb (fun ext => endsWith filePath ext) (extensions lang))
          LANGUAGES.

Definition getAllExtensions : list string := flat_map extensions LANGUAGES.

(** The line [console.error] prints for a file that failed. *)
Definition warning (relFile err : string) : string :=
  "Warning: Failed to parse " +:+ relFile +:+ ": " +:+ err.

(** The state of the scan loop: [allNodes], [allEdges] and what has been
    written to standard error. *)
Record ScanState := mkScan {
  allNodes : list GraphNode;
  allEdges : list GraphEdge;
  stderr : list string
}.

(** One iteration of the loop over [files], with its [try]/[catch]. *)
Definition scan_step (env : ScanEnv) (absDir : string)
    (st : ScanState) (file : string) : ScanState :=
  let absFile := path_resolve2 env absDir file in
  let relFile := path_relative env absDir absFile in
  match getParserForFile env file with
  | None => st
  | Some parser =>
      match bind (readFileSync env absFile) (fun source => parser source relFile) with
      | Ok r =>
          mkScan (allNodes st ++ f_nodes r) (allEdges st ++ f_edges r) (stderr st)
      | Throw err =>
          mkScan (allNodes st) (allEdges st) (stderr st ++ [warning relFile err])
      end
  end.

Definition scan_files (env : ScanEnv) (absDir : string)
    (files : list string) (st : ScanState) : ScanState :=
  fold_left (scan_step env absDir) files st.

(** The glob patterns of a scan, with or without a language filter. *)
Definition scan_patterns (languages : option (list string)) : list string :=
  let exts :=
    match languages with
    | Some langs =>
        flat_map extensions
          (filter
             (fun l =>
                existsb (fun lang => existsb (fun ext => includes ext lang) (extensions l))
                  langs)
             LANGUAGES)
    | None => getAllExtensions
    end in
  (fun ext => "**/*" +:+ ext) <$> exts.

(** [scanDirectory(dir, { languages })]: the graph and what was written to
    standard error, or the rejection of [glob]. *)
Definition scanDirectory (env : ScanEnv) (w : World) (dir : string)
    (languages : option (list string)) : Result (DependencyGraph * list string) :=
  let absDir := path_resolve env dir in
  bind (glob env (scan_patterns languages) absDir)
    (fun files =>
       let st := scan_files env absDir files (mkScan [] [] []) in
       Ok (filterAndDedupe w (allNodes st) (allEdges st) absDir None, stderr st)).

(** ** Notions used in the statements *)

(** The specification's wording of both dedup steps: "deduplicate by
    identity key, first-occurrence-wins".  An element is kept when its key
    is not among the keys seen so far. *)
Fixpoint first_wins {A} (key : A -> string) (seen : list string) (l : list A)
  : list A :=
  match l with
  | [] => []
  | x :: l' =>
      if bool_decide (key x ∈ seen) then first_wins key seen l'
      else x :: first_wins key (seen ++ [key x]) l'
  end.

(** The specification's edge validity: both endpoints are among [names]
    and the edge is not a self-reference. *)
Definition valid_edge (names : gset string) (e : GraphEdge) : bool :=
  bool_decide (e_from e ∈ names)
  && bool_decide (e_to e ∈ names)
  && negb (bool_decide (e_from e = e_to e)).

Definition node_names (l : list GraphNode) : gset string :=
  list_to_set (n_name <$> l).

Fixpoint has_char (c : Ascii.ascii) (s : string) : bool :=
  match s with
  | EmptyString => false
  | String c' s' => bool_decide (c' = c) || has_char c s'
  end.

(** Does [s] contain the two characters [->] in a row? *)
Fixpoint contains_arrow (s : string) : bool :=
  match s with
  | EmptyString => false
  | String c s' =>
      (bool_decide (c = "-"%char)
       && match s' with
          | String c' _ => bool_decide (c' = ">"%char)
          | EmptyString => false
          end)
      || contains_arrow s'
  end.

(** Values that [JSON.stringify] writes without loss: every number is an
    integer and no object has a key twice. *)
Fixpoint serializable (v : JsValue) : bool :=
  match v with
  | JNum (Int _) => true
  | JNum _ => false
  | JArr items => forallb serializable items
  | JObj props =>
      bool_decide (NoDup (map fst props))
      && forallb (fun kv => serializable (snd kv)) props
  | _ => true
  end.

(** What may follow a value in the text [JSON.stringify] writes. *)
Definition value_end (rest : string) : bool :=
  match rest with
  | EmptyString => true
  | String c _ => (N_of_ascii c =? 44)%N || (N_of_ascii c =? 10)%N
  end.

Fixpoint all_ws (s : string) : bool :=
  match s with
  | EmptyString => true
  | String c s' => is_ws c && all_ws s'
  end.

(** What may follow the digits of a number. *)
Definition num_end (rest : string) : bool :=
  match rest with
  | EmptyString => true
  | String c _ =>
      match digit_of c with
      | Some _ => false
      | None =>
          let n := N_of_ascii c in
          negb ((n =? 46)%N || (n =? 101)%N || (n =? 69)%N)
      end
  end.

(** A value's text starts with a character that is no white space and no
    closing bracket. *)
Definition starts_value (s : string) : bool :=
  match s with
  | EmptyString => false
  | String c _ =>
      negb (is_ws c) && negb (N_of_ascii c =? 93)%N && negb (N_of_ascii c =? 125)%N
  end.

(** [v] is read back from its text, under any indentation and before any
    continuation that may follow a value. *)
Definition roundtrips (v : JsValue) : Prop :=
  forall indent fuel rest,
    all_ws indent = true ->
    (String.length (stringify indent v) < fuel)%nat ->
    value_end rest = true ->
    parse_value fuel (stringify indent v +:+ rest) = Some (v, rest).

(** The specification's edge validity, stated on the nodes of a graph:
    [from] and [to] are names of nodes and differ. *)
Definition edge_valid_in (ns : list GraphNode) (e : GraphEdge) : Prop :=
  (exists n, n ∈ ns ∧ n_name n = e_from e)
  ∧ (exists m, m ∈ ns ∧ n_name m = e_to e)
  ∧ e_from e ≠ e_to e.

(** ** Concrete inputs used below *)

Definition world_2026 : World :=
  mkWorld "2026-01-01T00:00:00.000Z" (fun _ => Some "abc123").

Definition world_2027 : World :=
  mkWorld "2027-01-01T00:00:00.000Z" (fun _ => Some "abc123").

(** Four nodes, two of them with [->] in the name, and the two edges
    [a -> b->c] and [a->b -> c], whose keys are both [a->b->c:extends]. *)
Definition arrow_nodes : list GraphNode :=
  [ mkNode "a" class "x.ts" (Int 1); mkNode "b->c" class "x.ts" (Int 2);
    mkNode "a->b" class "x.ts" (Int 3); mkNode "c" class "x.ts" (Int 4) ].

Definition arrow_edge_1 : GraphEdge := mkEdge "a" "b->c" extends.
Definition arrow_edge_2 : GraphEdge := mkEdge "a->b" "c" extends.

Definition Foo_class : GraphNode := mkNode "Foo" class "a.ts" (Int 1).
Definition Foo_interface : GraphNode := mkNode "Foo" interface "a.ts" (Int 5).
Definition Bar_interface : GraphNode := mkNode "Bar" interface "bar.ts" (Int 10).

Definition Foo_class_graph : DependencyGraph :=
  mkGraph [Foo_class] [] "2026-01-01T00:00:00.000Z" None.

Definition Foo_interface_graph : DependencyGraph :=
  mkGraph [Foo_interface] [] "2026-01-01T00:00:00.000Z" None.

(** The two graphs of the test "detects edge kind changes as add+remove". *)
Definition node_A : GraphNode := mkNode "A" class "test.ts" (Int 1).
Definition node_B : GraphNode := mkNode "B" class "test.ts" (Int 1).
Definition A_extends_B : GraphEdge := mkEdge "A" "B" extends.
Definition A_field_B : GraphEdge := mkEdge "A" "B" field_type.

Definition kind_before : DependencyGraph :=
  mkGraph [node_A; node_B] [A_extends_B] "2026-01-01T00:00:00.000Z" None.

Definition kind_after : DependencyGraph :=
  mkGraph [node_A; node_B] [A_field_B] "2026-01-01T00:00:00.000Z" None.

(** Same clock and same answer in ["."] as [world_2026], no repository
    elsewhere. *)
Definition world_2026_bare : World :=
  mkWorld "2026-01-01T00:00:00.000Z"
    (fun dir => if bool_decide (dir = ".") then Some "abc123" else None).

(** A class implementing a declared interface, holding a field of an
    undeclared type, and referring to itself; [Config] declared twice. *)
Definition Config_a : GraphNode := mkNode "Config" class "a.ts" (Int 1).
Definition Config_b : GraphNode := mkNode "Config" class "b.ts" (Int 1).
Definition Foo_implements_Bar : GraphEdge := mkEdge "Foo" "Bar" implements.
Definition Foo_field_Logger : GraphEdge := mkEdge "Foo" "Logger" field_type.
Definition Foo_field_Foo : GraphEdge := mkEdge "Foo" "Foo" field_type.

Definition scenario_nodes : list GraphNode :=
  [Foo_class; Config_a; Bar_interface; Config_b].

Definition scenario_edges : list GraphEdge :=
  [Foo_implements_Bar; Foo_field_Logger; Foo_field_Foo; Foo_implements_Bar].

(** Syntax trees: a named node held under a field, a named node held under
    no field, and an anonymous token. *)
Definition fld (f type text : string) (children : list SyntaxNode) : SyntaxNode :=
  SNode (Some f) type text true 0 children.

Definition nd (type text : string) (children : list SyntaxNode) : SyntaxNode :=
  SNode None type text true 0 children.

Definition tok (text : string) : SyntaxNode :=
  SNode None text text false 0 [].

(** [class C { x: ty }] as a TypeScript tree. *)
Definition ts_class_with_field (ty : string) : SyntaxNode :=
  let field := "x: " +:+ ty in
  let body := "{ " +:+ field +:+ " }" in
  let decl := "class C " +:+ body in
  nd "program" decl [
    nd "class_declaration" decl [
      tok "class";
      fld "name" "type_identifier" "C" [];
      fld "body" "class_body" body [
        tok "{";
        nd "public_field_definition" field [
          fld "name" "property_identifier" "x" [];
          fld "type" "type_annotation" (": " +:+ ty) [
            tok ":"; nd "type_identifier" ty [] ] ];
        tok "}" ] ] ].

(** [class C { ty x; }] as a Java tree. *)
Definition java_class_with_field (ty : string) : SyntaxNode :=
  let field := ty +:+ " x;" in
  let body := "{ " +:+ field +:+ " }" in
  let decl := "class C " +:+ body in
  nd "program" decl [
    nd "class_declaration" decl [
      tok "class";
      fld "name" "identifier" "C" [];
      fld "body" "class_body" body [
        tok "{";
        nd "field_declaration" field [
          fld "type" "type_identifier" ty [];
          fld "declarator" "variable_declarator" "x" [ fld "name" "identifier" "x" [] ];
          tok ";" ];
        tok "}" ] ] ].

(** [class C { var x: ty }] as a Swift tree. *)
Definition swift_class_with_field (ty : string) : SyntaxNode :=
  let field := "var x: " +:+ ty in
  let body := "{ " +:+ field +:+ " }" in
  let decl := "class C " +:+ body in
  nd "source_file" decl [
    nd "class_declaration" decl [
      tok "class";
      fld "name" "type_identifier" "C" [];
      fld "body" "class_body" body [
        tok "{";
        nd "property_declaration" field [
          tok "var";
          fld "name" "pattern" "x" [];
          fld "type" "type_annotation" (": " +:+ ty) [
            tok ":"; nd "user_type" ty [ nd "type_identifier" ty [] ] ] ];
        tok "}" ] ] ].

(** [type User struct { Name string; Age int; Addr Address }] as a Go tree. *)
Definition go_struct_User : SyntaxNode :=
  let fields := "{ Name string; Age int; Addr Address }" in
  let spec := "User struct " +:+ fields in
  let decl := "type " +:+ spec in
  nd "source_file" decl [
    nd "type_declaration" decl [
      tok "type";
      nd "type_spec" spec [
        fld "name" "type_identifier" "User" [];
        fld "type" "struct_type" ("struct " +:+ fields) [
          tok "struct";
          nd "field_declaration_list" fields [
            nd "field_declaration" "Name string" [
              fld "name" "field_identifier" "Name" [];
              fld "type" "type_identifier" "string" [] ];
            nd "field_declaration" "Age int" [
              fld "name" "field_identifier" "Age" [];
              fld "type" "type_identifier" "int" [] ];
            nd "field_declaration" "Addr Address" [
              fld "name" "field_identifier" "Addr" [];
              fld "type" "type_identifier" "Address" [] ] ] ] ] ] ].

(** A project directory with [good.ts] holding [class Valid {}] and
    [bad.ts], on which the parser throws. *)
Definition Valid_tree : SyntaxNode :=
  nd "program" "class Valid {}" [
    nd "class_declaration" "class Valid {}" [
      tok "class";
      fld "name" "type_identifier" "Valid" [];
      fld "body" "class_body" "{}" [ tok "{"; tok "}" ] ] ].

Definition two_file_env : ScanEnv :=
  {| path_resolve := fun dir => "/tmp/" +:+ dir;
     path_resolve2 := fun absDir file => absDir +:+ "/" +:+ file;
     path_relative := fun absDir absFile =>
       String.substring (String.length absDir + 1)
         (String.length absFile - String.length absDir - 1) absFile;
     glob := fun _ _ => Ok ["good.ts"; "bad.ts"];
     readFileSync := fun absFile =>
       if bool_decide (absFile = "/tmp/proj/good.ts") then Ok "class Valid {}"
       else if bool_decide (absFile = "/tmp/proj/bad.ts") then Ok "????"
       else Throw "Error: ENOENT: no such file or directory";
     ts_parse := fun grammar source =>
       if bool_decide (source = "class Valid {}") then Ok Valid_tree
       else Throw "Error: Invalid argument" |}.

(** The graph of the test "round-trips a graph", and a graph with a node
    whose line is not a number. *)
Definition roundtrip_test_graph : DependencyGraph :=
  mkGraph
    [ mkNode "Foo" class "foo.ts" (Int 1); mkNode "Bar" interface "bar.ts" (Int 10) ]
    [ mkEdge "Foo" "Bar" implements ]
    "2026-01-01T00:00:00.000Z" (Some "abc123").

Definition NaN_line_graph : DependencyGraph :=
  mkGraph [ mkNode "Foo" class "foo.ts" NaN ] [] "2026-01-01T00:00:00.000Z" None.

(** ** More of the built-in [String] and [Array]

    Strings hold code units below 256, as in the model of [JSON]. *)

(** WhiteSpace and LineTerminator of ECMA-262 among those code units: TAB,
    LF, VT, FF, CR, SP and NBSP. *)
Definition is_space (c : ascii) : bool :=
  let n := N_of_ascii c in
  ((9 <=? n) && (n <=? 13) || (n =? 32) || (n =? 160))%N.

Fixpoint trimStart (s : string) : string :=
  match s with
  | EmptyString => EmptyString
  | String c s' => if is_space c then trimStart s' else s
  end.

Fixpoint trimEnd (s : string) : string :=
  match s with
  | EmptyString => EmptyString
  | String c s' =>
      match trimEnd s' with
      | EmptyString => if is_space c then EmptyString else String c EmptyString
      | r => String c r
      end
  end.

(** [s.trim()] *)
Definition trim (s : string) : string := trimEnd (trimStart s).

(** [s.startsWith(p)] *)
Definition startsWith (s p : string) : bool := String.prefix p s.

(** [s.split(sep)] for a separator of one character: the pieces between
    the separators, one piece more than there are separators. *)
Fixpoint split (sep : ascii) (s : string) : list string :=
  match s with
  | EmptyString => [EmptyString]
  | String c s' =>
      if bool_decide (c = sep) then EmptyString :: split sep s'
      else
        match split sep s' with
        | part :: parts => String c part :: parts
        | [] => [String c EmptyString]
        end
  end.

(** [arr.sort(comparefn)].  The sort is stable, and for a comparison
    function that orders the elements consistently its result is fixed by
    the standard: the elements in ascending order of [comparefn], equal ones
    in their order in [arr].  Insertion from the right computes it: an
    element moves behind those that compare strictly smaller. *)
Fixpoint sort_insert {T} (comparefn : T -> T -> Z) (x : T) (sorted : list T)
  : list T :=
  match sorted with
  | [] => [x]
  | y :: rest =>
      if (0 <? comparefn x y)%Z then y :: sort_insert comparefn x rest
      else x :: sorted
  end.

Definition Array_sort {T} (comparefn : T -> T -> Z) (arr : list T) : list T :=
  foldr (sort_insert comparefn) [] arr.

(** [map.get(k)], [None] for [undefined]. *)
Fixpoint JsMap_get {V} (m : JsMap.t V) (k : string) : option V :=
  match m with
  | [] => None
  | (k', v) :: m' => if decide (k' = k) then Some v else JsMap_get m' k
  end.

(** ** format.ts: the statistics behind the summaries

    Counts are array lengths and numbers of loop iterations: natural
    numbers far below [2^53], where [number] arithmetic is exact. *)

Record TypeStats := mkStats {
  t_name : string;
  t_kind : string;
  t_file : string;
  outgoing : nat;
  incoming : nat
}.

(** The body of the second loop of [computeTypeStats].  [stats.get]
    returns the object the map holds, so [from.outgoing++] changes the value
    under the key and leaves the key where it is; when [edge.from] and
    [edge.to] are the same name both increments hit the same object. *)
Definition stats_edge_step (stats : JsMap.t TypeStats) (edge : GraphEdge)
  : JsMap.t TypeStats :=
  let stats :=
    match JsMap_get stats (e_from edge) with
    | Some from =>
        JsMap.set stats (e_from edge)
          (mkStats (t_name from) (t_kind from) (t_file from)
             (outgoing from + 1) (incoming from))
    | None => stats
    end in
  match JsMap_get stats (e_to edge) with
  | Some to =>
      JsMap.set stats (e_to edge)
        (mkStats (t_name to) (t_kind to) (t_file to)
           (outgoing to) (incoming to + 1))
  | None => stats
  end.

Definition computeTypeStats (graph : DependencyGraph) : JsMap.t TypeStats :=
  let stats :=
    fold_left
      (fun stats node =>
         JsMap.set stats (n_name node)
           (mkStats (n_name node) (NodeKind_str (n_kind node)) (n_file node) 0 0))
      (nodes graph) JsMap.empty in
  fold_left stats_edge_step (edges graph) stats.

(** [countByKind(items)]; [kind] reads [item.kind].  The result is an
    object used as a map from kind to count; its keys are literals of the
    two kind types, which are no array indices and no properties of
    [Object.prototype], so they are kept in insertion order and
    [counts[k]] is [undefined] until [k] is counted. *)
Definition countByKind {A} (kind : A -> string) (items : list A) : JsMap.t nat :=
  fold_left
    (fun counts item =>
       JsMap.set counts (kind item)
         (default 0 (JsMap_get counts (kind item)) + 1))
    items JsMap.empty.

(** [[...items].sort((a, b) => key(b) - key(a)).slice(0, n)] *)
Definition topN {T} (items : list T) (key : T -> nat) (n : nat) : list T :=
  take n (Array_sort (fun a b => Z.of_nat (key b) - Z.of_nat (key a))%Z items).

Definition dirFromFile (file : string) : string :=
  let parts := split "/" file in
  if (1 <? length parts)%nat then join "/" (removelast parts) else ".".

(** ** hook.ts: the plain report of a diff *)

(** [`${n}`] for an array length. *)
Definition length_str {A} (l : list A) : string :=
  Number_toString (Z.of_nat (length l)).

(** The four blocks
    [if (items.length > 0) { lines.push(title); for (...) lines.push(...);
    lines.push(EmptyString) }]. *)
Definition report_block {A} (title : string) (line : A -> string) (items : list A)
  : list string :=
  if (0 <? length items)%nat then title :: (line <$> items) ++ [EmptyString]
  else [].

(** [if (items.length > 0) parts.push(`${items.length} ${what}`)] *)
Definition report_part {A} (items : list A) (what : string) : list string :=
  if (0 <? length items)%nat then [length_str items +:+ " " +:+ what] else [].

(** The array [parts] and the array [lines] when the function returns.
    The function also adds up two totals, which it never uses. *)
Definition report_parts (diff : GraphDiff) : list string :=
  report_part (addedNodes diff) "type(s) added"
  ++ report_part (removedNodes diff) "type(s) removed"
  ++ report_part (addedEdges diff) "dependency(ies) added"
  ++ report_part (removedEdges diff) "dependency(ies) removed".

Definition report_lines (diff : GraphDiff) : list string :=
  let parts := report_parts diff in
  ["## Architecture Changes"; EmptyString]
  ++ report_block "### New types"
       (fun node => "+ " +:+ n_name node +:+ " (" +:+ NodeKind_str (n_kind node)
                    +:+ ") in " +:+ n_file node)
       (addedNodes diff)
  ++ report_block "### Removed types"
       (fun node => "- " +:+ n_name node +:+ " (" +:+ NodeKind_str (n_kind node)
                    +:+ ") was in " +:+ n_file node)
       (removedNodes diff)
  ++ report_block "### New dependencies"
       (fun edge => "+ " +:+ e_from edge +:+ " -> " +:+ e_to edge +:+ " ("
                    +:+ EdgeKind_str (e_kind edge) +:+ ")")
       (addedEdges diff)
  ++ report_block "### Removed dependencies"
       (fun edge => "- " +:+ e_from edge +:+ " -> " +:+ e_to edge +:+ " ("
                    +:+ EdgeKind_str (e_kind edge) +:+ ")")
       (removedEdges diff)
  ++ ["### Summary"]
  ++ [ if (length parts =? 0)%nat then "No architectural changes detected."
       else join ". " parts +:+ "." ].

Definition formatDiffForAgent (diff : GraphDiff) : string :=
  join nl (report_lines diff).

(** ** parse.ts: scanning a git revision *)

(** [execSync(command, { cwd, encoding: "utf-8" })]: what the command
    prints, or a throw when it exits with an error. *)
Record GitEnv := mkGitEnv {
  execSync : string -> string -> Result string
}.

Definition getGitRoot (git : GitEnv) (dir : string) : Result string :=
  bind (execSync git "git rev-parse --show-toplevel" dir)
    (fun out => Ok (trim out)).

(** The files of the listing that are scanned. *)
Definition git_file_list (prefixWithSlash output : string) : list string :=
  filter
    (fun f =>
       startsWith f prefixWithSlash
       && existsb (fun ext => endsWith f ext) getAllExtensions
       && negb (includes f "node_modules/")
       && negb (includes f "dist/")
       && negb (includes f "build/"))
    (split "010" (trim output)).

(** One iteration of the loop over [fileList]; its [catch] is empty. *)
Definition git_step (env : ScanEnv) (git : GitEnv) (gitRoot ref dirPrefix : string)
    (st : Fragment) (file : string) : Fragment :=
  match getParserForFile env file with
  | None => st
  | Some parser =>
      match
        bind (execSync git ("git show " +:+ ref +:+ ":" +:+ file) gitRoot)
          (fun source =>
             let relFile :=
               if truthy dirPrefix then path_relative env dirPrefix file else file in
             parser source relFile)
      with
      | Ok r => frag_push st r
      | Throw _ => st
      end
  end.

(** [scanFromGit(dir, ref)]; an absent [ref] is ["HEAD~1"]. *)
Definition scanFromGit (env : ScanEnv) (git : GitEnv) (w : World)
    (dir : string) (ref : option string) : DependencyGraph :=
  let ref := default "HEAD~1" ref in
  let absDir := path_resolve env dir in
  match getGitRoot git absDir with
  | Throw _ => mkGraph [] [] (clock w) None
  | Ok gitRoot =>
      let dirPrefix := path_relative env gitRoot absDir in
      let prefixWithSlash :=
        if truthy dirPrefix then dirPrefix +:+ "/" else EmptyString in
      match execSync git ("git ls-tree -r --name-only " +:+ ref) gitRoot with
      | Throw _ => mkGraph [] [] (clock w) None
      | Ok output =>
          let fileList := git_file_list prefixWithSlash output in
          let st := fold_left (git_step env git gitRoot ref dirPrefix) fileList
                      frag_empty in
          let commitSha :=
            match execSync git ("git rev-parse " +:+ ref) gitRoot with
            | Ok out => Some (trim out)
            | Throw _ => None
            end in
          filterAndDedupe w (f_nodes st) (f_edges st) absDir commitSha
      end
  end.

(** ** parser-loader.ts: native or WebAssembly tree-sitter

    The loader imports packages at run time and keeps what it found in
    variables of the module.  The objects it hands out are opaque to the
    program; the model keeps of each the class it is an instance of. *)

Inductive Backend := native | wasm.

#[global] Instance Backend_eq_dec : EqDecision Backend.
Proof. solve_decision. Defined.

(** [new nativeTreeSitter()] and [new WasmParser()]. *)
Inductive ParserObject := NativeParser | WasmParser.

(** The export of a native grammar package, and what [WasmLanguage.load]
    returns for a [.wasm] file. *)
Inductive Language :=
  | NativeLanguage (nativePackage : string) (nativeSubExport : option string)
  | WasmLanguage (wasmPath : string).

(** What the loader calls: [import(specifier)], [WasmParser.init()],
    [require.resolve(request)] and [WasmLanguage.load(path)]; each returns
    or throws. *)
Record LoaderEnv := mkLoaderEnv {
  import_module : string -> Result unit;
  WasmParser_init : Result unit;
  require_resolve : string -> Result string;
  WasmLanguage_load : string -> Result unit
}.

(** The variables of the module.  [nativeTreeSitter], [WasmParser] and
    [WasmLanguage] hold the imported classes; they are read only after
    [detectedBackend], respectively [wasmInitialized], says they are set. *)
Record Loader := mkLoader {
  detectedBackend : option Backend;
  wasmInitialized : bool
}.

(** An [async] function over module variables [S]: from the variables
    before the call to its outcome and the variables after it. *)
Definition Async (S A : Type) : Type := S -> Result A * S.

Definition a_return {S A} (a : A) : Async S A := fun s => (Ok a, s).

Definition a_throw {S A} (err : string) : Async S A := fun s => (Throw err, s).

Definition a_bind {S A B} (m : Async S A) (k : A -> Async S B) : Async S B :=
  fun s =>
    match m s with
    | (Ok a, s') => k a s'
    | (Throw err, s') => (Throw err, s')
    end.

Notation "'await' x <- m 'in' k" := (a_bind m (fun x => k))
  (at level 10, x binder, m at level 100, k at level 200).

(** A call of the environment, which leaves the variables alone. *)
Definition a_call {S A} (r : Result A) : Async S A := fun s => (r, s).

Definition detectBackend (env : LoaderEnv) : Async Loader Backend := fun st =>
  match detectedBackend st with
  | Some backend => (Ok backend, st)
  | None =>
      match import_module env "tree-sitter" with
      | Ok _ => (Ok native, mkLoader (Some native) (wasmInitialized st))
      | Throw _ => (Ok wasm, mkLoader (Some wasm) (wasmInitialized st))
      end
  end.

Definition initWasm (env : LoaderEnv) : Async Loader unit := fun st =>
  if wasmInitialized st then (Ok tt, st)
  else
    (await _ <- a_call (import_module env "web-tree-sitter") in
     await _ <- a_call (WasmParser_init env) in
     fun st => (Ok tt, mkLoader (detectedBackend st) true)) st.

(** [createParser(useWasm)]; an absent [useWasm] is [false]. *)
Definition createParser (env : LoaderEnv) (useWasm : bool)
  : Async Loader ParserObject :=
  await backend <- detectBackend env in
  if bool_decide (backend = native) && negb useWasm then a_return NativeParser
  else
    await _ <- initWasm env in
    a_return WasmParser.

Definition loadLanguage (env : LoaderEnv) (nativePackage wasmFileName : string)
    (nativeSubExport : option string) : Async Loader (Language * Backend) :=
  await backend <- detectBackend env in
  let wasm_path : Async Loader (Language * Backend) :=
    await _ <- initWasm env in
    await wasmPath <- a_call (require_resolve env
                               ("tree-sitter-wasms/out/" +:+ wasmFileName)) in
    await _ <- a_call (WasmLanguage_load env wasmPath) in
    a_return (WasmLanguage wasmPath, wasm) in
  if bool_decide (backend = native) then
    match import_module env nativePackage with
    | Ok _ => a_return (NativeLanguage nativePackage nativeSubExport, native)
    | Throw _ => wasm_path
    end
  else wasm_path.

Definition getBackend (env : LoaderEnv) : Async Loader Backend := detectBackend env.

(** The variables [parserInstance] and [goLang] ([javaLang], [swiftLang])
    of an extractor module. *)
Record ParserModule := mkParserModule {
  parserInstance : option ParserObject;
  moduleLang : option Language
}.

(** Run a loader function inside an extractor module. *)
Definition in_loader {M A} (m : Async Loader A) : Async (Loader * M) A :=
  fun s => let '(r, st) := m s.1 in (r, (st, s.2)).

(** [getParser()] of go.ts, java.ts and swift.ts, which differ in the two
    names only.  It returns the parser after [setLanguage]: the parser
    object and the language it has been given. *)
Definition getParser (env : LoaderEnv) (nativePackage wasmFileName : string)
  : Async (Loader * ParserModule) (ParserObject * option Language) :=
  await _ <-
    (fun s =>
       match parserInstance s.2 with
       | Some _ => (Ok tt, s)
       | None =>
           (await result <- in_loader (loadLanguage env nativePackage wasmFileName None) in
            await _ <- (fun s => (Ok tt, (s.1, mkParserModule (parserInstance s.2)
                                                 (Some result.1)))) in
            await parser <- in_loader (createParser env
                                         (bool_decide (result.2 = wasm))) in
            fun s => (Ok tt, (s.1, mkParserModule (Some parser) (moduleLang s.2)))) s
       end) in
  fun s =>
    match parserInstance s.2 with
    | Some parser => (Ok (parser, moduleLang s.2), s)
    | None => (Throw "TypeError: Cannot read properties of null", s)
    end.

Definition Go_getParser (env : LoaderEnv) :=
  getParser env "tree-sitter-go" "tree-sitter-go.wasm".

Definition Java_getParser (env : LoaderEnv) :=
  getParser env "tree-sitter-java" "tree-sitter-java.wasm".

Definition Swift_getParser (env : LoaderEnv) :=
  getParser env "tree-sitter-swift" "tree-sitter-swift.wasm".

(** The variables [parserInstance], [tsLang] and [tsxLang] of
    typescript.ts, and its [getParser(isTsx)]. *)
Record TypeScriptModule := mkTypeScriptModule {
  ts_parserInstance : option ParserObject;
  tsLang : option Language;
  tsxLang : option Language
}.

Definition TypeScript_getParser (env : LoaderEnv) (isTsx : bool)
  : Async (Loader * TypeScriptModule) (ParserObject * option Language) :=
  await _ <-
    (fun s =>
       match ts_parserInstance s.2 with
       | Some _ => (Ok tt, s)
       | None =>
           (await tsResult <-
              in_loader (loadLanguage env "tree-sitter-typescript"
                           "tree-sitter-typescript.wasm" (Some "typescript")) in
            await tsxResult <-
              in_loader (loadLanguage env "tree-sitter-typescript"
                           "tree-sitter-tsx.wasm" (Some "tsx")) in
            await _ <- (fun s => (Ok tt, (s.1, mkTypeScriptModule
                                                 (ts_parserInstance s.2)
                                                 (Some tsResult.1)
                                                 (Some tsxResult.1)))) in
            await parser <- in_loader (createParser env
                                         (bool_decide (tsResult.2 = wasm))) in
            fun s => (Ok tt, (s.1, mkTypeScriptModule (Some parser)
                                     (tsLang s.2) (tsxLang s.2)))) s
       end) in
  fun s =>
    match ts_parserInstance s.2 with
    | Some parser => (Ok (parser, if isTsx then tsxLang s.2 else tsLang s.2), s)
    | None => (Throw "TypeError: Cannot read properties of null", s)
    end.

(** ** Further notions used in the statements *)

Definition parser_backend (p : ParserObject) : Backend :=
  match p with
  | NativeParser => native
  | WasmParser => wasm
  end.

Definition language_backend (l : Language) : Backend :=
  match l with
  | NativeLanguage _ _ => native
  | WasmLanguage _ => wasm
  end.

(** A parser may be given a language of its own backend only. *)
Definition fits (p : ParserObject) (l : option Language) : Prop :=
  exists lang, l = Some lang ∧ parser_backend p = language_backend lang.

Definition module_fits (m : ParserModule) : Prop :=
  forall p, parserInstance m = Some p -> fits p (moduleLang m).

Definition ts_module_fits (m : TypeScriptModule) : Prop :=
  forall p, ts_parserInstance m = Some p -> fits p (tsLang m) ∧ fits p (tsxLang m).


(** All nodes of a syntax tree. *)
Fixpoint subnodes (node : SyntaxNode) : list SyntaxNode :=
  node :: flat_map subnodes (s_children node).

(** The node types at which the walk of an extractor stops. *)
Definition Java_declaration (node : SyntaxNode) : bool :=
  bool_decide (s_type node = "class_declaration")
  || bool_decide (s_type node = "interface_declaration")
  || bool_decide (s_type node = "enum_declaration").

Definition Swift_declaration (node : SyntaxNode) : bool :=
  bool_decide (s_type node = "class_declaration")
  || bool_decide (s_type node = "protocol_declaration")
  || bool_decide (s_type node = "enum_declaration")
  || bool_decide (s_type node = "extension_declaration").

Definition TypeScript_declaration (node : SyntaxNode) : bool :=
  bool_decide (s_type node = "class_declaration")
  || bool_decide (s_type node = "abstract_class_declaration")
  || bool_decide (s_type node = "interface_declaration")
  || bool_decide (s_type node = "type_alias_declaration")
  || bool_decide (s_type node = "enum_declaration").

(** The declarations of a tree that lie inside no other declaration. *)
Fixpoint top_declarations (is_decl : SyntaxNode -> bool) (node : SyntaxNode)
  : list SyntaxNode :=
  if is_decl node then [node]
  else flat_map (top_declarations is_decl) (s_children node).

(** A node record read off the tree node [d]: the text of its [name]
    field, the path given and its row plus one. *)
Definition declared_at (filePath : string) (d : SyntaxNode) (n : GraphNode) : Prop :=
  (exists nameNode, childForFieldName d "name" = Some nameNode
                    ∧ n_name n = s_text nameNode)
  ∧ n_file n = filePath
  ∧ n_line n = Int (s_row d + 1).

(** [const v = m.get(k); if (v) v.field++], as an update of the map. *)
Definition update_at {V} (m : JsMap.t V) (k : string) (f : V -> V) : JsMap.t V :=
  match JsMap_get m k with
  | Some v => JsMap.set m k (f v)
  | None => m
  end.

Definition add_outgoing (n : nat) (s : TypeStats) : TypeStats :=
  mkStats (t_name s) (t_kind s) (t_file s) (outgoing s + n) (incoming s).

Definition add_incoming (n : nat) (s : TypeStats) : TypeStats :=
  mkStats (t_name s) (t_kind s) (t_file s) (outgoing s) (incoming s + n).

(** The entries after the node loop. *)
Definition node_stats (node : GraphNode) : TypeStats :=
  mkStats (n_name node) (NodeKind_str (n_kind node)) (n_file node) 0 0.

(** [s] is the text of a node of the tree. *)
Definition text_in (root : SyntaxNode) (s : string) : Prop :=
  exists d, d ∈ subnodes root ∧ s_text d = s.

(** An edge from [name] to the text of a node under [node]. *)
Definition edge_into (name : string) (node : SyntaxNode) (e : GraphEdge) : Prop :=
  e_from e = name ∧ text_in node (e_to e).

(** An edge that starts at [name] and has one of [kinds]. *)
Definition edge_from (name : string) (kinds : list EdgeKind) (e : GraphEdge) : Prop :=
  e_from e = name ∧ e_kind e ∈ kinds.

(** What a declaration contributes: nothing, or one node record read off
    the declaration, of one of [nkinds], with edges that start at it and
    have one of [ekinds]. *)
Definition declaration_fragment (filePath : string) (d : SyntaxNode)
    (nkinds : list NodeKind) (ekinds : list EdgeKind) (r : Fragment) : Prop :=
  r = frag_empty
  ∨ exists n, f_nodes r = [n] ∧ declared_at filePath d n ∧ n_kind n ∈ nkinds
              ∧ forall e, e ∈ f_edges r -> edge_from (n_name n) ekinds e.

(** ** Further concrete inputs *)

Definition Config_moved_before : DependencyGraph :=
  mkGraph [Config_a] [] "2026-01-01T00:00:00.000Z" None.

Definition Config_moved_after : DependencyGraph :=
  mkGraph [Config_b] [] "2027-01-01T00:00:00.000Z" (Some "abc123").

(** A checkout of one commit in [/tmp/proj]: the listing of [HEAD~1] holds
    [good.ts], [bad.ts], on whose text the parser throws, and a build
    product; and a directory that is no repository. *)
Definition one_commit_git : GitEnv :=
  mkGitEnv (fun command cwd =>
    if bool_decide (command = "git rev-parse --show-toplevel")
    then Ok ("/tmp/proj" +:+ nl)
    else if bool_decide (command = "git ls-tree -r --name-only HEAD~1")
    then Ok ("good.ts" +:+ nl +:+ "bad.ts" +:+ nl +:+ "redist/gen.ts" +:+ nl)
    else if bool_decide (command = "git show HEAD~1:good.ts")
    then Ok "class Valid {}"
    else if bool_decide (command = "git show HEAD~1:bad.ts")
    then Ok "????"
    else if bool_decide (command = "git rev-parse HEAD~1")
    then Ok ("def456" +:+ nl)
    else Throw "fatal: bad revision").

Definition no_git : GitEnv :=
  mkGitEnv (fun command cwd => Throw "fatal: not a git repository").

(** A machine on which the native tree-sitter runtime and the native
    TypeScript grammar are installed, but no native Go grammar. *)
Definition no_native_go : LoaderEnv :=
  mkLoaderEnv
    (fun specifier =>
       if bool_decide (specifier = "tree-sitter-go")
       then Throw "Error: Cannot find package"
       else Ok tt)
    (Ok tt)
    (fun request => Ok ("/node_modules/" +:+ request))
    (fun path => Ok tt).

(** * Properties *)

(** ** Strings and keys *)

Lemma append_nil (b : string) : EmptyString +:+ b = b.
Proof. reflexivity. Qed.

Lemma append_cons x (a b : string) : String x a +:+ b = String x (a +:+ b).
Proof. reflexivity. Qed.

Ltac simpl_append := rewrite ?append_cons, ?append_nil in *.

(** Propositional and first-order bookkeeping. *)
Ltac logic := solve [tauto | intuition congruence | firstorder (subst; eauto; congruence)].

Lemma append_assoc (a b c : string) : (a +:+ b) +:+ c = a +:+ (b +:+ c).
Proof. induction a as [|x a IH]; simpl_append; [done | by f_equal]. Qed.

Lemma has_char_app c a b : has_char c (a +:+ b) = has_char c a || has_char c b.
Proof.
  induction a as [|x a IH]; simpl_append; simpl; [done |].
  by rewrite IH, orb_assoc.
Qed.

(** Two strings cut at the last occurrence of [c] agree piecewise. *)
Lemma cut_last_inj c a b s1 s2 :
  has_char c s1 = false -> has_char c s2 = false ->
  a +:+ String c s1 = b +:+ String c s2 -> a = b ∧ s1 = s2.
Proof.
  intros H1 H2. revert b.
  induction a as [|x a IH]; intros [|y b] Heq; simpl_append.
  - by injection Heq.
  - injection Heq as _ Heq. subst s1.
    rewrite has_char_app in H1. simpl in H1.
    rewrite bool_decide_true in H1 by done.
    by rewrite orb_true_r in H1.
  - injection Heq as _ Heq. subst s2.
    rewrite has_char_app in H2. simpl in H2.
    rewrite bool_decide_true in H2 by done.
    by rewrite orb_true_r in H2.
  - injection Heq as -> Heq. destruct (IH _ Heq) as [-> ->]. done.
Qed.

(** Two arrow-free strings followed by [->] agree when the wholes do. *)
Lemma cut_arrow_inj a b r1 r2 :
  contains_arrow a = false -> contains_arrow b = false ->
  a +:+ "->" +:+ r1 = b +:+ "->" +:+ r2 -> a = b ∧ r1 = r2.
Proof.
  revert b. induction a as [|x a IH]; intros [|y b] Ha Hb Heq; simpl_append.
  - by injection Heq.
  - injection Heq as <- Heq. destruct b as [|z b]; simpl_append.
    + discriminate.
    + injection Heq as <- _. simpl in Hb. discriminate.
  - injection Heq as -> Heq. destruct a as [|z a]; simpl_append.
    + discriminate.
    + injection Heq as -> _. simpl in Ha. discriminate.
  - injection Heq as -> Heq.
    apply orb_false_elim in Ha as [_ Ha]. apply orb_false_elim in Hb as [_ Hb].
    destruct (IH _ Ha Hb Heq) as [-> ->]. done.
Qed.

Lemma NodeKind_str_no_colon k : has_char ":" (NodeKind_str k) = false.
Proof. by destruct k. Qed.

Lemma EdgeKind_str_no_colon k : has_char ":" (EdgeKind_str k) = false.
Proof. by destruct k. Qed.

Lemma NodeKind_str_inj k1 k2 : NodeKind_str k1 = NodeKind_str k2 -> k1 = k2.
Proof. by destruct k1, k2. Qed.

Lemma EdgeKind_str_inj k1 k2 : EdgeKind_str k1 = EdgeKind_str k2 -> k1 = k2.
Proof. by destruct k1, k2. Qed.

(** [nodeKey] identifies a node by exactly its name and kind. *)
Lemma nodeKey_inj n m :
  nodeKey n = nodeKey m <-> n_name n = n_name m ∧ n_kind n = n_kind m.
Proof.
  unfold nodeKey. split.
  - intros Heq. simpl_append.
    apply cut_last_inj in Heq as [? ?%NodeKind_str_inj];
      auto using NodeKind_str_no_colon.
  - by intros [-> ->].
Qed.

(** Equal edge keys give equal kinds and equal [from->to] strings. *)
Lemma edgeKey_eq e e' :
  edgeKey e = edgeKey e' ->
  e_kind e = e_kind e'
  ∧ e_from e +:+ "->" +:+ e_to e = e_from e' +:+ "->" +:+ e_to e'.
Proof.
  unfold edgeKey. intros Heq.
  assert (forall f t k, f +:+ "->" +:+ t +:+ ":" +:+ k
                        = (f +:+ "->" +:+ t) +:+ String ":" k) as Hassoc.
  { intros f t k. rewrite !append_assoc. by simpl_append. }
  rewrite !Hassoc in Heq.
  apply cut_last_inj in Heq as [? ?%EdgeKind_str_inj];
    auto using EdgeKind_str_no_colon.
Qed.

Lemma edgeKey_kind_ne e e' : e_kind e ≠ e_kind e' -> edgeKey e ≠ edgeKey e'.
Proof. intros Hne Heq. by apply edgeKey_eq in Heq as [? _]. Qed.

(** On edges whose [from] holds no [->], the key determines the edge. *)
Lemma edgeKey_inj e e' :
  contains_arrow (e_from e) = false -> contains_arrow (e_from e') = false ->
  edgeKey e = edgeKey e' -> e = e'.
Proof.
  intros Ha Hb [Hk Heq]%edgeKey_eq.
  apply cut_arrow_inj in Heq as [Hf Ht]; [|done..].
  destruct e, e'; simpl in *; by subst.
Qed.

(** ** JavaScript maps *)

Lemma JsMap_has_spec {V} (m : JsMap.t V) k :
  JsMap.has m k = bool_decide (k ∈ m.*1).
Proof.
  induction m as [|[k' v'] m IH]; simpl; [done |].
  destruct (decide (k' = k)) as [->|Hne].
  - symmetry. apply bool_decide_eq_true. left.
  - rewrite IH. apply bool_decide_ext. rewrite elem_of_cons. logic.
Qed.

Lemma JsMap_set_fresh {V} (m : JsMap.t V) k v :
  k ∉ m.*1 -> JsMap.set m k v = m ++ [(k, v)].
Proof.
  induction m as [|[k' v'] m IH]; simpl; intros Hk; [done |].
  rewrite not_elem_of_cons in Hk. destruct Hk as [Hne Hk].
  destruct (decide (k' = k)); [congruence |]. by rewrite IH.
Qed.

Lemma JsMap_set_keys {V} (m : JsMap.t V) k v k' :
  k' ∈ (JsMap.set m k v).*1 <-> k' = k ∨ k' ∈ m.*1.
Proof.
  induction m as [|[k0 v0] m IH]; simpl.
  - rewrite list_elem_of_singleton, elem_of_nil. logic.
  - destruct (decide (k0 = k)) as [->|Hne]; simpl;
      rewrite !elem_of_cons; [|rewrite IH]; logic.
Qed.

Lemma JsMap_set_NoDup {V} (m : JsMap.t V) k v :
  NoDup m.*1 -> NoDup (JsMap.set m k v).*1.
Proof.
  induction m as [|[k0 v0] m IH]; simpl; intros Hnd.
  - apply NoDup_singleton.
  - apply NoDup_cons in Hnd as [Hk0 Hnd].
    destruct (decide (k0 = k)) as [->|Hne]; simpl.
    + by apply NoDup_cons.
    + apply NoDup_cons. split; [|by apply IH].
      rewrite JsMap_set_keys. logic.
Qed.

Lemma JsMap_set_elem {V} (m : JsMap.t V) k v kv :
  kv ∈ JsMap.set m k v -> kv = (k, v) ∨ kv ∈ m.
Proof.
  induction m as [|[k0 v0] m IH]; simpl.
  - rewrite list_elem_of_singleton. auto.
  - destruct (decide (k0 = k)) as [->|Hne]; rewrite !elem_of_cons; logic.
Qed.

Lemma JsMap_set_in {V} (m : JsMap.t V) k v : (k, v) ∈ JsMap.set m k v.
Proof.
  induction m as [|[k0 v0] m IH]; simpl; [left |].
  destruct (decide (k0 = k)); [left | by right].
Qed.

Lemma JsMap_set_other {V} (m : JsMap.t V) k v kv :
  kv ∈ m -> kv.1 ≠ k -> kv ∈ JsMap.set m k v.
Proof.
  induction m as [|[k0 v0] m IH]; simpl; intros Hin Hne.
  - by apply elem_of_nil in Hin.
  - apply elem_of_cons in Hin as [->|Hin].
    + simpl in Hne. destruct (decide (k0 = k)); [done | left].
    + destruct (decide (k0 = k)); right; [done | by apply IH].
Qed.

Section from_entries.
Context {V : Type}.
Implicit Types (l m : list (string * V)).

Local Abbreviation step := (fun (m : JsMap.t V) (kv : string * V) => JsMap.set m kv.1 kv.2).

Lemma fold_set_keys l m k :
  k ∈ (fold_left step l m).*1 <-> k ∈ m.*1 ∨ k ∈ l.*1.
Proof.
  revert m. induction l as [|[k0 v0] l IH]; intros m; simpl.
  - rewrite elem_of_nil. logic.
  - rewrite IH. simpl.
    rewrite JsMap_set_keys, elem_of_cons. logic.
Qed.

Lemma fold_set_NoDup l m : NoDup m.*1 -> NoDup (fold_left step l m).*1.
Proof.
  revert m. induction l as [|[k0 v0] l IH]; intros m Hnd; simpl; [done |].
  apply IH. by apply JsMap_set_NoDup.
Qed.

Lemma fold_set_elem l m kv :
  kv ∈ fold_left step l m -> kv ∈ m ∨ kv ∈ l.
Proof.
  revert m. induction l as [|[k0 v0] l IH]; intros m; simpl; [auto |].
  intros [[->|?]%JsMap_set_elem|?]%IH; rewrite elem_of_cons; auto.
Qed.

(** The keys of [new Map(entries)] are the keys of the entries, once each,
    and every value it holds is the value of one of the entries. *)
Lemma from_entries_keys l k : k ∈ (JsMap.from_entries l).*1 <-> k ∈ l.*1.
Proof.
  unfold JsMap.from_entries. rewrite fold_set_keys. simpl.
  rewrite elem_of_nil. logic.
Qed.

Lemma from_entries_NoDup l : NoDup (JsMap.from_entries l).*1.
Proof. apply fold_set_NoDup. constructor. Qed.

Lemma from_entries_elem l kv : kv ∈ JsMap.from_entries l -> kv ∈ l.
Proof.
  intros [Hin|Hin]%fold_set_elem; [|done]. by apply elem_of_nil in Hin.
Qed.

Lemma fold_set_preserve l m kv :
  kv ∈ m -> kv.1 ∉ l.*1 -> kv ∈ fold_left step l m.
Proof.
  revert m. induction l as [|[k0 v0] l IH]; intros m Hin Hk; simpl; [done |].
  rewrite fmap_cons, not_elem_of_cons in Hk. destruct Hk as [Hne Hk].
  apply IH; [|done]. by apply JsMap_set_other.
Qed.

(** For a key given several times, the last entry decides the value. *)
Lemma from_entries_last l1 l2 k v :
  k ∉ l2.*1 -> (k, v) ∈ JsMap.from_entries (l1 ++ (k, v) :: l2).
Proof.
  intros Hk. unfold JsMap.from_entries. rewrite fold_left_app. simpl.
  apply fold_set_preserve; [apply JsMap_set_in | done].
Qed.
End from_entries.

(** ** First occurrence wins *)

Section first_wins.
Context {A : Type} (key : A -> string).
Implicit Types (l : list A) (seen : list string).

Lemma first_wins_sublist seen l : first_wins key seen l `sublist_of` l.
Proof.
  revert seen. induction l as [|x l IH]; intros seen; simpl; [done |].
  case_bool_decide.
  - by apply sublist_cons.
  - by apply sublist_skip.
Qed.

Lemma first_wins_elem seen l x :
  x ∈ first_wins key seen l <->
  exists l1 l2, l = l1 ++ x :: l2 ∧ (key x ∉ seen) ∧ key x ∉ key <$> l1.
Proof.
  revert seen. induction l as [|x0 l IH]; intros seen; simpl.
  - rewrite elem_of_nil. split; [done |].
    intros (l1 & l2 & Heq & _). by destruct l1.
  - case_bool_decide as Hseen.
    + rewrite IH. split.
      * intros (l1 & l2 & -> & Hx & Hl1). exists (x0 :: l1), l2.
        split_and!; [done | done |].
        rewrite fmap_cons, not_elem_of_cons. split; [congruence | done].
      * intros (l1 & l2 & Heq & Hx & Hl1). destruct l1 as [|y l1].
        -- simpl in Heq. injection Heq as -> ->. done.
        -- simpl in Heq. injection Heq as -> ->. exists l1, l2.
           rewrite fmap_cons, not_elem_of_cons in Hl1. logic.
    + rewrite elem_of_cons, IH. split.
      * intros [->|(l1 & l2 & -> & Hx & Hl1)].
        -- exists [], l. split_and!; [done | done |]. simpl. apply not_elem_of_nil.
        -- rewrite not_elem_of_app, list_elem_of_singleton in Hx.
           exists (x0 :: l1), l2. split_and!; [done | tauto |].
           rewrite fmap_cons, not_elem_of_cons. tauto.
      * intros (l1 & l2 & Heq & Hx & Hl1). destruct l1 as [|y l1].
        -- simpl in Heq. injection Heq as -> ->. by left.
        -- simpl in Heq. injection Heq as -> ->. right. exists l1, l2.
           rewrite fmap_cons, not_elem_of_cons in Hl1.
           rewrite not_elem_of_app, list_elem_of_singleton. logic.
Qed.

Lemma first_wins_keys_fresh seen l x :
  x ∈ first_wins key seen l -> key x ∉ seen.
Proof. rewrite first_wins_elem. logic. Qed.

Lemma first_wins_NoDup seen l : NoDup (key <$> first_wins key seen l).
Proof.
  revert seen. induction l as [|x0 l IH]; intros seen; simpl; [constructor |].
  case_bool_decide as Hseen; [done |].
  rewrite fmap_cons. apply NoDup_cons. split; [|done].
  intros (y & Heq & Hy%first_wins_keys_fresh)%list_elem_of_fmap.
  apply Hy. rewrite Heq. apply elem_of_app. right. by apply list_elem_of_singleton.
Qed.

(** Every key of the input is a key of the result or was seen before. *)
Lemma first_wins_covers seen l x :
  x ∈ l -> key x ∈ seen ∨ key x ∈ key <$> first_wins key seen l.
Proof.
  revert seen. induction l as [|x0 l IH]; intros seen Hx; simpl.
  - by apply elem_of_nil in Hx.
  - apply elem_of_cons in Hx as [->|Hx].
    + case_bool_decide; [by left |]. right. rewrite fmap_cons. left.
    + case_bool_decide; [by apply IH |].
      rewrite fmap_cons, elem_of_cons.
      destruct (IH (seen ++ [key x0]) Hx) as [Hs|Hs]; [|by auto].
      apply elem_of_app in Hs as [Hs|Hs%list_elem_of_singleton]; auto.
Qed.
End first_wins.

(** ** Graph assembly *)

Lemma dedupe_loop l m :
  fold_left dedupe_step l m
  = m ++ ((fun n => (n_name n, n)) <$> first_wins n_name m.*1 l).
Proof.
  revert m. induction l as [|n l IH]; intros m; simpl.
  - by rewrite app_nil_r.
  - unfold dedupe_step at 2. rewrite JsMap_has_spec.
    case_bool_decide as Hin; simpl.
    + apply IH.
    + rewrite JsMap_set_fresh by done. rewrite IH.
      rewrite fmap_app, <- app_assoc. done.
Qed.

Lemma edge_step_valid names seen out e :
  edge_step names (seen, out) e
  = if valid_edge names e
    then if bool_decide (edgeKey e ∈ seen) then (seen, out)
         else ({[ edgeKey e ]} ∪ seen, out ++ [e])
    else (seen, out).
Proof.
  unfold edge_step, valid_edge.
  destruct (bool_decide (e_from e ∈ names)), (bool_decide (e_to e ∈ names)),
    (bool_decide (e_from e = e_to e)), (bool_decide (edgeKey e ∈ seen)); done.
Qed.

Lemma edge_loop names l (seen : gset string) seenl out :
  (forall k, k ∈ seen <-> k ∈ seenl) ->
  (fold_left (edge_step names) l (seen, out)).2
  = out ++ first_wins edgeKey seenl (filter (fun e => valid_edge names e) l).
Proof.
  revert seen seenl out.
  induction l as [|e l IH]; intros seen seenl out Hs; cbn [fold_left].
  - simpl. by rewrite app_nil_r.
  - rewrite edge_step_valid, filter_cons.
    destruct (valid_edge names e) eqn:Hv; simpl.
    + rewrite (bool_decide_ext _ _ (Hs (edgeKey e))).
      case_bool_decide as Hin.
      * by apply IH.
      * rewrite (IH _ (seenl ++ [edgeKey e])).
        { by rewrite <- app_assoc. }
        intros k. rewrite elem_of_union, elem_of_singleton, elem_of_app,
          list_elem_of_singleton, Hs. tauto.
    + by apply IH.
Qed.

(** The two loops of [filterAndDedupe] are the specification's two
    first-occurrence-wins steps, with the validity filter between them. *)
Lemma filterAndDedupe_nodes w allNodes allEdges dir sha :
  nodes (filterAndDedupe w allNodes allEdges dir sha)
  = first_wins n_name [] allNodes.
Proof.
  unfold filterAndDedupe. destruct (fold_left (edge_step _) _ _). simpl.
  rewrite dedupe_loop. unfold JsMap.values. simpl.
  rewrite <- list_fmap_compose. apply list_fmap_id.
Qed.

Lemma filterAndDedupe_edges w allNodes allEdges dir sha :
  edges (filterAndDedupe w allNodes allEdges dir sha)
  = first_wins edgeKey []
      (filter (fun e => valid_edge (node_names (first_wins n_name [] allNodes)) e)
         allEdges).
Proof.
  pose proof (filterAndDedupe_nodes w allNodes allEdges dir sha) as Hn.
  unfold filterAndDedupe in *.
  destruct (fold_left (edge_step _) _ _) as [seen out] eqn:Hloop. simpl in *.
  apply (f_equal snd) in Hloop. simpl in Hloop. rewrite <- Hloop.
  rewrite (edge_loop _ _ ∅ [] []); [by rewrite Hn |].
  intros k. rewrite elem_of_nil. set_solver.
Qed.

Lemma valid_edge_spec ns e :
  valid_edge (node_names ns) e = true <-> edge_valid_in ns e.
Proof.
  unfold valid_edge, edge_valid_in, node_names.
  rewrite !andb_true_iff, negb_true_iff, !bool_decide_eq_true,
    bool_decide_eq_false, !elem_of_list_to_set, !list_elem_of_fmap.
  logic.
Qed.

Lemma NoDup_fmap_eq {A B} (f : A -> B) (l : list A) x y :
  NoDup (f <$> l) -> x ∈ l -> y ∈ l -> f x = f y -> x = y.
Proof.
  induction l as [|z l IH]; simpl; intros Hnd Hx Hy Heq.
  - by apply elem_of_nil in Hx.
  - apply NoDup_cons in Hnd as [Hz Hnd].
    apply elem_of_cons in Hx as [->|Hx]; apply elem_of_cons in Hy as [->|Hy].
    + done.
    + destruct Hz. rewrite Heq. by apply list_elem_of_fmap_2.
    + destruct Hz. rewrite <- Heq. by apply list_elem_of_fmap_2.
    + by apply IH.
Qed.

(** First occurrence wins after a filter, read on the unfiltered list. *)
Lemma first_wins_filter_elem {A} (key : A -> string) (P : A -> bool) seen l x :
  x ∈ first_wins key seen (filter (fun y => P y) l) <->
  exists l1 l2, l = l1 ++ x :: l2 ∧ P x = true ∧ (key x ∉ seen)
    ∧ forall y, y ∈ l1 -> P y = true -> key y ≠ key x.
Proof.
  rewrite first_wins_elem. split.
  - intros (f1 & f2 & Heq & Hseen & Hf1).
    revert f1 Heq Hf1.
    induction l as [|y l IH]; intros f1 Heq Hf1.
    { by destruct f1. }
    rewrite filter_cons in Heq. destruct (decide (P y)) as [Hy|Hy].
    + destruct f1 as [|z f1]; simpl in Heq; injection Heq as Hyz Heq.
      * subst y. exists [], l.
        split_and!; [done | by apply Is_true_eq_true | done |].
        intros ? []%elem_of_nil.
      * subst z.
        rewrite fmap_cons, not_elem_of_cons in Hf1. destruct Hf1 as [Hne Hf1].
        destruct (IH _ Heq Hf1) as (l1 & l2 & -> & HP & _ & Hl1).
        exists (y :: l1), l2. split_and!; [done..|].
        intros y' [Hy'|Hy']%elem_of_cons ?; [congruence | by apply Hl1].
    + destruct (IH _ Heq Hf1) as (l1 & l2 & -> & HP & _ & Hl1).
      exists (y :: l1), l2. split_and!; [done..|].
      intros y' [Hy'|Hy']%elem_of_cons HPy; [|by apply Hl1].
      destruct Hy. rewrite <- Hy'. by apply Is_true_true.
  - intros (l1 & l2 & -> & HP & Hseen & Hl1).
    exists (filter (fun y => P y) l1), (filter (fun y => P y) l2).
    rewrite filter_app, filter_cons_True by (by apply Is_true_true).
    split_and!; [done..|].
    intros (y & Heq & [Hy Hin]%list_elem_of_filter)%list_elem_of_fmap.
    apply (Hl1 y); [done | by apply Is_true_true | done].
Qed.

(** Which input nodes and edges the assembled graph holds. *)
Lemma assembled_nodes_elem w allNodes allEdges dir sha n :
  n ∈ nodes (filterAndDedupe w allNodes allEdges dir sha) <->
  exists l1 l2, allNodes = l1 ++ n :: l2 ∧ n_name n ∉ n_name <$> l1.
Proof.
  rewrite filterAndDedupe_nodes, first_wins_elem.
  split; intros (l1 & l2 & ?); exists l1, l2; [tauto |].
  split_and!; [tauto | apply not_elem_of_nil | tauto].
Qed.

Lemma assembled_edges_elem w allNodes allEdges dir sha e :
  let g := filterAndDedupe w allNodes allEdges dir sha in
  e ∈ edges g <->
  exists l1 l2, allEdges = l1 ++ e :: l2 ∧ edge_valid_in (nodes g) e
    ∧ forall e', e' ∈ l1 -> edge_valid_in (nodes g) e' -> edgeKey e' ≠ edgeKey e.
Proof.
  intros g. unfold g.
  rewrite filterAndDedupe_edges, filterAndDedupe_nodes, first_wins_filter_elem.
  split; intros (l1 & l2 & Heq & Hrest); exists l1, l2; split; try done.
  - destruct Hrest as (Hv & _ & Hl1). split; [by apply valid_edge_spec |].
    intros e' Hin Hv'. apply Hl1; [done | by apply valid_edge_spec].
  - destruct Hrest as (Hv & Hl1).
    split_and!; [by apply valid_edge_spec | apply not_elem_of_nil |].
    intros e' Hin Hv'. apply Hl1; [done | by apply valid_edge_spec].
Qed.

Lemma assembled_names_NoDup w allNodes allEdges dir sha :
  NoDup (n_name <$> nodes (filterAndDedupe w allNodes allEdges dir sha)).
Proof. rewrite filterAndDedupe_nodes. apply first_wins_NoDup. Qed.

Lemma assembled_keys_NoDup w allNodes allEdges dir sha :
  NoDup (edgeKey <$> edges (filterAndDedupe w allNodes allEdges dir sha)).
Proof. rewrite filterAndDedupe_edges. apply first_wins_NoDup. Qed.

(** C3. For every list of nodes and every list of edges, the assembled
    graph holds no two nodes with the same name (hence none with the same
    name and kind, the key [nodeKey] encodes) and no two edges with the same
    key (hence none with the same from, to and kind).  Ties are resolved in
    input order, first occurrence wins: the nodes and edges are sublists of
    the input, a node is kept exactly when no earlier node has its name, and
    an edge exactly when it is valid and no earlier valid edge has its
    key. *)
Theorem assembled_graph_dedup w allNodes allEdges dir sha :
  let g := filterAndDedupe w allNodes allEdges dir sha in
  NoDup (n_name <$> nodes g)
  ∧ NoDup (nodeKey <$> nodes g)
  ∧ NoDup (edgeKey <$> edges g)
  ∧ NoDup (edges g)
  ∧ nodes g `sublist_of` allNodes
  ∧ edges g `sublist_of` allEdges
  ∧ (forall n, n ∈ nodes g <->
       exists l1 l2, allNodes = l1 ++ n :: l2 ∧ n_name n ∉ n_name <$> l1)
  ∧ (forall e, e ∈ edges g <->
       exists l1 l2, allEdges = l1 ++ e :: l2 ∧ edge_valid_in (nodes g) e
         ∧ forall e', e' ∈ l1 -> edge_valid_in (nodes g) e' ->
                      edgeKey e' ≠ edgeKey e).
Proof.
  intros g.
  pose proof (assembled_names_NoDup w allNodes allEdges dir sha) as Hnames.
  pose proof (assembled_keys_NoDup w allNodes allEdges dir sha) as Hkeys.
  split_and!.
  - done.
  - apply NoDup_fmap_2_strong; [|by eapply NoDup_fmap_1].
    intros x y Hx Hy [Hxy _]%nodeKey_inj. by eapply NoDup_fmap_eq.
  - done.
  - by eapply NoDup_fmap_1.
  - unfold g. rewrite filterAndDedupe_nodes. apply first_wins_sublist.
  - unfold g. rewrite filterAndDedupe_edges.
    etrans; [apply first_wins_sublist | apply sublist_filter].
  - intros n. apply assembled_nodes_elem.
  - intros e. apply assembled_edges_elem.
Qed.

(** C1, as the code has it.  Every edge of an assembled graph is an input
    edge whose [from] and [to] are names of nodes of that graph and differ.
    Conversely an input edge with these properties is in the graph unless
    another input edge with these properties has the same [edgeKey] string;
    that cannot happen when no node name contains [->], and then an input
    edge is retained if and only if it is valid. *)
Theorem assembled_edges_valid w allNodes allEdges dir sha :
  let g := filterAndDedupe w allNodes allEdges dir sha in
  (forall e, e ∈ edges g -> e ∈ allEdges ∧ edge_valid_in (nodes g) e)
  ∧ (forall e, e ∈ allEdges -> edge_valid_in (nodes g) e ->
       (forall e', e' ∈ allEdges -> edge_valid_in (nodes g) e' ->
                   edgeKey e' = edgeKey e -> e' = e) ->
       e ∈ edges g)
  ∧ ((forall n, n ∈ nodes g -> contains_arrow (n_name n) = false) ->
     forall e, e ∈ allEdges -> (e ∈ edges g <-> edge_valid_in (nodes g) e)).
Proof.
  intros g.
  assert (forall e, e ∈ edges g -> e ∈ allEdges ∧ edge_valid_in (nodes g) e) as Hsound.
  { intros e (l1 & l2 & -> & Hv & _)%assembled_edges_elem. split; [|done].
    apply elem_of_app. right. left. }
  assert (forall e, e ∈ allEdges -> edge_valid_in (nodes g) e ->
       (forall e', e' ∈ allEdges -> edge_valid_in (nodes g) e' ->
                   edgeKey e' = edgeKey e -> e' = e) ->
       e ∈ edges g) as Hcomplete.
  { intros e Hin Hv Huniq.
    apply list_elem_of_split_l in Hin as (l1 & l2 & -> & Hfirst).
    apply assembled_edges_elem. exists l1, l2. split_and!; [done..|].
    intros e' Hin' Hv' Heq. apply Hfirst.
    rewrite <- (Huniq e'); [done | | done..].
    apply elem_of_app. by left. }
  split_and!; [done..|].
  intros Harrow e Hin. split; [by intros [_ ?]%Hsound |].
  intros Hv. apply Hcomplete; [done..|].
  intros e' _ Hv' Heq.
  destruct Hv as [(n & Hn & Hnf) _]. destruct Hv' as [(n' & Hn' & Hnf') _].
  apply edgeKey_inj; [| |done].
  - rewrite <- Hnf'. by apply Harrow.
  - rewrite <- Hnf. by apply Harrow.
Qed.

(** C5, as the code has it.  The nodes and edges of the assembled graph are
    a function of the node list and the edge list alone.  [scannedAt] is the
    clock at the time of the call, and [commitSha] is the revision id given,
    or, when none is given, what [git rev-parse HEAD] answers in the scanned
    directory.  Two runs on the same input agree when they read the same
    clock and, if no revision id is given, the same git answer. *)
Theorem assembly_reads_clock_and_git w1 w2 allNodes allEdges dir1 dir2 sha :
  let g1 := filterAndDedupe w1 allNodes allEdges dir1 sha in
  let g2 := filterAndDedupe w2 allNodes allEdges dir2 sha in
  nodes g1 = nodes g2
  ∧ edges g1 = edges g2
  ∧ scannedAt g1 = clock w1
  ∧ commitSha g1 = match sha with
                   | Some s => Some s
                   | None => git_head w1 dir1
                   end
  ∧ (clock w1 = clock w2 ->
     (sha = None -> git_head w1 dir1 = git_head w2 dir2) ->
     g1 = g2).
Proof.
  intros g1 g2.
  assert (nodes g1 = nodes g2) as Hn.
  { unfold g1, g2. by rewrite !filterAndDedupe_nodes. }
  assert (edges g1 = edges g2) as He.
  { unfold g1, g2. by rewrite !filterAndDedupe_edges. }
  assert (forall w d, scannedAt (filterAndDedupe w allNodes allEdges d sha) = clock w
            ∧ commitSha (filterAndDedupe w allNodes allEdges d sha)
              = match sha with Some s => Some s | None => git_head w d end) as Hst.
  { intros w d. unfold filterAndDedupe.
    by destruct (fold_left (edge_step _) _ _). }
  destruct (Hst w1 dir1) as [Hc1 Hs1]. destruct (Hst w2 dir2) as [Hc2 Hs2].
  split_and!; [done..|].
  intros Hclock Hgit. fold g1 in Hc1, Hs1. fold g2 in Hc2, Hs2.
  destruct g1 as [n1 e1 t1 s1], g2 as [n2 e2 t2 s2]. simpl in *.
  f_equal; [done | done | congruence |].
  rewrite Hs1, Hs2. destruct sha; [done | by apply Hgit].
Qed.

(** ** The diff engine *)

Lemma push_missing_spec {V} (m other : JsMap.t V) :
  push_missing m other = (filter (fun kv => JsMap.has other kv.1 = false) m).*2.
Proof.
  unfold push_missing.
  enough (forall out,
    fold_left
      (fun out kv => if negb (JsMap.has other kv.1) then out ++ [kv.2] else out)
      m out
    = out ++ (filter (fun kv => JsMap.has other kv.1 = false) m).*2) as H
    by apply (H []).
  induction m as [|[k v] m IH]; intros out; cbn [fold_left].
  - simpl. by rewrite app_nil_r.
  - rewrite IH, filter_cons. cbn [fst snd].
    destruct (JsMap.has other k); simpl; [done |].
    by rewrite <- app_assoc.
Qed.

Lemma NoDup_filter_fst {V} (P : string * V -> Prop) `{!forall kv, Decision (P kv)}
    (m : list (string * V)) :
  NoDup m.*1 -> NoDup (filter P m).*1.
Proof.
  induction m as [|kv m IH]; simpl; [done |].
  intros [Hk Hnd]%NoDup_cons. rewrite filter_cons.
  destruct (decide (P kv)); [|by apply IH].
  rewrite fmap_cons. apply NoDup_cons. split; [|by apply IH].
  intros (kv' & Heq & [_ Hin]%list_elem_of_filter)%list_elem_of_fmap.
  apply Hk. rewrite Heq. by apply list_elem_of_fmap_2.
Qed.

Section diff_by_key.
Context {A : Type} (key : A -> string).
Implicit Types (before after : list A).

Local Abbreviation keyed l := (JsMap.from_entries ((fun x => (key x, x)) <$> l)).
Local Abbreviation missing after before := (push_missing (keyed after) (keyed before)).

Lemma keyed_elem l k x : (k, x) ∈ keyed l -> k = key x ∧ x ∈ l.
Proof.
  intros (y & [= -> ->] & Hy)%from_entries_elem%list_elem_of_fmap. done.
Qed.

Lemma keyed_keys l k : k ∈ (keyed l).*1 <-> k ∈ key <$> l.
Proof.
  rewrite from_entries_keys, <- list_fmap_compose. done.
Qed.

Lemma keyed_has l k : JsMap.has (keyed l) k = bool_decide (k ∈ key <$> l).
Proof. rewrite JsMap_has_spec. apply bool_decide_ext, keyed_keys. Qed.

(** What one of the four loops reports: values of the first map whose key
    the second map lacks. *)
Lemma missing_elem after before x :
  x ∈ missing after before -> x ∈ after ∧ key x ∉ key <$> before.
Proof.
  rewrite push_missing_spec.
  intros ([k y] & -> & [Hhas Hin]%list_elem_of_filter)%list_elem_of_fmap.
  simpl in *. apply keyed_elem in Hin as [-> Hin]. split; [done |].
  rewrite keyed_has in Hhas. by apply bool_decide_eq_false in Hhas.
Qed.

Lemma missing_keys_eq after before :
  key <$> missing after before
  = (filter (fun kv => JsMap.has (keyed before) kv.1 = false) (keyed after)).*1.
Proof.
  rewrite push_missing_spec.
  assert (forall kv, kv ∈ keyed after -> kv.1 = key kv.2) as Hk.
  { intros [k x] [-> _]%keyed_elem. done. }
  revert Hk. generalize (keyed after). intros m Hk.
  induction m as [|kv m IH]; [done |].
  rewrite filter_cons. destruct (decide _).
  - rewrite !fmap_cons. f_equal.
    + symmetry. apply Hk. left.
    + apply IH. intros ??. apply Hk. by right.
  - apply IH. intros ??. apply Hk. by right.
Qed.

Lemma missing_keys after before k :
  k ∈ key <$> missing after before <-> k ∈ key <$> after ∧ k ∉ key <$> before.
Proof.
  rewrite missing_keys_eq, list_elem_of_fmap. split.
  - intros ([k' x] & -> & [Hhas Hin]%list_elem_of_filter). simpl in *.
    rewrite keyed_has in Hhas. apply bool_decide_eq_false in Hhas.
    split; [|done]. apply keyed_keys. by apply (list_elem_of_fmap_2 fst) in Hin.
  - intros [(kv & -> & Hin)%keyed_keys%list_elem_of_fmap Hb].
    exists kv. split; [done |]. apply list_elem_of_filter. split; [|done].
    rewrite keyed_has. by apply bool_decide_eq_false.
Qed.

Lemma missing_keys_NoDup after before : NoDup (key <$> missing after before).
Proof.
  rewrite missing_keys_eq. apply NoDup_filter_fst, from_entries_NoDup.
Qed.

(** Among the elements sharing a key the loop did not find in the other
    map, the last one is reported. *)
Lemma missing_elem_last after1 x after2 before :
  key x ∉ key <$> after2 -> key x ∉ key <$> before ->
  x ∈ missing (after1 ++ x :: after2) before.
Proof.
  intros Hlast Hb. rewrite push_missing_spec.
  apply (list_elem_of_fmap_2' snd _ (key x, x)); [|done].
  apply list_elem_of_filter. split.
  - simpl. rewrite keyed_has. by apply bool_decide_eq_false.
  - rewrite fmap_app, fmap_cons. apply from_entries_last.
    by rewrite <- list_fmap_compose.
Qed.

(** An element whose key no other element of its list shares is reported
    itself. *)
Lemma missing_elem_unique after before x :
  x ∈ after -> key x ∉ key <$> before ->
  (forall y, y ∈ after -> key y = key x -> y = x) ->
  x ∈ missing after before.
Proof.
  intros Hx Hb Huniq.
  assert (key x ∈ key <$> missing after before) as Hk.
  { apply missing_keys. split; [by apply list_elem_of_fmap_2 | done]. }
  apply list_elem_of_fmap in Hk as (y & Heq & Hy).
  pose proof Hy as [Hya _]%missing_elem.
  by rewrite <- (Huniq y Hya).
Qed.
End diff_by_key.

(** A key that occurs once among the keys of a list picks exactly one of
    its elements. *)
Lemma NoDup_count_one {A} (key : A -> string) (l : list A) k :
  NoDup (key <$> l) -> k ∈ key <$> l ->
  length (filter (fun x => key x = k) l) = 1%nat.
Proof.
  induction l as [|x l IH]; simpl; intros Hnd Hk.
  - by apply elem_of_nil in Hk.
  - apply NoDup_cons in Hnd as [Hx Hnd]. rewrite filter_cons.
    destruct (decide (key x = k)) as [<-|Hne]; simpl.
    + f_equal. apply length_zero_iff_nil. apply elem_of_nil_inv.
      intros y [Hy Hin]%list_elem_of_filter. apply Hx. rewrite <- Hy.
      by apply list_elem_of_fmap_2.
    + apply IH; [done |]. apply elem_of_cons in Hk as [?|?]; [congruence | done].
Qed.

(** Closed facts about concrete inputs are settled by evaluation. *)
Ltac by_eval := apply (bool_decide_unpack _); vm_compute; exact I.

(** C4. For all graphs A and B, the added nodes of [diffGraphs A B] are the
    removed nodes of [diffGraphs B A], and the added edges of the first are
    the removed edges of the second. *)
Theorem diff_symmetry (A B : DependencyGraph) :
  addedNodes (diffGraphs A B) = removedNodes (diffGraphs B A)
  ∧ addedEdges (diffGraphs A B) = removedEdges (diffGraphs B A).
Proof. split; reflexivity. Qed.

(** C10. Every added node (edge) of a diff is an element of the after
    graph's nodes (edges) and every removed node (edge) is an element of
    the before graph's, so each reported entry carries the file and line it
    has in the snapshot it comes from. *)
Theorem diff_entries_from_snapshots (before after : DependencyGraph) :
  let d := diffGraphs before after in
  (forall n, n ∈ addedNodes d -> n ∈ nodes after)
  ∧ (forall n, n ∈ removedNodes d -> n ∈ nodes before)
  ∧ (forall e, e ∈ addedEdges d -> e ∈ edges after)
  ∧ (forall e, e ∈ removedEdges d -> e ∈ edges before).
Proof.
  simpl. split_and!; intros x Hx; by apply missing_elem in Hx as [? _].
Qed.


(** C2. Graph assembly identifies nodes by name alone: two nodes of an
    assembled graph with the same name are the same node, and a later input
    node that shares the name of an earlier one but has another kind is
    discarded.  The diff engine identifies nodes by [nodeKey], which is equal
    on two nodes exactly when name and kind both agree, and reports a key as
    added (removed) exactly when it is a key of the after (before) graph and
    not of the other.  The two rules differ: [Foo] as a class and [Foo] as an
    interface are one node to assembly and two nodes to the diff. *)
Theorem node_identity_rules_differ :
  (forall w allNodes allEdges dir sha n m,
     let g := filterAndDedupe w allNodes allEdges dir sha in
     n ∈ nodes g -> m ∈ nodes g -> n_name n = n_name m -> n = m)
  ∧ (forall w allEdges dir sha l1 n l2 m l3,
       let g := filterAndDedupe w (l1 ++ n :: l2 ++ m :: l3) allEdges dir sha in
       n_name n ∉ n_name <$> l1 -> n_name m = n_name n -> n_kind m ≠ n_kind n ->
       n ∈ nodes g ∧ m ∉ nodes g)
  ∧ (forall n m,
       nodeKey n = nodeKey m <-> n_name n = n_name m ∧ n_kind n = n_kind m)
  ∧ (forall before after k,
       let d := diffGraphs before after in
       (k ∈ nodeKey <$> addedNodes d <->
          k ∈ nodeKey <$> nodes after ∧ k ∉ nodeKey <$> nodes before)
       ∧ (k ∈ nodeKey <$> removedNodes d <->
            k ∈ nodeKey <$> nodes before ∧ k ∉ nodeKey <$> nodes after))
  ∧ nodes (filterAndDedupe world_2026 [Foo_class; Foo_interface] [] "." None)
    = [Foo_class]
  ∧ addedNodes (diffGraphs Foo_class_graph Foo_interface_graph) = [Foo_interface]
  ∧ removedNodes (diffGraphs Foo_class_graph Foo_interface_graph) = [Foo_class].
Proof.
  assert (forall w allNodes allEdges dir sha n m,
     let g := filterAndDedupe w allNodes allEdges dir sha in
     n ∈ nodes g -> m ∈ nodes g -> n_name n = n_name m -> n = m) as Hname.
  { intros w allNodes allEdges dir sha n m g Hn Hm Heq.
    eapply NoDup_fmap_eq; [apply assembled_names_NoDup | done..]. }
  split_and!.
  - done.
  - intros w allEdges dir sha l1 n l2 m l3 g Hfirst Hnm Hkind.
    assert (n ∈ nodes g) as Hn.
    { apply assembled_nodes_elem. by exists l1, (l2 ++ m :: l3). }
    split; [done |]. intros Hm.
    apply Hkind. by rewrite (Hname _ _ _ _ _ m n Hm Hn Hnm).
  - apply nodeKey_inj.
  - intros before after k. simpl. split; apply missing_keys.
  - by vm_compute.
  - by vm_compute.
  - by vm_compute.
Qed.

(** ** The claims at concrete inputs *)

(** C1 as stated fails: with the node names [a], [b->c], [a->b] and [c],
    the edge from [a->b] to [c] has both endpoints among the nodes and is no
    self-reference, yet it is not retained, because the earlier edge from
    [a] to [b->c] has the same key [a->b->c:extends]. *)
Lemma retained_iff_valid_fails_on_arrow_names :
  let g := filterAndDedupe world_2026 arrow_nodes
             [arrow_edge_1; arrow_edge_2] "." None in
  ~ (arrow_edge_2 ∈ edges g <-> edge_valid_in (nodes g) arrow_edge_2).
Proof.
  intros g [_ Hback].
  assert (arrow_edge_2 ∉ edges g) as Hout by by_eval.
  apply Hout, Hback, valid_edge_spec. by vm_compute.
Qed.

Lemma assembled_edges_valid_witness :
  let g := filterAndDedupe world_2026 scenario_nodes scenario_edges "." None in
  Foo_implements_Bar ∈ edges g
  ∧ (Foo_field_Logger ∉ edges g)
  ∧ Foo_field_Foo ∉ edges g.
Proof.
  intros g.
  destruct (assembled_edges_valid world_2026 scenario_nodes scenario_edges
              "." None) as (_ & _ & Hiff).
  assert (forall e, e ∈ scenario_edges ->
            (e ∈ edges g <-> edge_valid_in (nodes g) e)) as H.
  { apply Hiff. apply Forall_forall. by_eval. }
  split_and!.
  - apply H; [by_eval |]. apply valid_edge_spec. by vm_compute.
  - intros Hin. apply H in Hin; [|by_eval].
    apply valid_edge_spec in Hin. by vm_compute in Hin.
  - intros Hin. apply H in Hin; [|by_eval].
    apply valid_edge_spec in Hin. by vm_compute in Hin.
Defined.

Lemma node_identity_rules_differ_witness :
  let g := filterAndDedupe world_2026 [Foo_class; Foo_interface] [] "." None in
  Foo_class ∈ nodes g ∧ Foo_interface ∉ nodes g.
Proof.
  destruct node_identity_rules_differ as (_ & Hlater & _).
  apply (Hlater world_2026 [] "." None [] Foo_class [] Foo_interface []);
    [by_eval | reflexivity | by_eval].
Defined.

Lemma assembled_graph_dedup_witness :
  NoDup (n_name <$> nodes (filterAndDedupe world_2026 scenario_nodes
                             scenario_edges "." None))
  ∧ NoDup (edges (filterAndDedupe world_2026 scenario_nodes
                    scenario_edges "." None)).
Proof.
  destruct (assembled_graph_dedup world_2026 scenario_nodes scenario_edges
              "." None) as (Hn & _ & _ & He & _).
  by split.
Defined.

(** C5 as stated fails: the same (empty) input assembled at two different
    times gives two different graphs. *)
Lemma assembly_not_a_function_of_its_input :
  filterAndDedupe world_2026 [] [] "." None
  ≠ filterAndDedupe world_2027 [] [] "." None.
Proof. by vm_compute. Qed.

Lemma assembly_reads_clock_and_git_witness :
  filterAndDedupe world_2026 scenario_nodes scenario_edges "." None
  = filterAndDedupe world_2026_bare scenario_nodes scenario_edges "." None.
Proof.
  apply (assembly_reads_clock_and_git world_2026 world_2026_bare);
    intros; reflexivity.
Defined.


Lemma diff_entries_from_snapshots_witness :
  A_field_B ∈ edges kind_after ∧ A_extends_B ∈ edges kind_before.
Proof.
  destruct (diff_entries_from_snapshots kind_before kind_after)
    as (_ & _ & Ha & Hr).
  split; [apply Ha | apply Hr]; by_eval.
Defined.

(** ** The extractors *)

Lemma elem_of_flat_map {A B} (f : A -> list B) (l : list A) y :
  y ∈ flat_map f l <-> exists x, x ∈ l ∧ y ∈ f x.
Proof.
  rewrite list_elem_of_In, in_flat_map.
  split; intros (x & Hx & Hy); exists x; by rewrite ?list_elem_of_In in *.
Qed.

Lemma frag_fold_edges l acc e :
  e ∈ f_edges (fold_left frag_push l acc) <->
  e ∈ f_edges acc ∨ exists r, r ∈ l ∧ e ∈ f_edges r.
Proof.
  revert acc. induction l as [|r l IH]; intros acc; simpl.
  - split; [auto | intros [?|(r & []%elem_of_nil & _)]; done].
  - rewrite IH. simpl. rewrite elem_of_app. split.
    + intros [[?|?]|(r' & ? & ?)]; [by left | right..].
      * exists r. split; [left | done].
      * exists r'. split; [by right | done].
    + intros [?|(r' & [->|?]%elem_of_cons & ?)]; [by left; left | by left; right |].
      right. by exists r'.
Qed.

Lemma frag_concat_edges l e :
  e ∈ f_edges (frag_concat l) <-> exists r, r ∈ l ∧ e ∈ f_edges r.
Proof.
  unfold frag_concat. rewrite frag_fold_edges. simpl.
  rewrite elem_of_nil. tauto.
Qed.

Lemma edges_to_elem from kind ids e :
  e ∈ edges_to from kind ids <-> exists id, e = mkEdge from id kind ∧ id ∈ ids.
Proof. apply list_elem_of_fmap. Qed.

Module GoFacts.

Lemma isUserType_spec name :
  Go.isUserType name = true <-> name ∉ Go.BUILTIN_TYPES.
Proof.
  unfold Go.isUserType. by rewrite negb_true_iff, bool_decide_eq_false.
Qed.

Lemma user_edges_to from kind ids e :
  e ∈ edges_to from kind (filter (fun id => Go.isUserType id) ids) ->
  e_to e ∉ Go.BUILTIN_TYPES.
Proof.
  intros (id & -> & [Hu _]%list_elem_of_filter)%edges_to_elem.
  by apply isUserType_spec, Is_true_true.
Qed.

Lemma user_type_identifier_children from (l : list SyntaxNode) e :
  e ∈ flat_map
        (fun c =>
           if bool_decide (s_type c = "type_identifier") && Go.isUserType (s_text c)
           then [mkEdge from (s_text c) extends] else [])
        l ->
  e_to e ∉ Go.BUILTIN_TYPES.
Proof.
  intros (c & _ & Hin)%elem_of_flat_map.
  destruct (bool_decide _); simpl in Hin; [|by apply elem_of_nil in Hin].
  destruct (Go.isUserType (s_text c)) eqn:Hu; [|by apply elem_of_nil in Hin].
  apply list_elem_of_singleton in Hin as ->. by apply isUserType_spec.
Qed.

Lemma struct_field_edges_user nameText field e :
  e ∈ Go.struct_field_edges nameText field -> e_to e ∉ Go.BUILTIN_TYPES.
Proof.
  unfold Go.struct_field_edges.
  destruct (negb _); [by intros []%elem_of_nil |].
  destruct (childForFieldName field "name"), (childForFieldName field "type")
    as [typeChild|].
  - apply user_edges_to.
  - by intros []%elem_of_nil.
  - destruct (Go.extractTypeIdentifier typeChild) as [id|];
      [|by intros []%elem_of_nil].
    destruct (truthy id); simpl; [|by intros []%elem_of_nil].
    destruct (Go.isUserType id) eqn:Hu; [|by intros []%elem_of_nil].
    intros ->%list_elem_of_singleton. by apply isUserType_spec.
  - apply user_type_identifier_children.
Qed.

Lemma extractMethodEdges_user method ownerName e :
  e ∈ Go.extractMethodEdges method ownerName -> e_to e ∉ Go.BUILTIN_TYPES.
Proof.
  unfold Go.extractMethodEdges. intros [Hin|Hin]%elem_of_app.
  - destruct (childForFieldName method "parameters") as [params|];
      [|by apply elem_of_nil in Hin].
    apply elem_of_flat_map in Hin as (param & _ & Hin).
    destruct (negb _); [by apply elem_of_nil in Hin |].
    destruct (childForFieldName param "type");
      [by eapply user_edges_to | by apply elem_of_nil in Hin].
  - destruct (childForFieldName method "result");
      [by eapply user_edges_to | by apply elem_of_nil in Hin].
Qed.

Lemma extractStruct_user nameText typeNode filePath startRow e :
  e ∈ f_edges (Go.extractStruct nameText typeNode filePath startRow) ->
  e_to e ∉ Go.BUILTIN_TYPES.
Proof.
  unfold Go.extractStruct.
  destruct (match childForFieldName typeNode "fields" with
            | Some fl => Some fl
            | None => Go.findChild typeNode "field_declaration_list"
            end) as [fieldList|]; simpl; [|by intros []%elem_of_nil].
  intros (field & _ & Hin)%elem_of_flat_map.
  by eapply struct_field_edges_user.
Qed.

Lemma extractInterface_user nameText typeNode filePath startRow e :
  e ∈ f_edges (Go.extractInterface nameText typeNode filePath startRow) ->
  e_to e ∉ Go.BUILTIN_TYPES.
Proof.
  unfold Go.extractInterface. simpl.
  intros (child & _ & [Hin|Hin]%elem_of_app)%elem_of_flat_map.
  - destruct (bool_decide _); [|by apply elem_of_nil in Hin].
    by eapply user_type_identifier_children.
  - destruct (bool_decide _); [|by apply elem_of_nil in Hin].
    by eapply extractMethodEdges_user.
Qed.

Lemma parseSource_user root filePath e :
  e ∈ f_edges (Go.parseSource root filePath) -> e_to e ∉ Go.BUILTIN_TYPES.
Proof.
  unfold Go.parseSource.
  intros (r & (child & -> & _)%list_elem_of_fmap & Hin)%frag_concat_edges.
  unfold Go.top_level_fragment in Hin. simpl in Hin.
  apply elem_of_app in Hin as [Hin|Hin].
  - destruct (bool_decide (s_type child = "type_declaration"));
      [|by apply elem_of_nil in Hin].
    apply frag_concat_edges in Hin as (r & (spec & -> & _)%list_elem_of_fmap & Hin).
    unfold Go.type_spec_fragment in Hin.
    destruct (negb _); [by apply elem_of_nil in Hin |].
    destruct (childForFieldName spec "name") as [nameNode|],
      (childForFieldName spec "type") as [typeNode|];
      try by apply elem_of_nil in Hin.
    destruct (bool_decide (s_type typeNode = "struct_type"));
      [by eapply extractStruct_user |].
    destruct (bool_decide (s_type typeNode = "interface_type"));
      [by eapply extractInterface_user | by apply elem_of_nil in Hin].
  - destruct (bool_decide (s_type child = "method_declaration"));
      [|by apply elem_of_nil in Hin].
    destruct (Go.getReceiverType child) as [receiverType|];
      [|by apply elem_of_nil in Hin].
    destruct (truthy receiverType); [|by apply elem_of_nil in Hin].
    by eapply extractMethodEdges_user.
Qed.

End GoFacts.




(** ** Scanning *)

Lemma scan_files_app env absDir l1 l2 st :
  scan_files env absDir (l1 ++ l2) st
  = scan_files env absDir l2 (scan_files env absDir l1 st).
Proof. apply fold_left_app. Qed.

(** One iteration extends the three components of the state; what it adds
    does not depend on what was written to standard error before. *)
Lemma scan_step_shape env absDir file ns es :
  exists ns' es' lines, forall log,
    scan_step env absDir (mkScan ns es log) file
    = mkScan (ns ++ ns') (es ++ es') (log ++ lines).
Proof.
  unfold scan_step.
  destruct (getParserForFile env file) as [parser|].
  - destruct (bind _ _) as [r|err]; simpl.
    + exists (f_nodes r), (f_edges r), []. intros log. by rewrite app_nil_r.
    + eexists [], [], [_]. intros log. by rewrite !app_nil_r.
  - exists [], [], []. intros log. by rewrite !app_nil_r.
Qed.

(** What has been written to standard error does not influence the nodes
    and edges gathered, and is never taken back. *)
Lemma scan_files_ignores_stderr env absDir l ns es log1 log2 :
  allNodes (scan_files env absDir l (mkScan ns es log1))
  = allNodes (scan_files env absDir l (mkScan ns es log2))
  ∧ allEdges (scan_files env absDir l (mkScan ns es log1))
    = allEdges (scan_files env absDir l (mkScan ns es log2)).
Proof.
  revert ns es log1 log2.
  induction l as [|file l IH]; intros ns es log1 log2; [done |].
  unfold scan_files in *. cbn [fold_left].
  destruct (scan_step_shape env absDir file ns es) as (ns' & es' & lines & Hstep).
  rewrite !Hstep. apply IH.
Qed.

Lemma scan_files_keeps_stderr env absDir l st line :
  line ∈ stderr st -> line ∈ stderr (scan_files env absDir l st).
Proof.
  revert st. induction l as [|file l IH]; intros [ns es log] Hin; [done |].
  unfold scan_files in *. cbn [fold_left]. apply IH.
  destruct (scan_step_shape env absDir file ns es) as (ns' & es' & lines & Hstep).
  rewrite Hstep. simpl. apply elem_of_app. by left.
Qed.

(** C9. Let [glob] list the files [pre ++ file :: post], and let reading or
    parsing [file] throw [err].  Then the scan still returns a graph; its
    nodes and edges are those gathered from [pre ++ post], so the failed file
    contributes none and every other file is scanned as if it were absent;
    and the warning naming the file is among the lines written to standard
    error. *)
Theorem scan_survives_failed_file env w dir languages pre file post parser err :
  let absDir := path_resolve env dir in
  let absFile := path_resolve2 env absDir file in
  let relFile := path_relative env absDir absFile in
  glob env (scan_patterns languages) absDir = Ok (pre ++ file :: post) ->
  getParserForFile env file = Some parser ->
  bind (readFileSync env absFile) (fun source => parser source relFile)
  = Throw err ->
  let others := scan_files env absDir (pre ++ post) (mkScan [] [] []) in
  exists log,
    scanDirectory env w dir languages
    = Ok (filterAndDedupe w (allNodes others) (allEdges others) absDir None, log)
    ∧ warning relFile err ∈ log.
Proof.
  intros absDir absFile relFile Hglob Hparser Hthrow others.
  unfold scanDirectory. fold absDir. rewrite Hglob. simpl.
  set (st := scan_files env absDir (pre ++ file :: post) (mkScan [] [] [])).
  set (mid := scan_files env absDir pre (mkScan [] [] [])).
  assert (st = scan_files env absDir post
                 (mkScan (allNodes mid) (allEdges mid)
                    (stderr mid ++ [warning relFile err]))) as Hst.
  { unfold st. rewrite scan_files_app. fold mid.
    unfold scan_files at 1. cbn [fold_left]. unfold scan_step at 2.
    fold absFile. fold relFile. by rewrite Hparser, Hthrow. }
  assert (others = scan_files env absDir post
                     (mkScan (allNodes mid) (allEdges mid) (stderr mid))) as Hothers.
  { unfold others. rewrite scan_files_app. fold mid. by destruct mid. }
  destruct (scan_files_ignores_stderr env absDir post (allNodes mid)
              (allEdges mid) (stderr mid ++ [warning relFile err]) (stderr mid))
    as [Hn He].
  exists (stderr st). split.
  - by rewrite Hst, Hothers, Hn, He.
  - rewrite Hst. apply scan_files_keeps_stderr. simpl.
    apply elem_of_app. right. left.
Qed.

Lemma scan_survives_failed_file_witness :
  exists log,
    scanDirectory two_file_env world_2026 "proj" None
    = Ok (mkGraph [mkNode "Valid" class "good.ts" (Int 1)] []
            "2026-01-01T00:00:00.000Z" (Some "abc123"), log)
    ∧ "Warning: Failed to parse bad.ts: Error: Invalid argument" ∈ log.
Proof.
  apply (scan_survives_failed_file two_file_env world_2026 "proj" None
           ["good.ts"] "bad.ts" [] (parseTypeScript two_file_env)
           "Error: Invalid argument"); reflexivity.
Defined.

(** ** JSON.parse after JSON.stringify *)

Lemma append_nil_r (a : string) : a +:+ EmptyString = a.
Proof. induction a as [|x a IH]; simpl_append; [done | by f_equal]. Qed.
Lemma length_append (a b : string) :
  String.length (a +:+ b) = (String.length a + String.length b)%nat.
Proof. induction a as [|x a IH]; simpl_append; simpl; [done | by f_equal]. Qed.

Lemma skip_ws_app w s : all_ws w = true -> skip_ws (w +:+ s) = skip_ws s.
Proof.
  induction w as [|c w IH]; simpl_append; [done |]. simpl.
  intros [Hc Hw]%andb_true_iff. rewrite Hc. by apply IH.
Qed.

Lemma all_ws_app a b : all_ws (a +:+ b) = all_ws a && all_ws b.
Proof.
  induction a as [|c a IH]; simpl_append; simpl; [done |].
  by rewrite IH, andb_assoc.
Qed.

Lemma quote_char_parse c k :
  parse_string (quote_char c +:+ k)
  = match parse_string k with
    | Some (str, r) => Some (String c str, r)
    | None => None
    end.
Proof.
  destruct c as [[] [] [] [] [] [] [] []]; reflexivity.
Qed.

Lemma quote_chars_parse s rest :
  parse_string (quote_chars s +:+ dquote +:+ rest) = Some (s, rest).
Proof.
  induction s as [|c s IH]; [reflexivity |].
  cbn [quote_chars]. rewrite append_assoc, quote_char_parse, IH. done.
Qed.

Lemma to_uint_int_digits n : int_digits (N.to_uint n) = true.
Proof.
  assert (Decimal.unorm (N.to_uint n) = N.to_uint n) as Hnorm.
  { rewrite <- (DecimalN.Unsigned.of_to n) at 2.
    by rewrite DecimalN.Unsigned.to_of. }
  destruct (N.to_uint n) as [|u| | | | | | | | |]; try done.
  destruct u; try done; exfalso;
    rewrite DecimalFacts.unorm_D0 in Hnorm;
    (match type of Hnorm with
     | Decimal.unorm ?d = _ =>
         pose proof (DecimalFacts.nb_digits_unorm d ltac:(discriminate)) as Hle
     end);
    rewrite Hnorm in Hle; simpl in Hle; lia.
Qed.

Lemma scan_digits_print u rest :
  num_end rest = true ->
  scan_digits (DecimalString.NilEmpty.string_of_uint u +:+ rest) = (u, rest).
Proof.
  intros Hend.
  induction u; cbn [DecimalString.NilEmpty.string_of_uint]; simpl_append;
    try (cbn [scan_digits]; rewrite IHu; reflexivity).
  destruct rest as [|c rest]; [reflexivity |].
  cbn [scan_digits]. simpl in Hend. by destruct (digit_of c).
Qed.

Lemma parse_digits_print n rest :
  num_end rest = true ->
  parse_digits (DecimalString.NilEmpty.string_of_uint (N.to_uint n) +:+ rest) = Some (n, rest).
Proof.
  intros Hend. unfold parse_digits.
  rewrite scan_digits_print by done.
  rewrite to_uint_int_digits, DecimalN.Unsigned.of_to.
  destruct rest as [|c rest]; [done |].
  simpl in Hend. destruct (digit_of c); [done |].
  apply negb_true_iff in Hend. cbv zeta. by rewrite Hend.
Qed.

Lemma value_end_num_end rest : value_end rest = true -> num_end rest = true.
Proof.
  destruct rest as [|c rest]; [done |]. simpl.
  intros [H|H]%orb_true_iff; apply N.eqb_eq in H;
    apply (f_equal ascii_of_N) in H; rewrite ascii_N_embedding in H; by subst c.
Qed.

Lemma parse_number_print z rest :
  value_end rest = true ->
  parse_number (Number_toString z +:+ rest) = Some (JNum (Int z), rest).
Proof.
  intros Hend%value_end_num_end. unfold Number_toString.
  destruct (Z.ltb_spec z 0) as [Hneg|Hpos].
  - simpl_append. cbn [parse_number]. simpl (N_of_ascii "-" =? 45)%N. cbv iota.
    rewrite parse_digits_print by done.
    rewrite N2Z.inj_abs_N. replace (- Z.abs z)%Z with z by lia. done.
  - pose proof (to_uint_int_digits (Z.abs_N z)) as Hd.
    pose proof (parse_digits_print (Z.abs_N z) rest Hend) as Hp.
    destruct (N.to_uint (Z.abs_N z)) as [|u|u|u|u|u|u|u|u|u|u]; try done;
      cbn [DecimalString.NilEmpty.string_of_uint] in *; simpl_append;
      cbn [parse_number]; simpl (N_of_ascii _ =? 45)%N; cbv iota;
      rewrite Hp, N2Z.inj_abs_N; replace (Z.abs z) with z by lia; done.
Qed.

(** The text of an integer is read back as that integer. *)
Lemma parse_value_number fuel z rest :
  value_end rest = true ->
  parse_value (S fuel) (Number_toString z +:+ rest) = Some (JNum (Int z), rest).
Proof.
  intros Hend. rewrite <- (parse_number_print z rest Hend).
  unfold Number_toString.
  destruct (z <? 0)%Z.
  - simpl_append. reflexivity.
  - pose proof (to_uint_int_digits (Z.abs_N z)) as Hd.
    destruct (N.to_uint (Z.abs_N z)) as [|u|u|u|u|u|u|u|u|u|u]; try done;
      cbn [DecimalString.NilEmpty.string_of_uint]; simpl_append; reflexivity.
Qed.

Lemma JsValue_ind' (P : JsValue -> Prop) :
  P JNull -> (forall b, P (JBool b)) -> (forall n, P (JNum n)) ->
  (forall s, P (JStr s)) ->
  (forall items, Forall P items -> P (JArr items)) ->
  (forall props, Forall (fun kv => P (snd kv)) props -> P (JObj props)) ->
  forall v, P v.
Proof.
  intros Hnull Hbool Hnum Hstr Harr Hobj. fix IH 1.
  intros [|b|n|s|items|props]; [done.. | |].
  - apply Harr. induction items as [|v items IHi]; constructor; [apply IH | done].
  - apply Hobj. induction props as [|[k v] props IHp]; constructor;
      [apply IH | done].
Qed.

Lemma stringify_starts indent v :
  serializable v = true -> starts_value (stringify indent v) = true.
Proof.
  destruct v as [|[]|[z| | |]|s|[|v items]|[|kv props]]; try done.
  intros _. cbn [stringify number_json]. unfold Number_toString.
  destruct (z <? 0)%Z; [done |].
  pose proof (to_uint_int_digits (Z.abs_N z)) as Hd.
  by destruct (N.to_uint (Z.abs_N z)).
Qed.

Lemma skip_ws_starts s : starts_value s = true -> skip_ws s = s.
Proof.
  destruct s as [|c s]; [done |]. simpl.
  intros [[Hws _]%andb_true_iff _]%andb_true_iff.
  apply negb_true_iff in Hws. by rewrite Hws.
Qed.

Lemma starts_value_app s k : starts_value s = true -> starts_value (s +:+ k) = true.
Proof. by destruct s. Qed.

Lemma parse_value_skip fuel w s :
  all_ws w = true -> parse_value fuel (w +:+ s) = parse_value fuel s.
Proof.
  intros Hw. destruct fuel; [done |]. cbn [parse_value]. by rewrite skip_ws_app.
Qed.

Lemma parse_elements_unfold fuel s acc :
  parse_elements (S fuel) s acc
  = match parse_value fuel s with
    | Some (v, rest) =>
        match skip_ws rest with
        | String c rest' =>
            let n := N_of_ascii c in
            if (n =? 44)%N then parse_elements fuel rest' (acc ++ [v])
            else if (n =? 93)%N then Some (JArr (acc ++ [v]), rest')
            else None
        | EmptyString => None
        end
    | None => None
    end.
Proof. reflexivity. Qed.

Lemma parse_elements_skip fuel w s acc :
  all_ws w = true -> parse_elements fuel (w +:+ s) acc = parse_elements fuel s acc.
Proof.
  intros Hw. destruct fuel; [done |].
  by rewrite !parse_elements_unfold, parse_value_skip.
Qed.

Lemma parse_members_unfold fuel s acc :
  parse_members (S fuel) s acc
  = match skip_ws s with
    | String q s1 =>
        if (N_of_ascii q =? 34)%N then
          match parse_string s1 with
          | Some (k, s2) =>
              match skip_ws s2 with
              | String colon s3 =>
                  if (N_of_ascii colon =? 58)%N then
                    match parse_value fuel s3 with
                    | Some (v, rest) =>
                        match skip_ws rest with
                        | String c rest' =>
                            let n := N_of_ascii c in
                            if (n =? 44)%N
                            then parse_members fuel rest' (JsMap.set acc k v)
                            else if (n =? 125)%N
                            then Some (JObj (JsMap.set acc k v), rest')
                            else None
                        | EmptyString => None
                        end
                    | None => None
                    end
                  else None
              | EmptyString => None
              end
          | None => None
          end
        else None
    | EmptyString => None
    end.
Proof. reflexivity. Qed.

Lemma parse_members_skip fuel w s acc :
  all_ws w = true -> parse_members fuel (w +:+ s) acc = parse_members fuel s acc.
Proof.
  intros Hw. destruct fuel; [done |].
  by rewrite !parse_members_unfold, skip_ws_app.
Qed.

Lemma all_ws_nl : all_ws nl = true.
Proof. reflexivity. Qed.

Lemma all_ws_gap indent : all_ws indent = true -> all_ws (indent +:+ gap) = true.
Proof. intros H. by rewrite all_ws_app, H. Qed.

(** Tests on concrete characters are evaluated. *)
Ltac char_tests :=
  cbv beta iota zeta;
  repeat (match goal with
    | |- context [is_ws (Ascii ?a ?b ?c ?d ?e ?f ?g ?h)] =>
        let t := constr:(is_ws (Ascii a b c d e f g h)) in
        let r := eval vm_compute in t in
        change t with r
    | |- context [(N_of_ascii (Ascii ?a ?b ?c ?d ?e ?f ?g ?h) =? ?n)%N] =>
        let t := constr:((N_of_ascii (Ascii a b c d e f g h) =? n)%N) in
        let r := eval vm_compute in t in
        change t with r
    end; cbv beta iota zeta).

Lemma join_cons sep x y l :
  join sep (x :: y :: l) = x +:+ sep +:+ join sep (y :: l).
Proof. reflexivity. Qed.

Lemma length_join_cons sep x y l :
  String.length (join sep (x :: y :: l))
  = (String.length x + String.length sep + String.length (join sep (y :: l)))%nat.
Proof. rewrite join_cons, !length_append. lia. Qed.

(** The elements of an array, as [stringify] separates and closes them. *)
Lemma parse_elements_print ind stepback items :
  all_ws ind = true -> all_ws stepback = true ->
  items <> [] ->
  Forall (fun v => serializable v = true ∧ roundtrips v) items ->
  forall acc fuel rest,
    (String.length (join (String "," (nl +:+ ind)) (map (stringify ind) items)) + 2
     <= fuel)%nat ->
    parse_elements fuel
      (join (String "," (nl +:+ ind)) (map (stringify ind) items)
       +:+ nl +:+ stepback +:+ String "]" rest) acc
    = Some (JArr (acc ++ items), rest).
Proof.
  intros Hind Hstep Hne Hall.
  induction Hall as [|v items [Hser Hv] Hall IH]; [done |].
  intros acc fuel rest Hfuel. clear Hne.
  destruct fuel as [|fuel]; [lia |]. rewrite parse_elements_unfold.
  destruct items as [|v2 items].
  - cbn [map join] in *.
    rewrite Hv; [|done | lia | done].
    rewrite skip_ws_app by done. rewrite skip_ws_app by done.
    cbn [skip_ws]. char_tests. done.
  - cbn [map] in *. rewrite length_join_cons in Hfuel.
    rewrite join_cons, !append_assoc.
    rewrite Hv; [|done | lia | done].
    rewrite append_cons. cbn [skip_ws]. char_tests.
    rewrite parse_elements_skip by (by rewrite all_ws_app, Hind).
    rewrite (IH ltac:(done)).
    + by rewrite <- app_assoc.
    + cbn [String.length] in Hfuel. lia.
Qed.

Lemma JsMap_set_fresh_NoDup {V} (acc : list (string * V)) k v props :
  NoDup (map fst acc ++ k :: props) -> JsMap.set acc k v = acc ++ [(k, v)].
Proof.
  induction acc as [|[k' v'] acc IHacc]; [done |].
  simpl. intros [Hk' Hnd]%NoDup_cons.
  destruct (decide (k' = k)) as [->|Hne].
  - destruct Hk'. apply elem_of_app. right. left.
  - by rewrite IHacc.
Qed.

Lemma parse_value_space fuel s :
  parse_value fuel (String " " s) = parse_value fuel s.
Proof. apply (parse_value_skip fuel " " s eq_refl). Qed.

Lemma dquote_app k : dquote +:+ k = String "034" k.
Proof. reflexivity. Qed.

Lemma parse_members_print ind stepback props :
  all_ws ind = true -> all_ws stepback = true ->
  props <> [] ->
  Forall (fun kv => serializable (snd kv) = true ∧ roundtrips (snd kv)) props ->
  forall acc fuel rest,
    NoDup (map fst acc ++ map fst props) ->
    (String.length
       (join (String "," (nl +:+ ind))
          (map (fun kv => QuoteJSONString (fst kv) +:+ ": "
                          +:+ stringify ind (snd kv)) props)) + 2
     <= fuel)%nat ->
    parse_members fuel
      (join (String "," (nl +:+ ind))
         (map (fun kv => QuoteJSONString (fst kv) +:+ ": "
                         +:+ stringify ind (snd kv)) props)
       +:+ nl +:+ stepback +:+ String "}" rest) acc
    = Some (JObj (acc ++ props), rest).
Proof.
  intros Hind Hstep Hne Hall.
  induction Hall as [|[k v] props [Hser Hv] Hall IH]; [done |].
  intros acc fuel rest Hnd Hfuel. clear Hne. simpl in Hser, Hv.
  pose proof (JsMap_set_fresh_NoDup acc k v _ Hnd) as Hset.
  assert (NoDup (map fst (acc ++ [(k, v)]) ++ map fst props)) as Hnd'.
  { rewrite map_app. simpl. by rewrite <- app_assoc. }
  destruct fuel as [|fuel]; [lia |]. rewrite parse_members_unfold.
  assert (forall tail,
    parse_string (quote_chars k +:+ dquote +:+ String ":" (String " " tail))
    = Some (k, String ":" (String " " tail))) as Hkey.
  { intros tail. apply quote_chars_parse. }
  destruct props as [|kv2 props].
  - cbn [map join fst snd] in *. unfold QuoteJSONString in *.
    rewrite !append_assoc. rewrite !append_cons, !append_nil.
    rewrite dquote_app at 1.
    cbn [skip_ws]. char_tests. rewrite Hkey.
    cbn [skip_ws]. char_tests.
    rewrite parse_value_space.
    rewrite !length_append in Hfuel. cbn [String.length] in Hfuel.
    rewrite Hv; [|done | lia | done].
    rewrite skip_ws_app by done. rewrite skip_ws_app by done.
    cbn [skip_ws]. char_tests. by rewrite Hset.
  - cbn [map fst snd] in *. rewrite length_join_cons in Hfuel.
    rewrite join_cons. unfold QuoteJSONString at 1.
    unfold QuoteJSONString at 1 in Hfuel.
    rewrite !append_assoc. rewrite !append_cons, !append_nil.
    rewrite dquote_app at 1.
    cbn [skip_ws]. char_tests. rewrite Hkey.
    cbn [skip_ws]. char_tests.
    rewrite parse_value_space.
    rewrite !length_append in Hfuel. cbn [String.length] in Hfuel.
    rewrite Hv; [|done | lia | done].
    cbn [skip_ws]. char_tests.
    rewrite parse_members_skip by (by rewrite all_ws_app, Hind).
    rewrite Hset.
    rewrite (IH ltac:(done)).
    + by rewrite <- app_assoc.
    + done.
    + lia.
Qed.

Lemma parse_value_array fuel s1 :
  parse_value (S fuel) (String "[" s1)
  = match skip_ws s1 with
    | String c' s2 =>
        if (N_of_ascii c' =? 93)%N then Some (JArr [], s2)
        else parse_elements fuel s1 []
    | EmptyString => None
    end.
Proof. reflexivity. Qed.

Lemma parse_value_object fuel s1 :
  parse_value (S fuel) (String "{" s1)
  = match skip_ws s1 with
    | String c' s2 =>
        if (N_of_ascii c' =? 125)%N then Some (JObj [], s2)
        else parse_members fuel s1 []
    | EmptyString => None
    end.
Proof. reflexivity. Qed.

Lemma parse_value_string fuel s1 :
  parse_value (S fuel) (String "034" s1)
  = match parse_string s1 with
    | Some (str, rest) => Some (JStr str, rest)
    | None => None
    end.
Proof. reflexivity. Qed.

(** After the opening bracket, white space and then the first element or
    member, which is no closing bracket. *)
Lemma skip_to_first w x k :
  all_ws w = true -> starts_value x = true ->
  exists c s, skip_ws (w +:+ x +:+ k) = String c s
    ∧ (N_of_ascii c =? 93)%N = false ∧ (N_of_ascii c =? 125)%N = false.
Proof.
  intros Hw Hx. rewrite skip_ws_app by done.
  rewrite skip_ws_starts by (by apply starts_value_app).
  destruct x as [|c x]; [done |]. exists c, (x +:+ k). split; [done |].
  simpl in Hx. apply andb_true_iff in Hx as [[_ H1]%andb_true_iff H2].
  by apply negb_true_iff in H1, H2.
Qed.

Lemma join_starts sep x l :
  starts_value x = true -> starts_value (join sep (x :: l)) = true.
Proof. intros Hx. destruct l; [done |]. rewrite join_cons. by apply starts_value_app. Qed.

Lemma roundtrip_value v : serializable v = true -> roundtrips v.
Proof.
  induction v as [|b|n|s|items IH|props IH] using JsValue_ind';
    intros Hser indent fuel rest Hind Hfuel Hend;
    (destruct fuel as [|fuel]; [lia |]).
  - reflexivity.
  - by destruct b.
  - destruct n as [z| | |]; try done. by apply parse_value_number.
  - cbn [stringify]. unfold QuoteJSONString.
    rewrite !append_assoc, dquote_app, parse_value_string.
    by rewrite quote_chars_parse.
  - destruct items as [|v items]; [reflexivity |].
    cbn [stringify] in *. cbn [serializable] in Hser.
    set (ind := indent +:+ gap) in *.
    assert (all_ws ind = true) as Hind' by by apply all_ws_gap.
    assert (Forall (fun v => serializable v = true ∧ roundtrips v) (v :: items)) as Hall.
    { apply Forall_forall. intros x Hx. rewrite Forall_forall in IH.
      assert (serializable x = true) as Hsx.
      { rewrite forallb_forall in Hser. apply Hser. by apply list_elem_of_In. }
      split; [done | by apply IH]. }
    assert (starts_value (stringify ind v) = true) as Hstart.
    { apply stringify_starts. by apply Forall_inv in Hall as [? _]. }
    rewrite !append_assoc, !append_cons, !append_nil in *.
    rewrite parse_value_array.
    destruct (skip_to_first (nl +:+ ind)
                (join (String "," (nl +:+ ind)) (map (stringify ind) (v :: items)))
                (nl +:+ indent +:+ String "]" rest))
      as (c & s' & Hskip & Hc & _).
    { by rewrite all_ws_app, Hind'. }
    { by apply join_starts. }
    rewrite !append_assoc in Hskip. rewrite Hskip, Hc.
    rewrite parse_elements_skip by done.
    rewrite parse_elements_skip by done.
    apply (parse_elements_print ind indent (v :: items)); [done.. |].
    cbn [String.length] in Hfuel. rewrite !length_append in Hfuel.
    cbn [String.length] in Hfuel. lia.
  - destruct props as [|kv props]; [reflexivity |].
    cbn [stringify] in *. cbn [serializable] in Hser.
    apply andb_true_iff in Hser as [Hnd%bool_decide_eq_true Hser].
    set (ind := indent +:+ gap) in *.
    assert (all_ws ind = true) as Hind' by by apply all_ws_gap.
    assert (Forall (fun kv => serializable (snd kv) = true ∧ roundtrips (snd kv))
              (kv :: props)) as Hall.
    { apply Forall_forall. intros x Hx. rewrite Forall_forall in IH.
      assert (serializable (snd x) = true) as Hsx.
      { rewrite forallb_forall in Hser. apply Hser. by apply list_elem_of_In. }
      split; [done | by apply IH]. }
    rewrite !append_assoc, !append_cons, !append_nil in *.
    rewrite parse_value_object.
    destruct (skip_to_first (nl +:+ ind)
                (join (String "," (nl +:+ ind))
                   (map (fun kv => QuoteJSONString (fst kv) +:+ ": "
                                   +:+ stringify ind (snd kv)) (kv :: props)))
                (nl +:+ indent +:+ String "}" rest))
      as (c & s' & Hskip & _ & Hc).
    { by rewrite all_ws_app, Hind'. }
    { cbn [map]. by apply join_starts. }
    rewrite !append_assoc in Hskip. rewrite Hskip, Hc.
    rewrite parse_members_skip by done.
    rewrite parse_members_skip by done.
    apply (parse_members_print ind indent (kv :: props)); [done.. | |].
    + done.
    + cbn [String.length] in Hfuel. rewrite !length_append in Hfuel.
      cbn [String.length] in Hfuel. lia.
Qed.

(** [JSON.parse] inverts [JSON.stringify] on serializable values. *)
Lemma JSON_roundtrip v :
  serializable v = true -> JSON_parse (JSON_stringify v) = Some v.
Proof.
  intros Hser. unfold JSON_parse, JSON_stringify.
  pose proof (roundtrip_value v Hser EmptyString
                (S (String.length (stringify EmptyString v))) EmptyString
                eq_refl ltac:(lia) eq_refl) as H.
  rewrite append_nil_r in H. by rewrite H.
Qed.

(** ** Serialized graphs *)

Lemma graph_value_serializable g :
  (forall n, n ∈ nodes g -> isSafeInteger (n_line n) = true) ->
  serializable (graph_value g) = true.
Proof.
  intros Hlines. unfold graph_value. cbn [serializable].
  apply andb_true_iff. split.
  - apply bool_decide_eq_true. destruct (commitSha g); by_eval.
  - rewrite forallb_app. apply andb_true_iff. split; [|by destruct (commitSha g)].
    cbn [forallb snd serializable]. rewrite !andb_true_r.
    apply andb_true_iff. split; apply forallb_forall; intros v Hv;
      apply in_map_iff in Hv as (x & <- & Hx).
    + apply list_elem_of_In, Hlines in Hx. cbn.
      destruct (n_line x); [done | discriminate..].
    + done.
Qed.

Lemma node_value_inj n m : node_value n = node_value m -> n = m.
Proof.
  destruct n, m. unfold node_value. simpl.
  intros [= -> ?%NodeKind_str_inj -> ->]. by subst.
Qed.

Lemma edge_value_inj e e' : edge_value e = edge_value e' -> e = e'.
Proof.
  destruct e, e'. unfold edge_value. simpl.
  intros [= -> -> ?%EdgeKind_str_inj]. by subst.
Qed.

Lemma map_inj {A B} (f : A -> B) (l l' : list A) :
  (forall x y, f x = f y -> x = y) -> map f l = map f l' -> l = l'.
Proof.
  intros Hf. revert l'. induction l as [|x l IH]; intros [|y l']; simpl; try done.
  intros [= ?%Hf ?%IH]. by subst.
Qed.

(** Two graphs that are the same value are the same graph. *)
Lemma graph_value_inj g g' : graph_value g = graph_value g' -> g = g'.
Proof.
  destruct g as [ns es t c], g' as [ns' es' t' c']. unfold graph_value. simpl.
  intros [= Hn He -> Hc].
  apply (map_inj _ _ _ node_value_inj) in Hn.
  apply (map_inj _ _ _ edge_value_inj) in He. subst.
  f_equal. destruct c, c'; by inversion Hc.
Qed.




(** * Further properties of the code *)

(** ** The diff engine on the whole *)

Lemma first_wins_NoDup_id {A} (key : A -> string) seen (l : list A) :
  NoDup (key <$> l) -> (forall x, x ∈ l -> key x ∉ seen) ->
  first_wins key seen l = l.
Proof.
  revert seen. induction l as [|x l IH]; intros seen Hnd Hseen; simpl; [done |].
  rewrite fmap_cons in Hnd. apply NoDup_cons in Hnd as [Hx Hnd].
  rewrite bool_decide_eq_false_2 by (apply Hseen; left).
  f_equal. apply IH; [done |].
  intros y Hy. rewrite not_elem_of_app, list_elem_of_singleton. split.
  - apply Hseen. by right.
  - intros Heq. apply Hx. rewrite <- Heq. by apply list_elem_of_fmap_2.
Qed.

Section diff_lists.
Context {A : Type} (key : A -> string).
Implicit Types (before after : list A).

Local Abbreviation keyed l := (JsMap.from_entries ((fun x => (key x, x)) <$> l)).
Local Abbreviation missing after before := (push_missing (keyed after) (keyed before)).

(** A loop of [diffGraphs] reports nothing exactly when every key of the
    first list is a key of the second. *)
Lemma missing_nil after before :
  missing after before = [] <->
  forall k, k ∈ key <$> after -> k ∈ key <$> before.
Proof.
  split.
  - intros Hnil k Hk. destruct (decide (k ∈ key <$> before)) as [|Hb]; [done |].
    assert (k ∈ key <$> missing after before) as Hm by (by apply missing_keys).
    rewrite Hnil in Hm. by apply elem_of_nil in Hm.
  - intros Hsub. apply elem_of_nil_inv. intros x Hx.
    apply (missing_elem key) in Hx as [Hx Hb]. apply Hb, Hsub.
    by apply list_elem_of_fmap_2.
Qed.

(** [new Map] of entries with distinct keys holds the entries as given. *)
Lemma keyed_NoDup_id l :
  NoDup (key <$> l) -> keyed l = (fun x => (key x, x)) <$> l.
Proof.
  intros Hnd. unfold JsMap.from_entries.
  enough (forall m : JsMap.t A,
            NoDup (m.*1 ++ (key <$> l)) ->
            fold_left (fun m kv => JsMap.set m kv.1 kv.2)
              ((fun x => (key x, x)) <$> l) m
            = m ++ ((fun x => (key x, x)) <$> l)) as H.
  { apply (H []). done. }
  clear Hnd. induction l as [|x l IH]; intros m Hnd; simpl.
  - by rewrite app_nil_r.
  - rewrite fmap_cons in Hnd.
    apply NoDup_app in Hnd as (Hm & Hdisj & Hl).
    apply NoDup_cons in Hl as [Hx Hl].
    rewrite JsMap_set_fresh.
    2:{ intros Hin. apply (Hdisj _ Hin). left. }
    rewrite IH.
    + by rewrite <- app_assoc.
    + rewrite fmap_app. simpl. rewrite <- app_assoc. simpl.
      apply NoDup_app. split_and!; [done | | by apply NoDup_cons].
      intros k Hk. apply Hdisj. done.
Qed.

Lemma missing_NoDup_filter after before :
  NoDup (key <$> after) ->
  missing after before = filter (fun x => key x ∉ key <$> before) after.
Proof.
  intros Hnd. rewrite push_missing_spec, (keyed_NoDup_id after) by done.
  induction after as [|x l IH]; [done |].
  rewrite fmap_cons in Hnd. apply NoDup_cons in Hnd as [_ Hnd].
  rewrite fmap_cons, !filter_cons. cbn [fst].
  rewrite keyed_has.
  destruct (decide (key x ∉ key <$> before)) as [Hx|Hx].
  - rewrite bool_decide_eq_false_2 by done.
    rewrite decide_True by done. rewrite fmap_cons. simpl. f_equal. by apply IH.
  - apply dec_stable in Hx. rewrite bool_decide_eq_true_2 by done.
    rewrite decide_False by done. by apply IH.
Qed.

(** Among distinct keys, as many keys of [after] are keys of [before] as
    keys of [before] are keys of [after]. *)
Lemma common_keys_length before after :
  NoDup (key <$> before) -> NoDup (key <$> after) ->
  length (filter (fun x => key x ∈ key <$> before) after)
  = length (filter (fun x => key x ∈ key <$> after) before).
Proof.
  intros Hb Ha.
  assert (forall l l' : list A,
            key <$> filter (fun x => key x ∈ key <$> l') l
            = filter (fun k => k ∈ key <$> l') (key <$> l)) as Hf.
  { intros l l'. induction l as [|x l IH]; [done |].
    rewrite fmap_cons, !filter_cons. destruct (decide _); [|done].
    rewrite fmap_cons. by f_equal. }
  rewrite <- (length_fmap key (filter _ after)), <- (length_fmap key (filter _ before)).
  rewrite !Hf. apply Permutation_length, NoDup_Permutation.
  - by apply NoDup_filter.
  - by apply NoDup_filter.
  - intros k. rewrite !list_elem_of_filter. tauto.
Qed.

Lemma missing_count before after :
  NoDup (key <$> before) -> NoDup (key <$> after) ->
  (length after + length (missing before after)
   = length before + length (missing after before))%nat.
Proof.
  intros Hb Ha. rewrite !missing_NoDup_filter by done.
  pose proof (common_keys_length before after Hb Ha) as Hc.
  assert (forall (l l' : list A),
            length l = (length (filter (fun x => key x ∈ key <$> l') l)
                        + length (filter (fun x => key x ∉ key <$> l') l))%nat) as Hsplit.
  { intros l l'. induction l as [|x l IH]; [done |].
    rewrite !filter_cons. destruct (decide (key x ∈ key <$> l')).
    - rewrite decide_False by tauto. simpl. by rewrite IH at 1.
    - rewrite decide_True by done. simpl. rewrite IH at 1. lia. }
  pose proof (Hsplit after before) as H1. pose proof (Hsplit before after) as H2. lia.
Qed.
End diff_lists.

Lemma isDiffEmpty_spec d :
  isDiffEmpty d = true <->
  addedNodes d = [] ∧ removedNodes d = [] ∧ addedEdges d = [] ∧ removedEdges d = [].
Proof.
  unfold isDiffEmpty. rewrite !andb_true_iff, !Nat.eqb_eq, !length_zero_iff_nil.
  tauto.
Qed.

Lemma diff_empty_keys (before after : DependencyGraph) :
  isDiffEmpty (diffGraphs before after) = true <->
  (forall k, k ∈ nodeKey <$> nodes before <-> k ∈ nodeKey <$> nodes after)
  ∧ (forall k, k ∈ edgeKey <$> edges before <-> k ∈ edgeKey <$> edges after).
Proof.
  rewrite isDiffEmpty_spec. cbn [diffGraphs addedNodes removedNodes addedEdges removedEdges].
  rewrite !missing_nil. split.
  - intros (H1 & H2 & H3 & H4). split; intros k; split; auto.
  - intros [Hn He]. split_and!; intros k; [apply Hn | apply Hn | apply He | apply He].
Qed.

(** X1. The diff of two graphs is empty exactly when the two graphs have
    the same set of node keys and the same set of edge keys; the diff of a
    graph with itself is always empty. *)
Theorem diff_empty_iff_same_keys (before after : DependencyGraph) :
  (isDiffEmpty (diffGraphs before after) = true <->
   (forall k, k ∈ nodeKey <$> nodes before <-> k ∈ nodeKey <$> nodes after)
   ∧ (forall k, k ∈ edgeKey <$> edges before <-> k ∈ edgeKey <$> edges after))
  ∧ isDiffEmpty (diffGraphs before before) = true.
Proof.
  split; [apply diff_empty_keys |]. by apply diff_empty_keys.
Qed.

(** X2. The diff compares names and kinds only.  Two graphs whose nodes
    agree one by one in name and kind and whose edges are the same give an
    empty diff, whatever the files, the lines, the scan times and the commit
    ids are: a type moved to another file or line is not reported. *)
Theorem diff_ignores_location_and_stamps (before after : DependencyGraph) :
  Forall2 (fun n m => n_name n = n_name m ∧ n_kind n = n_kind m)
    (nodes before) (nodes after) ->
  edges before = edges after ->
  isDiffEmpty (diffGraphs before after) = true.
Proof.
  intros Hn He. apply diff_empty_keys.
  assert (nodeKey <$> nodes before = nodeKey <$> nodes after) as ->.
  { induction Hn as [|n m l l' [Hname Hkind] _ IH]; [done |].
    rewrite !fmap_cons. f_equal; [|done]. unfold nodeKey. by rewrite Hname, Hkind. }
  by rewrite He.
Qed.

(** X3. A diff is a patch on keys: the node keys of the after graph are the
    node keys of the before graph that are not reported removed, together
    with the keys reported added; no key is reported both added and removed.
    The same holds for edges. *)
Theorem diff_is_a_patch_on_keys (before after : DependencyGraph) :
  let d := diffGraphs before after in
  (forall k, k ∈ nodeKey <$> nodes after <->
     (k ∈ nodeKey <$> nodes before ∧ k ∉ nodeKey <$> removedNodes d)
     ∨ k ∈ nodeKey <$> addedNodes d)
  ∧ (forall k, k ∈ edgeKey <$> edges after <->
       (k ∈ edgeKey <$> edges before ∧ k ∉ edgeKey <$> removedEdges d)
       ∨ k ∈ edgeKey <$> addedEdges d)
  ∧ (forall k, ~ (k ∈ nodeKey <$> addedNodes d ∧ k ∈ nodeKey <$> removedNodes d))
  ∧ (forall k, ~ (k ∈ edgeKey <$> addedEdges d ∧ k ∈ edgeKey <$> removedEdges d)).
Proof.
  cbn [diffGraphs addedNodes removedNodes addedEdges removedEdges]. cbv zeta.
  split_and!; intros k; rewrite !missing_keys.
  - destruct (decide (k ∈ nodeKey <$> nodes before)),
      (decide (k ∈ nodeKey <$> nodes after)); tauto.
  - destruct (decide (k ∈ edgeKey <$> edges before)),
      (decide (k ∈ edgeKey <$> edges after)); tauto.
  - tauto.
  - tauto.
Qed.

(** X4. When no two nodes of the after graph share a key, the added nodes
    are the nodes of the after graph whose key is no key of the before
    graph, in the order of the after graph; likewise the removed nodes and
    the added and removed edges. *)
Theorem diff_lists_are_filters (before after : DependencyGraph) :
  let d := diffGraphs before after in
  (NoDup (nodeKey <$> nodes after) ->
     addedNodes d
     = filter (fun n => nodeKey n ∉ nodeKey <$> nodes before) (nodes after))
  ∧ (NoDup (nodeKey <$> nodes before) ->
       removedNodes d
       = filter (fun n => nodeKey n ∉ nodeKey <$> nodes after) (nodes before))
  ∧ (NoDup (edgeKey <$> edges after) ->
       addedEdges d
       = filter (fun e => edgeKey e ∉ edgeKey <$> edges before) (edges after))
  ∧ (NoDup (edgeKey <$> edges before) ->
       removedEdges d
       = filter (fun e => edgeKey e ∉ edgeKey <$> edges after) (edges before)).
Proof.
  cbv zeta. split_and!; intros Hnd; by apply missing_NoDup_filter.
Qed.

(** X5. For graphs without duplicate keys the counts of a diff balance: the
    number of nodes after plus the number of removed nodes is the number of
    nodes before plus the number of added nodes, and likewise for edges. *)
Theorem diff_counts_balance (before after : DependencyGraph) :
  NoDup (nodeKey <$> nodes before) -> NoDup (nodeKey <$> nodes after) ->
  NoDup (edgeKey <$> edges before) -> NoDup (edgeKey <$> edges after) ->
  let d := diffGraphs before after in
  (length (nodes after) + length (removedNodes d)
   = length (nodes before) + length (addedNodes d))%nat
  ∧ (length (edges after) + length (removedEdges d)
     = length (edges before) + length (addedEdges d))%nat.
Proof.
  intros Hnb Hna Heb Hea. cbv zeta. split; by apply missing_count.
Qed.

(** X6. Assembling the same node and edge lists twice, at different times,
    in different directories and under different commit ids, gives two
    graphs whose diff is empty. *)
Theorem rescan_of_same_input_has_empty_diff w1 w2 allNodes allEdges dir1 dir2 sha1 sha2 :
  isDiffEmpty
    (diffGraphs (filterAndDedupe w1 allNodes allEdges dir1 sha1)
                (filterAndDedupe w2 allNodes allEdges dir2 sha2)) = true.
Proof.
  apply diff_empty_keys. by rewrite !filterAndDedupe_nodes, !filterAndDedupe_edges.
Qed.

(** ** Graph assembly on the whole *)

Lemma filter_all_id {A} (P : A -> Prop) `{!forall x, Decision (P x)} (l : list A) :
  Forall P l -> filter P l = l.
Proof.
  induction 1 as [|x l Hx _ IH]; [done |].
  rewrite filter_cons, decide_True by done. by f_equal.
Qed.

Lemma assembled_edge_is_valid w allNodes allEdges dir sha e :
  let g := filterAndDedupe w allNodes allEdges dir sha in
  e ∈ edges g -> edge_valid_in (nodes g) e.
Proof.
  intros g (l1 & l2 & _ & Hv & _)%assembled_edges_elem. done.
Qed.

(** X7. Assembly is idempotent: assembling the nodes and edges of an
    assembled graph again returns the same nodes and the same edges. *)
Theorem assembly_is_idempotent w w' allNodes allEdges dir dir' sha sha' :
  let g := filterAndDedupe w allNodes allEdges dir sha in
  let g' := filterAndDedupe w' (nodes g) (edges g) dir' sha' in
  nodes g' = nodes g ∧ edges g' = edges g.
Proof.
  intros g g'.
  assert (nodes g' = nodes g) as Hn.
  { unfold g'. rewrite filterAndDedupe_nodes.
    apply first_wins_NoDup_id; [apply assembled_names_NoDup |].
    intros ??. apply not_elem_of_nil. }
  split; [done |].
  pose proof (filterAndDedupe_nodes w' (nodes g) (edges g) dir' sha') as Hn'.
  fold g' in Hn'. unfold g' at 1. rewrite filterAndDedupe_edges, <- Hn', Hn.
  rewrite filter_all_id.
  - apply first_wins_NoDup_id; [apply assembled_keys_NoDup |].
    intros ??. apply not_elem_of_nil.
  - apply Forall_forall. intros e He. apply Is_true_true, valid_edge_spec.
    by apply assembled_edge_is_valid.
Qed.

(** X8. An assembled graph that has an edge has at least two nodes; from an
    empty node list assembly returns no nodes and no edges, whatever edges
    it is given. *)
Theorem edges_need_two_nodes w allNodes allEdges dir sha :
  let g := filterAndDedupe w allNodes allEdges dir sha in
  (edges g ≠ [] -> (2 <= length (nodes g))%nat)
  ∧ (allNodes = [] -> nodes g = [] ∧ edges g = []).
Proof.
  intros g.
  assert (edges g ≠ [] -> (2 <= length (nodes g))%nat) as H2.
  { destruct (edges g) as [|e es] eqn:He; [done |]. intros _.
    assert (e ∈ edges g) as Hin by (rewrite He; left).
    apply assembled_edge_is_valid in Hin.
    destruct Hin as ((n & Hn & Hnf) & (m & Hm & Hmt) & Hne). fold g in Hn, Hm.
    destruct (nodes g) as [|x [|y l]]; simpl; [| |lia].
    - by apply elem_of_nil in Hn.
    - apply list_elem_of_singleton in Hn, Hm. congruence. }
  split; [done |]. intros ->.
  assert (nodes g = []) as Hn by (unfold g; by rewrite filterAndDedupe_nodes).
  split; [done |].
  destruct (edges g) as [|e es] eqn:He; [done |].
  assert (2 <= length (nodes g))%nat as Hlen by (by apply H2).
  rewrite Hn in Hlen. simpl in Hlen. lia.
Qed.

(** ** Splitting and joining strings *)

Lemma split_not_nil sep s : split sep s ≠ [].
Proof.
  destruct s as [|c s]; simpl; [done |].
  case_bool_decide; [done |]. by destruct (split sep s).
Qed.

Lemma join_cons_char sep c p ps :
  join sep (String c p :: ps) = String c (join sep (p :: ps)).
Proof. destruct ps; simpl; by simpl_append. Qed.

(** [split] is undone by [join] with the same separator. *)
Lemma join_split sep s : join (String sep EmptyString) (split sep s) = s.
Proof.
  induction s as [|c s IH]; simpl; [done |].
  case_bool_decide as Hc.
  - subst c. pose proof (split_not_nil sep s) as Hne.
    destruct (split sep s) as [|p ps]; [done |].
    rewrite join_cons. simpl_append. by rewrite IH.
  - pose proof (split_not_nil sep s) as Hne.
    destruct (split sep s) as [|p ps]; [done |].
    by rewrite join_cons_char, IH.
Qed.

Lemma split_no_sep sep s p : p ∈ split sep s -> has_char sep p = false.
Proof.
  revert p. induction s as [|c s IH]; intros p; simpl.
  - by intros ->%list_elem_of_singleton.
  - case_bool_decide as Hc.
    + intros [->|Hin]%elem_of_cons; [done | by apply IH].
    + pose proof (split_not_nil sep s) as Hne.
      destruct (split sep s) as [|q qs]; [done |].
      intros [->|Hin]%elem_of_cons.
      * simpl. rewrite bool_decide_eq_false_2 by done. apply IH. left.
      * apply IH. by right.
Qed.

Lemma split_length sep s :
  (1 <? length (split sep s))%nat = has_char sep s.
Proof.
  induction s as [|c s IH]; simpl; [done |].
  pose proof (split_not_nil sep s) as Hne.
  case_bool_decide as Hc; simpl.
  - destruct (split sep s); [done |]. done.
  - destruct (split sep s) as [|q qs]; [done |]. simpl in *. done.
Qed.

Lemma join_snoc sep l x :
  l ≠ [] -> join sep (l ++ [x]) = join sep l +:+ sep +:+ x.
Proof.
  induction l as [|y l IH]; [done |]. intros _.
  destruct l as [|z l].
  - done.
  - change (join sep ((y :: z :: l) ++ [x]))
      with (y +:+ sep +:+ join sep ((z :: l) ++ [x])).
    rewrite IH by done. cbn [join]. by rewrite !append_assoc.
Qed.

(** X9. [dirFromFile] cuts a path at its last slash: a path without a
    slash is in the directory [.]; any other path is its directory, a
    slash, and a last component that holds no slash.  The directory of a
    path whose only slash is the first character is the empty string. *)
Theorem dirFromFile_cuts_at_last_slash (file : string) :
  (has_char "/" file = false -> dirFromFile file = ".")
  ∧ (has_char "/" file = true ->
     exists base, has_char "/" base = false
                  ∧ file = dirFromFile file +:+ "/" +:+ base)
  ∧ (forall base, has_char "/" base = false ->
       dirFromFile ("/" +:+ base) = EmptyString).
Proof.
  unfold dirFromFile. split_and!.
  - intros Hno. by rewrite split_length, Hno.
  - intros Hyes. rewrite split_length, Hyes.
    pose proof (join_split "/" file) as Hjoin.
    pose proof (split_no_sep "/" file) as Hparts.
    pose proof (split_length "/" file) as Hlen. rewrite Hyes in Hlen.
    destruct (split "/" file) as [|p ps] using rev_ind; [done |].
    clear IHps. rewrite removelast_last.
    exists p. split; [apply Hparts, elem_of_app; right; left |].
    rewrite <- Hjoin at 1. apply join_snoc.
    intros ->. done.
  - intros base Hbase. simpl_append. cbn [split].
    rewrite bool_decide_eq_true_2 by done.
    assert (split "/" base = [base]) as ->.
    { clear -Hbase. induction base as [|c s IH]; [done |]. simpl in *.
      apply orb_false_iff in Hbase as [Hc Hs].
      rewrite Hc. by rewrite IH. }
    done.
Qed.

(** ** The statistics of format.ts *)

Lemma JsMap_get_set_eq {V} (m : JsMap.t V) k v :
  JsMap_get (JsMap.set m k v) k = Some v.
Proof.
  induction m as [|[k' v'] m IH]; simpl.
  - by rewrite decide_True.
  - destruct (decide (k' = k)) as [->|Hne]; simpl.
    + by rewrite decide_True.
    + by rewrite decide_False.
Qed.

Lemma JsMap_get_set_ne {V} (m : JsMap.t V) k v k' :
  k' ≠ k -> JsMap_get (JsMap.set m k v) k' = JsMap_get m k'.
Proof.
  intros Hne. induction m as [|[k0 v0] m IH]; simpl.
  - by rewrite decide_False.
  - destruct (decide (k0 = k)) as [->|Hne0]; simpl.
    + by rewrite !decide_False.
    + destruct (decide (k0 = k')); done.
Qed.

Lemma JsMap_get_None {V} (m : JsMap.t V) k :
  JsMap_get m k = None <-> k ∉ m.*1.
Proof.
  induction m as [|[k' v'] m IH]; simpl.
  - split; [intros _; apply not_elem_of_nil | done].
  - rewrite not_elem_of_cons. destruct (decide (k' = k)) as [->|Hne].
    + split; [done | tauto].
    + rewrite IH. split; [by split | tauto].
Qed.

Lemma JsMap_get_elem {V} (m : JsMap.t V) k v :
  JsMap_get m k = Some v -> (k, v) ∈ m.
Proof.
  induction m as [|[k' v'] m IH]; simpl; [done |].
  destruct (decide (k' = k)) as [->|Hne].
  - intros [= ->]. left.
  - intros ?. right. by apply IH.
Qed.

Lemma JsMap_get_NoDup {V} (m : JsMap.t V) k v :
  NoDup m.*1 -> (k, v) ∈ m -> JsMap_get m k = Some v.
Proof.
  induction m as [|[k' v'] m IH]; simpl; intros Hnd Hin.
  - by apply elem_of_nil in Hin.
  - apply NoDup_cons in Hnd as [Hk Hnd].
    apply elem_of_cons in Hin as [[= -> ->]|Hin].
    + by rewrite decide_True.
    + rewrite decide_False; [by apply IH |].
      intros ->. apply Hk. by apply (list_elem_of_fmap_2 fst) in Hin.
Qed.

Lemma JsMap_set_present_keys {V} (m : JsMap.t V) k v :
  k ∈ m.*1 -> (JsMap.set m k v).*1 = m.*1.
Proof.
  induction m as [|[k' v'] m IH]; simpl; intros Hin.
  - by apply elem_of_nil in Hin.
  - destruct (decide (k' = k)) as [->|Hne]; simpl; [done |].
    f_equal. apply IH. apply elem_of_cons in Hin as [?|?]; [congruence | done].
Qed.

Lemma update_at_get {V} (m : JsMap.t V) k f x :
  JsMap_get (update_at m k f) x
  = if decide (k = x) then f <$> JsMap_get m x else JsMap_get m x.
Proof.
  unfold update_at. destruct (decide (k = x)) as [->|Hne].
  - destruct (JsMap_get m x) eqn:Hx; [|by rewrite Hx].
    by rewrite JsMap_get_set_eq.
  - destruct (JsMap_get m k); [|done]. by rewrite JsMap_get_set_ne.
Qed.

Lemma update_at_keys {V} (m : JsMap.t V) k f : (update_at m k f).*1 = m.*1.
Proof.
  unfold update_at. destruct (JsMap_get m k) eqn:Hk; [|done].
  apply JsMap_set_present_keys.
  by apply JsMap_get_elem, (list_elem_of_fmap_2 fst) in Hk.
Qed.

Lemma stats_edge_step_update stats e :
  stats_edge_step stats e
  = update_at (update_at stats (e_from e) (add_outgoing 1)) (e_to e) (add_incoming 1).
Proof. reflexivity. Qed.

(** The entry of a name after the edge loop: the entry before it, with the
    number of edges from the name added to [outgoing] and the number of
    edges to it added to [incoming]. *)
Lemma stats_edge_loop_get es stats x :
  JsMap_get (fold_left stats_edge_step es stats) x
  = (fun s => add_incoming (length (filter (fun e => e_to e = x) es))
                (add_outgoing (length (filter (fun e => e_from e = x) es)) s))
    <$> JsMap_get stats x.
Proof.
  revert stats. induction es as [|e es IH]; intros stats; cbn [fold_left].
  - destruct (JsMap_get stats x) as [[]|]; [|done]. simpl.
    unfold add_incoming, add_outgoing. simpl. by rewrite !Nat.add_0_r.
  - rewrite IH, stats_edge_step_update, !update_at_get, !filter_cons.
    destruct (JsMap_get stats x) as [[nm kd fl o i]|]; [|by repeat destruct (decide _)].
    unfold add_incoming, add_outgoing.
    destruct (decide (e_to e = x)), (decide (e_from e = x)); simpl;
      f_equal; f_equal; lia.
Qed.

Lemma stats_edge_loop_keys es stats :
  (fold_left stats_edge_step es stats).*1 = stats.*1.
Proof.
  revert stats. induction es as [|e es IH]; intros stats; cbn [fold_left]; [done |].
  by rewrite IH, stats_edge_step_update, !update_at_keys.
Qed.

Lemma stats_node_loop_get ns stats x :
  JsMap_get
    (fold_left (fun stats node => JsMap.set stats (n_name node) (node_stats node))
       ns stats) x
  = match last (filter (fun n => n_name n = x) ns) with
    | Some n => Some (node_stats n)
    | None => JsMap_get stats x
    end.
Proof.
  revert stats. induction ns as [|n ns IH]; intros stats; cbn [fold_left]; [done |].
  rewrite IH, filter_cons. destruct (decide (n_name n = x)) as [<-|Hne].
  - rewrite last_cons. destruct (last _); [done |]. apply JsMap_get_set_eq.
  - destruct (last _); [done |]. by apply JsMap_get_set_ne.
Qed.

Lemma stats_node_loop_keys ns stats k :
  k ∈ (fold_left (fun stats node => JsMap.set stats (n_name node) (node_stats node))
         ns stats).*1
  <-> k ∈ stats.*1 ∨ k ∈ n_name <$> ns.
Proof.
  revert stats. induction ns as [|n ns IH]; intros stats; cbn [fold_left].
  - rewrite fmap_nil, elem_of_nil. tauto.
  - rewrite IH, JsMap_set_keys, fmap_cons, elem_of_cons. tauto.
Qed.

Lemma stats_node_loop_NoDup ns stats :
  NoDup stats.*1 ->
  NoDup (fold_left (fun stats node => JsMap.set stats (n_name node) (node_stats node))
           ns stats).*1.
Proof.
  revert stats. induction ns as [|n ns IH]; intros stats Hnd; cbn [fold_left]; [done |].
  by apply IH, JsMap_set_NoDup.
Qed.

Lemma computeTypeStats_get g x :
  JsMap_get (computeTypeStats g) x
  = (fun n => mkStats (n_name n) (NodeKind_str (n_kind n)) (n_file n)
                (length (filter (fun e => e_from e = x) (edges g)))
                (length (filter (fun e => e_to e = x) (edges g))))
    <$> last (filter (fun n => n_name n = x) (nodes g)).
Proof.
  unfold computeTypeStats. rewrite stats_edge_loop_get.
  change (fun stats node => JsMap.set stats (n_name node)
            (mkStats (n_name node) (NodeKind_str (n_kind node)) (n_file node) 0 0))
    with (fun stats node => JsMap.set stats (n_name node) (node_stats node)).
  rewrite stats_node_loop_get. by destruct (last _).
Qed.

Lemma computeTypeStats_keys g k :
  k ∈ (computeTypeStats g).*1 <-> k ∈ n_name <$> nodes g.
Proof.
  unfold computeTypeStats. rewrite stats_edge_loop_keys.
  change (fun stats node => JsMap.set stats (n_name node)
            (mkStats (n_name node) (NodeKind_str (n_kind node)) (n_file node) 0 0))
    with (fun stats node => JsMap.set stats (n_name node) (node_stats node)).
  rewrite stats_node_loop_keys. simpl. rewrite elem_of_nil. tauto.
Qed.

Lemma computeTypeStats_NoDup g : NoDup (computeTypeStats g).*1.
Proof.
  unfold computeTypeStats. rewrite stats_edge_loop_keys.
  apply (stats_node_loop_NoDup (nodes g) []). constructor.
Qed.

(** X10. The statistics of a graph hold one entry for each node name and
    no other.  The entry of a name carries the kind and file of the last
    node of that name, as [outgoing] the number of edges from the name and
    as [incoming] the number of edges to it, self-references counted in
    both; edges from or to a name that no node has are counted nowhere. *)
Theorem type_stats_count_edges (g : DependencyGraph) (x : string) :
  JsMap_get (computeTypeStats g) x
  = (fun n => mkStats (n_name n) (NodeKind_str (n_kind n)) (n_file n)
                (length (filter (fun e => e_from e = x) (edges g)))
                (length (filter (fun e => e_to e = x) (edges g))))
    <$> last (filter (fun n => n_name n = x) (nodes g))
  ∧ (is_Some (JsMap_get (computeTypeStats g) x) <-> x ∈ n_name <$> nodes g)
  ∧ NoDup (computeTypeStats g).*1.
Proof.
  split_and!.
  - apply computeTypeStats_get.
  - rewrite <- computeTypeStats_keys, <- not_eq_None_Some, JsMap_get_None.
    split; [apply dec_stable | tauto].
  - apply computeTypeStats_NoDup.
Qed.

(** Over distinct names, the edges from one of the names are the edges
    from each name, added up. *)
Lemma count_by_name (proj : GraphEdge -> string) (ks : list string) (es : list GraphEdge) :
  NoDup ks ->
  sum_list ((fun k => length (filter (fun e => proj e = k) es)) <$> ks)
  = length (filter (fun e => proj e ∈ ks) es).
Proof.
  intros Hnd. induction es as [|e es IH].
  - rewrite (sum_list_fmap_same 0); [simpl; lia |]. by apply Forall_forall.
  - rewrite filter_cons.
    assert (sum_list ((fun k => length (filter (fun e0 => proj e0 = k) (e :: es))) <$> ks)
            = ((if decide (proj e ∈ ks) then 1 else 0)
               + sum_list ((fun k => length (filter (fun e => proj e = k) es)) <$> ks))%nat)
      as ->.
    { clear IH. induction ks as [|k ks IHk]; [done |].
      apply NoDup_cons in Hnd as [Hk Hnd].
      rewrite !fmap_cons. cbn [sum_list]. rewrite IHk by done. rewrite filter_cons.
      destruct (decide (proj e = k)) as [Heq|Hne],
        (decide (proj e ∈ ks)) as [Hin|Hin],
        (decide (proj e ∈ k :: ks)) as [Hin'|Hin']; simpl; try lia; exfalso;
        rewrite ?elem_of_cons, ?not_elem_of_cons in *; subst; tauto. }
    rewrite IH. by destruct (decide (proj e ∈ ks)).
Qed.

Lemma stats_values_outgoing g :
  outgoing <$> (computeTypeStats g).*2
  = (fun k => length (filter (fun e => e_from e = k) (edges g)))
    <$> (computeTypeStats g).*1.
Proof.
  pose proof (computeTypeStats_NoDup g) as Hnd.
  assert (forall k s, (k, s) ∈ computeTypeStats g ->
            outgoing s = length (filter (fun e => e_from e = k) (edges g))) as Hall.
  { intros k s Hin. apply JsMap_get_NoDup in Hin; [|done].
    rewrite computeTypeStats_get in Hin.
    destruct (last _); [|done]. by injection Hin as <-. }
  clear Hnd. induction (computeTypeStats g) as [|[k s] m IH]; [done |].
  rewrite !fmap_cons. f_equal.
  - apply Hall. left.
  - apply IH. intros ???. apply Hall. by right.
Qed.

Lemma stats_values_incoming g :
  incoming <$> (computeTypeStats g).*2
  = (fun k => length (filter (fun e => e_to e = k) (edges g)))
    <$> (computeTypeStats g).*1.
Proof.
  pose proof (computeTypeStats_NoDup g) as Hnd.
  assert (forall k s, (k, s) ∈ computeTypeStats g ->
            incoming s = length (filter (fun e => e_to e = k) (edges g))) as Hall.
  { intros k s Hin. apply JsMap_get_NoDup in Hin; [|done].
    rewrite computeTypeStats_get in Hin.
    destruct (last _); [|done]. by injection Hin as <-. }
  clear Hnd. induction (computeTypeStats g) as [|[k s] m IH]; [done |].
  rewrite !fmap_cons. f_equal.
  - apply Hall. left.
  - apply IH. intros ???. apply Hall. by right.
Qed.

Lemma filter_length_ext {A} (P Q : A -> Prop) `{!forall x, Decision (P x)}
    `{!forall x, Decision (Q x)} (l : list A) :
  (forall x, x ∈ l -> P x <-> Q x) -> length (filter P l) = length (filter Q l).
Proof.
  induction l as [|x l IH]; intros Hext; [done |].
  rewrite !filter_cons.
  assert (P x <-> Q x) as Hx by (apply Hext; left).
  assert (length (filter P l) = length (filter Q l)) as Hl.
  { apply IH. intros ??. apply Hext. by right. }
  destruct (decide (P x)), (decide (Q x)); simpl; try tauto; by rewrite ?Hl.
Qed.

(** X11. Over all entries of the statistics, the [outgoing] counts add up
    to the number of edges that start at a node name and the [incoming]
    counts to the number of edges that end at one.  For an assembled graph
    both sums are the number of edges: every dependency is counted once as
    outgoing and once as incoming. *)
Theorem type_stats_sums (g : DependencyGraph) :
  sum_list (outgoing <$> (computeTypeStats g).*2)
  = length (filter (fun e => e_from e ∈ n_name <$> nodes g) (edges g))
  ∧ sum_list (incoming <$> (computeTypeStats g).*2)
    = length (filter (fun e => e_to e ∈ n_name <$> nodes g) (edges g))
  ∧ forall w allNodes allEdges dir sha,
      g = filterAndDedupe w allNodes allEdges dir sha ->
      sum_list (outgoing <$> (computeTypeStats g).*2) = length (edges g)
      ∧ sum_list (incoming <$> (computeTypeStats g).*2) = length (edges g).
Proof.
  assert (sum_list (outgoing <$> (computeTypeStats g).*2)
          = length (filter (fun e => e_from e ∈ n_name <$> nodes g) (edges g))) as Hout.
  { rewrite stats_values_outgoing, count_by_name by apply computeTypeStats_NoDup.
    apply filter_length_ext. intros e _. apply computeTypeStats_keys. }
  assert (sum_list (incoming <$> (computeTypeStats g).*2)
          = length (filter (fun e => e_to e ∈ n_name <$> nodes g) (edges g))) as Hin.
  { rewrite stats_values_incoming, count_by_name by apply computeTypeStats_NoDup.
    apply filter_length_ext. intros e _. apply computeTypeStats_keys. }
  split_and!; [done | done |].
  intros w allNodes allEdges dir sha ->. rewrite Hout, Hin.
  split; f_equal; apply filter_all_id, Forall_forall; intros e He;
    apply assembled_edge_is_valid in He;
    destruct He as ((n & Hn & Hnf) & (m & Hm & Hmt) & _).
  - rewrite <- Hnf. by apply list_elem_of_fmap_2.
  - rewrite <- Hmt. by apply list_elem_of_fmap_2.
Qed.

(** ** Counting by kind *)

Section count_by_kind.
Context {A : Type} (kind : A -> string).

Local Abbreviation count_step :=
  (fun (counts : JsMap.t nat) (item : A) =>
     JsMap.set counts (kind item) (default 0 (JsMap_get counts (kind item)) + 1)).

Lemma count_loop_get items (counts : JsMap.t nat) k :
  JsMap_get (fold_left count_step items counts) k
  = match JsMap_get counts k, length (filter (fun i => kind i = k) items) with
    | None, 0 => None
    | c0, c => Some (default 0 c0 + c)
    end.
Proof.
  revert counts. induction items as [|i items IH]; intros counts; cbn [fold_left].
  - simpl. destruct (JsMap_get counts k); simpl; [apply f_equal; lia | done].
  - rewrite IH, filter_cons. destruct (decide (kind i = k)) as [->|Hne].
    + rewrite JsMap_get_set_eq. simpl.
      destruct (JsMap_get counts k); simpl; apply f_equal; lia.
    + by rewrite JsMap_get_set_ne.
Qed.

Lemma JsMap_set_sum (counts : JsMap.t nat) k v :
  (sum_list (JsMap.set counts k v).*2 + default 0 (JsMap_get counts k)
   = sum_list counts.*2 + v)%nat.
Proof.
  induction counts as [|[k' c] counts IH]; [simpl; lia |].
  cbn [JsMap.set JsMap_get].
  destruct (decide (k' = k)) as [->|Hne];
    rewrite !fmap_cons; simpl; lia.
Qed.

Lemma count_step_sum (counts : JsMap.t nat) k :
  sum_list (JsMap.set counts k (default 0 (JsMap_get counts k) + 1)).*2
  = (sum_list counts.*2 + 1)%nat.
Proof.
  pose proof (JsMap_set_sum counts k (default 0 (JsMap_get counts k) + 1)). lia.
Qed.

Lemma count_loop_sum items (counts : JsMap.t nat) :
  sum_list (fold_left count_step items counts).*2
  = (sum_list counts.*2 + length items)%nat.
Proof.
  revert counts. induction items as [|i items IH]; intros counts; cbn [fold_left].
  - simpl. lia.
  - rewrite IH, count_step_sum. simpl. lia.
Qed.

Lemma count_loop_NoDup items (counts : JsMap.t nat) :
  NoDup counts.*1 -> NoDup (fold_left count_step items counts).*1.
Proof.
  revert counts. induction items as [|i items IH]; intros counts Hnd; cbn [fold_left];
    [done |].
  by apply IH, JsMap_set_NoDup.
Qed.
End count_by_kind.

(** X12. [countByKind] on the nodes of a graph maps each node kind to the
    number of nodes of that kind, and has no entry for a kind no node has;
    each kind is a key at most once and the counts add up to the number of
    nodes.  The same holds for edges and edge kinds. *)
Theorem countByKind_counts :
  (forall (ns : list GraphNode) (k : NodeKind),
     let counts := countByKind (fun n => NodeKind_str (n_kind n)) ns in
     JsMap_get counts (NodeKind_str k)
     = match length (filter (fun n => n_kind n = k) ns) with
       | 0 => None
       | c => Some c
       end
     ∧ NoDup counts.*1
     ∧ sum_list counts.*2 = length ns)
  ∧ (forall (es : list GraphEdge) (k : EdgeKind),
       let counts := countByKind (fun e => EdgeKind_str (e_kind e)) es in
       JsMap_get counts (EdgeKind_str k)
       = match length (filter (fun e => e_kind e = k) es) with
         | 0 => None
         | c => Some c
         end
       ∧ NoDup counts.*1
       ∧ sum_list counts.*2 = length es).
Proof.
  split.
  - intros ns k counts. unfold counts, countByKind. split_and!.
    + rewrite count_loop_get. simpl.
      rewrite (filter_length_ext (fun n => NodeKind_str (n_kind n) = NodeKind_str k)
                 (fun n => n_kind n = k)).
      * by destruct (length _).
      * intros n _. split; [apply NodeKind_str_inj | congruence].
    + apply count_loop_NoDup. constructor.
    + by rewrite count_loop_sum.
  - intros es k counts. unfold counts, countByKind. split_and!.
    + rewrite count_loop_get. simpl.
      rewrite (filter_length_ext (fun e => EdgeKind_str (e_kind e) = EdgeKind_str k)
                 (fun e => e_kind e = k)).
      * by destruct (length _).
      * intros e _. split; [apply EdgeKind_str_inj | congruence].
    + apply count_loop_NoDup. constructor.
    + by rewrite count_loop_sum.
Qed.

(** ** Sorting and the top of a list *)

Section top_of_list.
Context {T : Type} (key : T -> nat).

Local Abbreviation by_key_desc :=
  (fun a b : T => (Z.of_nat (key b) - Z.of_nat (key a))%Z).
Local Abbreviation not_below := (fun a b : T => (key b <= key a)%nat).

Lemma sort_insert_key x l :
  sort_insert by_key_desc x l
  = match l with
    | [] => [x]
    | y :: rest =>
        if decide (key x < key y)%nat then y :: sort_insert by_key_desc x rest
        else x :: l
    end.
Proof.
  destruct l as [|y rest]; [done |]. simpl.
  destruct (decide (key x < key y)%nat).
  - by rewrite (proj2 (Z.ltb_lt _ _)) by lia.
  - by rewrite (proj2 (Z.ltb_ge _ _)) by lia.
Qed.

Lemma sort_insert_perm x l : sort_insert by_key_desc x l ≡ₚ x :: l.
Proof.
  induction l as [|y l IH]; [done |]. rewrite sort_insert_key.
  destruct (decide _); [|done]. rewrite IH. apply Permutation_swap.
Qed.

Lemma Array_sort_perm l : Array_sort by_key_desc l ≡ₚ l.
Proof.
  induction l as [|x l IH]; [done |]. cbn [Array_sort foldr].
  fold (Array_sort by_key_desc l). by rewrite sort_insert_perm, IH.
Qed.

Lemma sort_insert_sorted x l :
  StronglySorted not_below l -> StronglySorted not_below (sort_insert by_key_desc x l).
Proof.
  induction 1 as [|y l Hl IH Hy]; [repeat constructor |].
  rewrite sort_insert_key. destruct (decide _) as [Hlt|Hge].
  - constructor; [done |]. rewrite sort_insert_perm. constructor; [lia | done].
  - constructor; [by constructor |]. constructor; [lia |].
    eapply Forall_impl; [done |]. simpl. lia.
Qed.

Lemma Array_sort_sorted l : StronglySorted not_below (Array_sort by_key_desc l).
Proof.
  induction l as [|x l IH]; [constructor |]. cbn [Array_sort foldr].
  by apply sort_insert_sorted.
Qed.

(** Stability: the elements of one key keep their order. *)
Lemma sort_insert_stable k x l :
  filter (fun y => key y = k) (sort_insert by_key_desc x l)
  = filter (fun y => key y = k) (x :: l).
Proof.
  induction l as [|y l IH]; [done |]. rewrite sort_insert_key.
  destruct (decide _) as [Hlt|Hge]; [|done].
  rewrite filter_cons, IH, !filter_cons.
  destruct (decide (key y = k)), (decide (key x = k)); try done. lia.
Qed.

Lemma Array_sort_stable k l :
  filter (fun y => key y = k) (Array_sort by_key_desc l)
  = filter (fun y => key y = k) l.
Proof.
  induction l as [|x l IH]; [done |]. cbn [Array_sort foldr].
  fold (Array_sort by_key_desc l).
  by rewrite sort_insert_stable, !filter_cons, IH.
Qed.

End top_of_list.

(** X13. [topN] returns the [n] items with the largest keys, or all items
    when there are fewer: its result has [min n (length items)] elements, is
    in descending order of key, together with some rest is a rearrangement
    of the items where no element of the rest has a larger key than an
    element of the result, and among items of equal key the earlier ones are
    taken, in their order. *)
Theorem topN_takes_the_largest {T} (items : list T) (key : T -> nat) (n : nat) :
  let top := topN items key n in
  length top = (n `min` length items)%nat
  ∧ StronglySorted (fun a b => (key b <= key a)%nat) top
  ∧ (exists rest, items ≡ₚ top ++ rest
                  ∧ forall x y, x ∈ top -> y ∈ rest -> (key y <= key x)%nat)
  ∧ (forall k, filter (fun x => key x = k) top
               `prefix_of` filter (fun x => key x = k) items).
Proof.
  intros top. unfold top, topN.
  set (sorted := Array_sort (fun a b => Z.of_nat (key b) - Z.of_nat (key a))%Z items).
  pose proof (Array_sort_perm key items) as Hperm.
  pose proof (Array_sort_sorted key items) as Hsorted.
  fold sorted in Hperm, Hsorted.
  rewrite <- (take_drop n sorted) in Hperm, Hsorted.
  split_and!.
  - rewrite length_take. f_equal. apply Permutation_length, Array_sort_perm.
  - by apply StronglySorted_app_1_l in Hsorted.
  - exists (drop n sorted). split; [done |].
    intros x y Hx Hy.
    apply (StronglySorted_app_1_elem_of _ _ _ x y Hsorted Hx Hy).
  - intros k. rewrite <- (Array_sort_stable key k items). fold sorted.
    rewrite <- (take_drop n sorted) at 2.
    rewrite filter_app. by apply prefix_app_r.
Qed.

(** ** The plain report *)

Lemma substring_append pre sub post :
  String.substring (String.length pre) (String.length sub) (pre +:+ sub +:+ post) = sub.
Proof.
  induction pre as [|c pre IH]; simpl_append; [|done].
  simpl. induction sub as [|c sub IHs]; simpl_append; simpl.
  - by destruct post.
  - by rewrite IHs.
Qed.

Lemma includes_intro s pre sub post :
  s = pre +:+ sub +:+ post -> includes s sub = true.
Proof.
  intros ->. unfold includes. apply bool_decide_eq_true.
  destruct (String.index 0 sub (pre +:+ sub +:+ post)) eqn:Hidx; [done |].
  exfalso. destruct sub as [|c sub].
  - apply String.index_correct4 in Hidx. lia.
  - eapply (String.index_correct3 0 (String.length pre)); [done | done | lia |].
    apply substring_append.
Qed.

Lemma join_elem sep l x :
  x ∈ l -> exists pre post, join sep l = pre +:+ x +:+ post.
Proof.
  induction l as [|y l IH]; [by intros []%elem_of_nil |].
  destruct l as [|z l].
  - intros ->%list_elem_of_singleton. exists EmptyString, EmptyString.
    simpl_append. by rewrite append_nil_r.
  - rewrite join_cons. intros [->|Hin]%elem_of_cons.
    + exists EmptyString, (sep +:+ join sep (z :: l)). by simpl_append.
    + destruct (IH Hin) as (pre & post & ->).
      exists (y +:+ sep +:+ pre), post. by rewrite !append_assoc.
Qed.

Lemma report_block_elem {A} title (line : A -> string) items x :
  x ∈ items -> line x ∈ report_block title line items.
Proof.
  intros Hin. unfold report_block. destruct items as [|y items].
  - by apply elem_of_nil in Hin.
  - cbn [length Nat.ltb Nat.leb]. right. apply elem_of_app. left.
    by apply list_elem_of_fmap_2.
Qed.

(** X14. The plain report of a diff is the fixed four-line text ending in
    [No architectural changes detected.] exactly when the diff is empty, and
    for every added or removed node and every added or removed edge of the
    diff the report includes its line. *)
Theorem report_shows_every_change (d : GraphDiff) :
  (isDiffEmpty d = true <->
   formatDiffForAgent d
   = join nl [ "## Architecture Changes"; EmptyString; "### Summary";
               "No architectural changes detected." ])
  ∧ (forall n, n ∈ addedNodes d ->
       includes (formatDiffForAgent d)
         ("+ " +:+ n_name n +:+ " (" +:+ NodeKind_str (n_kind n) +:+ ") in "
          +:+ n_file n) = true)
  ∧ (forall n, n ∈ removedNodes d ->
       includes (formatDiffForAgent d)
         ("- " +:+ n_name n +:+ " (" +:+ NodeKind_str (n_kind n) +:+ ") was in "
          +:+ n_file n) = true)
  ∧ (forall e, e ∈ addedEdges d ->
       includes (formatDiffForAgent d)
         ("+ " +:+ e_from e +:+ " -> " +:+ e_to e +:+ " ("
          +:+ EdgeKind_str (e_kind e) +:+ ")") = true)
  ∧ (forall e, e ∈ removedEdges d ->
       includes (formatDiffForAgent d)
         ("- " +:+ e_from e +:+ " -> " +:+ e_to e +:+ " ("
          +:+ EdgeKind_str (e_kind e) +:+ ")") = true).
Proof.
  split_and!.
  - split.
    + intros (Han & Hrn & Hae & Hre)%isDiffEmpty_spec.
      destruct d as [an rn ae re]. simpl in *. by subst.
    + destruct d as [[|a an] [|r rn] [|e ae] [|f re]]; [done |..];
        intros H; exfalso; revert H;
        unfold formatDiffForAgent, report_lines, report_block;
        cbn [addedNodes removedNodes addedEdges removedEdges length Nat.ltb Nat.leb
             app fmap list_fmap];
        rewrite ?join_cons; unfold nl; simpl_append; discriminate.
  - intros n Hn. unfold formatDiffForAgent.
    edestruct (join_elem nl (report_lines d)) as (pre & post & Heq);
      [|by eapply includes_intro].
    unfold report_lines. rewrite !elem_of_app. right. left.
    by apply (report_block_elem _
      (fun node => "+ " +:+ n_name node +:+ " (" +:+ NodeKind_str (n_kind node)
                   +:+ ") in " +:+ n_file node)).
  - intros n Hn. unfold formatDiffForAgent.
    edestruct (join_elem nl (report_lines d)) as (pre & post & Heq);
      [|by eapply includes_intro].
    unfold report_lines. rewrite !elem_of_app. right. right. left.
    by apply (report_block_elem _
      (fun node => "- " +:+ n_name node +:+ " (" +:+ NodeKind_str (n_kind node)
                   +:+ ") was in " +:+ n_file node)).
  - intros e He. unfold formatDiffForAgent.
    edestruct (join_elem nl (report_lines d)) as (pre & post & Heq);
      [|by eapply includes_intro].
    unfold report_lines. rewrite !elem_of_app. right. right. right. left.
    by apply (report_block_elem _
      (fun edge => "+ " +:+ e_from edge +:+ " -> " +:+ e_to edge +:+ " ("
                   +:+ EdgeKind_str (e_kind edge) +:+ ")")).
  - intros e He. unfold formatDiffForAgent.
    edestruct (join_elem nl (report_lines d)) as (pre & post & Heq);
      [|by eapply includes_intro].
    unfold report_lines. rewrite !elem_of_app. right. right. right. right. left.
    by apply (report_block_elem _
      (fun edge => "- " +:+ e_from edge +:+ " -> " +:+ e_to edge +:+ " ("
                   +:+ EdgeKind_str (e_kind edge) +:+ ")")).
Qed.

(** ** What the extractors read off a tree *)

Lemma SyntaxNode_ind' (P : SyntaxNode -> Prop) :
  (forall f ty tx nm row ch, Forall P ch -> P (SNode f ty tx nm row ch)) ->
  forall node, P node.
Proof.
  intros H. fix IH 1. intros [f ty tx nm row ch]. apply H.
  induction ch as [|c ch IHch]; constructor; [apply IH | apply IHch].
Qed.

Lemma frag_fold_nodes l acc :
  f_nodes (fold_left frag_push l acc) = f_nodes acc ++ flat_map f_nodes l.
Proof.
  revert acc. induction l as [|r l IH]; intros acc; simpl.
  - by rewrite app_nil_r.
  - rewrite IH. simpl. by rewrite <- app_assoc.
Qed.

Lemma frag_fold_edges_eq l acc :
  f_edges (fold_left frag_push l acc) = f_edges acc ++ flat_map f_edges l.
Proof.
  revert acc. induction l as [|r l IH]; intros acc; simpl.
  - by rewrite app_nil_r.
  - rewrite IH. simpl. by rewrite <- app_assoc.
Qed.

Lemma frag_concat_nodes l : f_nodes (frag_concat l) = flat_map f_nodes l.
Proof. unfold frag_concat. by rewrite frag_fold_nodes. Qed.

Lemma frag_concat_edges_eq l : f_edges (frag_concat l) = flat_map f_edges l.
Proof. unfold frag_concat. by rewrite frag_fold_edges_eq. Qed.

Lemma flat_map_fmap {A B C} (f : A -> B) (g : B -> list C) (l : list A) :
  flat_map g (f <$> l) = flat_map (fun x => g (f x)) l.
Proof.
  induction l as [|x l IH]; [done |].
  rewrite fmap_cons. cbn [flat_map]. by rewrite IH.
Qed.

Lemma flat_map_flat_map {A B C} (f : A -> list B) (g : B -> list C) (l : list A) :
  flat_map g (flat_map f l) = flat_map (fun x => flat_map g (f x)) l.
Proof.
  induction l as [|x l IH]; simpl; [done |]. by rewrite flat_map_app, IH.
Qed.

Lemma flat_map_Forall_ext {A B} (f g : A -> list B) (l : list A) :
  Forall (fun x => f x = g x) l -> flat_map f l = flat_map g l.
Proof. induction 1 as [|x l Hx _ IH]; simpl; [done | by rewrite Hx, IH]. Qed.

Lemma subnodes_unfold node :
  subnodes node = node :: flat_map subnodes (s_children node).
Proof. by destruct node. Qed.

Lemma top_declarations_unfold is_decl node :
  top_declarations is_decl node
  = if is_decl node then [node]
    else flat_map (top_declarations is_decl) (s_children node).
Proof. by destruct node. Qed.

Lemma top_declarations_elem is_decl node d :
  d ∈ top_declarations is_decl node -> d ∈ subnodes node ∧ is_decl d = true.
Proof.
  revert d. induction node as [f ty tx nm row ch IH] using SyntaxNode_ind'.
  intros d. rewrite top_declarations_unfold, subnodes_unfold.
  destruct (is_decl _) eqn:Hd.
  - intros ->%list_elem_of_singleton. split; [left | done].
  - simpl. intros (c & Hc & Hin)%elem_of_flat_map.
    rewrite Forall_forall in IH. destruct (IH c Hc d Hin) as [Hsub Hdecl].
    split; [|done]. right. apply elem_of_flat_map. by exists c.
Qed.

(** A walk that stops at declarations and otherwise visits the children
    produces what its top-most declarations produce, in order. *)
Section walks.
Context (walk : SyntaxNode -> Fragment) (is_decl : SyntaxNode -> bool).
Hypothesis walk_down :
  forall node, is_decl node = false ->
               walk node = frag_concat (walk <$> s_children node).

Lemma walk_nodes node :
  f_nodes (walk node)
  = flat_map (fun d => f_nodes (walk d)) (top_declarations is_decl node).
Proof.
  induction node as [f ty tx nm row ch IH] using SyntaxNode_ind'.
  rewrite top_declarations_unfold. destruct (is_decl _) eqn:Hd.
  - simpl. by rewrite app_nil_r.
  - rewrite walk_down by done. simpl.
    rewrite frag_concat_nodes, flat_map_fmap, flat_map_flat_map.
    by apply flat_map_Forall_ext.
Qed.

Lemma walk_edges node :
  f_edges (walk node)
  = flat_map (fun d => f_edges (walk d)) (top_declarations is_decl node).
Proof.
  induction node as [f ty tx nm row ch IH] using SyntaxNode_ind'.
  rewrite top_declarations_unfold. destruct (is_decl _) eqn:Hd.
  - simpl. by rewrite app_nil_r.
  - rewrite walk_down by done. simpl.
    rewrite frag_concat_edges_eq, flat_map_fmap, flat_map_flat_map.
    by apply flat_map_Forall_ext.
Qed.
End walks.

Lemma Java_walk_down filePath node :
  Java_declaration node = false ->
  Java.walk filePath node = frag_concat (Java.walk filePath <$> s_children node).
Proof.
  unfold Java_declaration. intros [[H1 H2]%orb_false_iff H3]%orb_false_iff.
  destruct node. simpl in *. by rewrite H1, H2, H3.
Qed.

Lemma Swift_walk_down filePath node :
  Swift_declaration node = false ->
  Swift.walk filePath node = frag_concat (Swift.walk filePath <$> s_children node).
Proof.
  unfold Swift_declaration.
  intros [[[H1 H2]%orb_false_iff H3]%orb_false_iff H4]%orb_false_iff.
  destruct node. simpl in *. by rewrite H1, H2, H3, H4.
Qed.

Lemma TypeScript_walk_down filePath node :
  TypeScript_declaration node = false ->
  TypeScript.walk filePath node
  = frag_concat (TypeScript.walk filePath <$> s_children node).
Proof.
  unfold TypeScript_declaration.
  intros [[[[H1 H2]%orb_false_iff H3]%orb_false_iff H4]%orb_false_iff H5]%orb_false_iff.
  destruct node. simpl in *. by rewrite H1, H2, H3, H4, H5.
Qed.

(** Case analysis on the membership of an edge in what a declaration
    pushes. *)
Ltac edge_cases H :=
  repeat first
    [ by apply elem_of_nil in H
    | apply elem_of_app in H as [H|H]
    | apply elem_of_flat_map in H as (? & _ & H)
    | apply edges_to_elem in H as (? & -> & _)
    | apply list_elem_of_singleton in H as ->
    | match type of H with
      | _ ∈ (if ?b then _ else _) => destruct b
      | _ ∈ match ?o with Some _ => _ | None => _ end => destruct o
      end ].

Ltac edge_done := split; [done | simpl; rewrite !elem_of_cons; tauto].

Ltac list_sub := intros ?; rewrite !elem_of_cons, ?elem_of_nil; tauto.

Lemma Java_member_edges name member e :
  e ∈ Java.member_edges name member ->
  edge_from name [extends; implements; field_type; method_param; method_return] e.
Proof.
  unfold Java.member_edges, Java.field_edges. intros H.
  edge_cases H; edge_done.
Qed.

Lemma Java_extractClass_fragment node filePath kind :
  declaration_fragment filePath node [kind]
    [extends; implements; field_type; method_param; method_return]
    (Java.extractClass node filePath kind).
Proof.
  unfold Java.extractClass, declaration_fragment.
  destruct (childForFieldName node "name") as [nameNode|] eqn:Hname; [|by left].
  right. eexists. split; [done |]. split_and!.
  - split_and!; [by exists nameNode | done | done].
  - left.
  - simpl. unfold Java.field_edges. intros e H.
    repeat (apply elem_of_app in H as [H|H]).
    1-3: edge_cases H; edge_done.
    destruct (childForFieldName node "body"); [|by apply elem_of_nil in H].
    apply elem_of_flat_map in H as (member & _ & H).
    by eapply Java_member_edges.
Qed.

Lemma enum_fragment_fragment node filePath ekinds :
  declaration_fragment filePath node [enum] ekinds (enum_fragment node filePath).
Proof.
  unfold enum_fragment, declaration_fragment.
  destruct (childForFieldName node "name") as [nameNode|] eqn:Hname; [|by left].
  right. eexists. split; [done |]. split_and!.
  - split_and!; [by exists nameNode | done | done].
  - left.
  - simpl. by intros e []%elem_of_nil.
Qed.

Lemma declaration_fragment_mono filePath d nkinds nkinds' ekinds ekinds' r :
  nkinds ⊆ nkinds' -> ekinds ⊆ ekinds' ->
  declaration_fragment filePath d nkinds ekinds r ->
  declaration_fragment filePath d nkinds' ekinds' r.
Proof.
  intros Hn He [->|(n & Hr & Hd & Hk & Hedges)]; [by left |].
  right. exists n. split_and!; [done | done | by apply Hn |].
  intros e [Hfrom Hkind]%Hedges. split; [done | by apply He].
Qed.

Lemma Java_declaration_fragment filePath d :
  Java_declaration d = true ->
  declaration_fragment filePath d [class; interface; enum]
    [extends; implements; field_type; method_param; method_return]
    (Java.walk filePath d).
Proof.
  unfold Java_declaration. intros Hd. destruct d as [f ty tx nm row ch].
  cbn [Java.walk s_type] in *.
  destruct (bool_decide (ty = "class_declaration")).
  { eapply declaration_fragment_mono; [| |apply Java_extractClass_fragment];
      list_sub. }
  destruct (bool_decide (ty = "interface_declaration")).
  { eapply declaration_fragment_mono; [| |apply Java_extractClass_fragment];
      list_sub. }
  destruct (bool_decide (ty = "enum_declaration")); [|done].
  eapply declaration_fragment_mono; [| |apply enum_fragment_fragment];
    list_sub.
Qed.

Lemma Swift_member_edges name member e :
  e ∈ Swift.member_edges name member ->
  edge_from name [extends; implements; field_type; method_param; method_return] e.
Proof.
  unfold Swift.member_edges, Swift.field_edges. intros H.
  edge_cases H; edge_done.
Qed.

Lemma Swift_inheritance_edges node name kind e :
  e ∈ Swift.inheritance_edges node name kind -> e_from e = name ∧ e_kind e = kind.
Proof. unfold Swift.inheritance_edges. intros H. by edge_cases H. Qed.

Lemma Swift_extractDeclaration_fragment node filePath kind :
  declaration_fragment filePath node [kind]
    [extends; implements; field_type; method_param; method_return]
    (Swift.extractDeclaration node filePath kind).
Proof.
  unfold Swift.extractDeclaration, declaration_fragment.
  destruct (childForFieldName node "name") as [nameNode|] eqn:Hname; [|by left].
  right. eexists. split; [done |]. split_and!.
  - split_and!; [by exists nameNode | done | done].
  - left.
  - simpl. intros e [H|H]%elem_of_app.
    + apply Swift_inheritance_edges in H as [Hfrom Hkind]. split; [done |].
      rewrite Hkind. destruct (bool_decide _); rewrite !elem_of_cons; tauto.
    + destruct (childForFieldName node "body"); [|by apply elem_of_nil in H].
      apply elem_of_flat_map in H as (member & _ & H).
      by eapply Swift_member_edges.
Qed.

(** A Swift declaration contributes as a declaration does, or it is an
    extension, which contributes no node and [implements] edges only. *)
Lemma Swift_declaration_fragment filePath d :
  Swift_declaration d = true ->
  declaration_fragment filePath d [class; protocol; enum]
    [extends; implements; field_type; method_param; method_return]
    (Swift.walk filePath d)
  ∨ (s_type d = "extension_declaration"
     ∧ f_nodes (Swift.walk filePath d) = []
     ∧ forall e, e ∈ f_edges (Swift.walk filePath d) -> e_kind e = implements).
Proof.
  unfold Swift_declaration. intros Hd. destruct d as [f ty tx nm row ch].
  cbn [Swift.walk s_type] in *.
  destruct (bool_decide (ty = "class_declaration")).
  { left. destruct (Swift.has_enum_keyword _).
    - eapply declaration_fragment_mono; [| |apply enum_fragment_fragment]; list_sub.
    - eapply declaration_fragment_mono; [| |apply Swift_extractDeclaration_fragment];
        list_sub. }
  destruct (bool_decide (ty = "protocol_declaration")).
  { left. eapply declaration_fragment_mono; [| |apply Swift_extractDeclaration_fragment];
      list_sub. }
  destruct (bool_decide (ty = "enum_declaration")).
  { left. eapply declaration_fragment_mono; [| |apply enum_fragment_fragment];
      list_sub. }
  case_bool_decide as Hext; [|done]. right. split; [done |].
  destruct (childForFieldName _ "name"); simpl.
  - split; [done |]. by intros e [_ ?]%Swift_inheritance_edges.
  - split; [done |]. by intros e []%elem_of_nil.
Qed.

Lemma TypeScript_member_edges name member e :
  e ∈ TypeScript.member_edges name member ->
  edge_from name [extends; implements; field_type; method_param; method_return] e.
Proof.
  unfold TypeScript.member_edges, TypeScript.field_edges. intros H.
  edge_cases H; edge_done.
Qed.

Lemma TypeScript_heritage_edges name child e :
  e ∈ TypeScript.heritage_edges name child ->
  edge_from name [extends; implements; field_type; method_param; method_return] e.
Proof.
  unfold TypeScript.heritage_edges. intros H. edge_cases H; edge_done.
Qed.

Lemma TypeScript_extract_fragment node filePath kind :
  declaration_fragment filePath node [kind]
    [extends; implements; field_type; method_param; method_return]
    (TypeScript.extractFromClassOrInterface node filePath kind).
Proof.
  unfold TypeScript.extractFromClassOrInterface, declaration_fragment.
  destruct (childForFieldName node "name") as [nameNode|] eqn:Hname; [|by left].
  right. eexists. split; [done |]. split_and!.
  - split_and!; [by exists nameNode | done | done].
  - left.
  - simpl. intros e [H|H]%elem_of_app.
    + apply elem_of_flat_map in H as (child & _ & H).
      by eapply TypeScript_heritage_edges.
    + destruct (childForFieldName node "body"); [|by apply elem_of_nil in H].
      apply elem_of_flat_map in H as (member & _ & H).
      by eapply TypeScript_member_edges.
Qed.

Lemma TypeScript_declaration_fragment filePath d :
  TypeScript_declaration d = true ->
  declaration_fragment filePath d [class; interface; type_alias; enum]
    [extends; implements; field_type; method_param; method_return]
    (TypeScript.walk filePath d).
Proof.
  unfold TypeScript_declaration. intros Hd. destruct d as [f ty tx nm row ch].
  cbn [TypeScript.walk s_type] in *.
  destruct (bool_decide (ty = "class_declaration")
            || bool_decide (ty = "abstract_class_declaration")) eqn:Hclass.
  { eapply declaration_fragment_mono; [| |apply TypeScript_extract_fragment];
      list_sub. }
  simpl in Hd.
  destruct (bool_decide (ty = "interface_declaration")).
  { eapply declaration_fragment_mono; [| |apply TypeScript_extract_fragment];
      list_sub. }
  destruct (bool_decide (ty = "type_alias_declaration")).
  { set (node := SNode f ty tx nm row ch).
    destruct (childForFieldName node "name") as [nameNode|] eqn:Hname; [|by left].
    right. eexists. split; [done |]. split_and!.
    - split_and!; [by exists nameNode | done | done].
    - simpl. rewrite !elem_of_cons. tauto.
    - simpl. unfold TypeScript.field_edges. intros e H. edge_cases H. edge_done. }
  destruct (bool_decide (ty = "enum_declaration")); [|done].
  eapply declaration_fragment_mono; [| |apply enum_fragment_fragment]; list_sub.
Qed.

Lemma Go_struct_field_edges nameText field e :
  e ∈ Go.struct_field_edges nameText field ->
  edge_from nameText [extends; field_type] e.
Proof.
  unfold Go.struct_field_edges. intros H. edge_cases H; edge_done.
Qed.

Lemma Go_extractMethodEdges method ownerName e :
  e ∈ Go.extractMethodEdges method ownerName ->
  edge_from ownerName [method_param; method_return] e.
Proof.
  unfold Go.extractMethodEdges. intros H. edge_cases H; edge_done.
Qed.

Lemma Go_type_spec_fragment filePath spec :
  declaration_fragment filePath spec [class; interface]
    [extends; field_type; method_param; method_return]
    (Go.type_spec_fragment filePath spec).
Proof.
  unfold Go.type_spec_fragment, declaration_fragment.
  destruct (negb _); [by left |].
  destruct (childForFieldName spec "name") as [nameNode|] eqn:Hname; [|by left].
  destruct (childForFieldName spec "type") as [typeNode|]; [|by left].
  destruct (bool_decide (s_type typeNode = "struct_type")).
  { right. unfold Go.extractStruct.
    destruct (match childForFieldName typeNode "fields" with
              | Some fl => Some fl
              | None => Go.findChild typeNode "field_declaration_list"
              end) as [fieldList|]; eexists; (split; [done |]); split_and!;
      try (split_and!; [by exists nameNode | done | done]);
      try (rewrite !elem_of_cons; tauto); simpl.
    - intros e (field & _ & H)%elem_of_flat_map.
      apply Go_struct_field_edges in H as [Hfrom Hkind]. split; [done |].
      revert Hkind. rewrite !elem_of_cons. tauto.
    - by intros e []%elem_of_nil. }
  destruct (bool_decide (s_type typeNode = "interface_type")); [|by left].
  right. unfold Go.extractInterface. eexists. split; [done |]. split_and!.
  - split_and!; [by exists nameNode | done | done].
  - rewrite !elem_of_cons. tauto.
  - simpl. intros e (child & _ & [H|H]%elem_of_app)%elem_of_flat_map.
    + edge_cases H. edge_done.
    + destruct (bool_decide _); [|by apply elem_of_nil in H].
      apply Go_extractMethodEdges in H as [Hfrom Hkind]. split; [done |].
      revert Hkind. rewrite !elem_of_cons. tauto.
Qed.

(** What the Go extractor produces: the fragments of the [type_spec]
    children of the [type_declaration] children of the root, and the method
    edges of the [method_declaration] children. *)
Lemma Go_parseSource_nodes root filePath n :
  n ∈ f_nodes (Go.parseSource root filePath) ->
  exists decl spec,
    decl ∈ s_children root ∧ s_type decl = "type_declaration"
    ∧ spec ∈ s_children decl
    ∧ n ∈ f_nodes (Go.type_spec_fragment filePath spec).
Proof.
  unfold Go.parseSource. rewrite frag_concat_nodes, flat_map_fmap.
  intros (decl & Hdecl & Hin)%elem_of_flat_map.
  unfold Go.top_level_fragment in Hin. simpl in Hin.
  apply elem_of_app in Hin as [Hin|Hin].
  - case_bool_decide as Hty; [|by apply elem_of_nil in Hin].
    rewrite frag_concat_nodes, flat_map_fmap in Hin.
    apply elem_of_flat_map in Hin as (spec & Hspec & Hin).
    by exists decl, spec.
  - destruct (bool_decide _); [|by apply elem_of_nil in Hin].
    destruct (Go.getReceiverType decl) as [receiverType|];
      [|by apply elem_of_nil in Hin].
    destruct (truthy receiverType); by apply elem_of_nil in Hin.
Qed.

Lemma Go_parseSource_edges root filePath e :
  e ∈ f_edges (Go.parseSource root filePath) ->
  (exists decl spec,
     decl ∈ s_children root ∧ s_type decl = "type_declaration"
     ∧ spec ∈ s_children decl
     ∧ e ∈ f_edges (Go.type_spec_fragment filePath spec))
  ∨ e_kind e ∈ [method_param; method_return].
Proof.
  unfold Go.parseSource. rewrite frag_concat_edges_eq, flat_map_fmap.
  intros (decl & Hdecl & Hin)%elem_of_flat_map.
  unfold Go.top_level_fragment in Hin. simpl in Hin.
  apply elem_of_app in Hin as [Hin|Hin].
  - case_bool_decide as Hty; [|by apply elem_of_nil in Hin].
    rewrite frag_concat_edges_eq, flat_map_fmap in Hin.
    apply elem_of_flat_map in Hin as (spec & Hspec & Hin).
    left. by exists decl, spec.
  - destruct (bool_decide _); [|by apply elem_of_nil in Hin].
    destruct (Go.getReceiverType decl) as [receiverType|];
      [|by apply elem_of_nil in Hin].
    destruct (truthy receiverType); [|by apply elem_of_nil in Hin].
    right. by apply Go_extractMethodEdges in Hin as [_ ?].
Qed.

Lemma Go_type_spec_in_parseSource root filePath decl spec n :
  decl ∈ s_children root -> s_type decl = "type_declaration" ->
  spec ∈ s_children decl ->
  n ∈ f_nodes (Go.type_spec_fragment filePath spec) ->
  n ∈ f_nodes (Go.parseSource root filePath).
Proof.
  intros Hdecl Hty Hspec Hn.
  unfold Go.parseSource. rewrite frag_concat_nodes, flat_map_fmap.
  apply elem_of_flat_map. exists decl. split; [done |].
  unfold Go.top_level_fragment. simpl. apply elem_of_app. left.
  rewrite bool_decide_eq_true_2 by done.
  rewrite frag_concat_nodes, flat_map_fmap.
  apply elem_of_flat_map. by exists spec.
Qed.

Lemma declaration_fragment_node filePath d nkinds ekinds r n :
  declaration_fragment filePath d nkinds ekinds r -> n ∈ f_nodes r ->
  f_nodes r = [n] ∧ declared_at filePath d n ∧ n_kind n ∈ nkinds
  ∧ forall e, e ∈ f_edges r -> edge_from (n_name n) ekinds e.
Proof.
  intros [->|(m & Hr & Hrest)] Hn; [by apply elem_of_nil in Hn |].
  rewrite Hr in Hn. apply list_elem_of_singleton in Hn as ->. by rewrite Hr.
Qed.

Lemma declaration_fragment_edge filePath d nkinds ekinds r e :
  declaration_fragment filePath d nkinds ekinds r -> e ∈ f_edges r ->
  exists n, n ∈ f_nodes r ∧ edge_from (n_name n) ekinds e.
Proof.
  intros [->|(n & Hr & _ & _ & Hedges)] He; [by apply elem_of_nil in He |].
  exists n. rewrite Hr. split; [left | by apply Hedges].
Qed.

Lemma declaration_fragment_length filePath d nkinds ekinds r :
  declaration_fragment filePath d nkinds ekinds r -> (length (f_nodes r) <= 1)%nat.
Proof. intros [->|(n & -> & _)]; simpl; lia. Qed.

Lemma subnodes_child root c d :
  c ∈ s_children root -> d ∈ subnodes c -> d ∈ subnodes root.
Proof.
  intros Hc Hd. rewrite subnodes_unfold. right. apply elem_of_flat_map. by exists c.
Qed.

Lemma subnodes_self node : node ∈ subnodes node.
Proof. rewrite subnodes_unfold. left. Qed.

(** X15. The Java, Swift and TypeScript extractors stop at a declaration:
    what they produce for a tree is what they produce for its top-most
    declarations, in order, and a declaration contributes at most one node,
    whatever it contains.  Types declared inside a class, an interface or
    another declaration are therefore not extracted. *)
Theorem nested_declarations_are_not_extracted :
  (forall root filePath,
     f_nodes (Java.parseSource root filePath)
     = flat_map (fun d => f_nodes (Java.parseSource d filePath))
         (top_declarations Java_declaration root)
     ∧ f_edges (Java.parseSource root filePath)
       = flat_map (fun d => f_edges (Java.parseSource d filePath))
           (top_declarations Java_declaration root)
     ∧ forall d, Java_declaration d = true ->
                 (length (f_nodes (Java.parseSource d filePath)) <= 1)%nat)
  ∧ (forall root filePath,
       f_nodes (Swift.parseSource root filePath)
       = flat_map (fun d => f_nodes (Swift.parseSource d filePath))
           (top_declarations Swift_declaration root)
       ∧ f_edges (Swift.parseSource root filePath)
         = flat_map (fun d => f_edges (Swift.parseSource d filePath))
             (top_declarations Swift_declaration root)
       ∧ forall d, Swift_declaration d = true ->
                   (length (f_nodes (Swift.parseSource d filePath)) <= 1)%nat)
  ∧ (forall root filePath,
       f_nodes (TypeScript.parseSource root filePath)
       = flat_map (fun d => f_nodes (TypeScript.parseSource d filePath))
           (top_declarations TypeScript_declaration root)
       ∧ f_edges (TypeScript.parseSource root filePath)
         = flat_map (fun d => f_edges (TypeScript.parseSource d filePath))
             (top_declarations TypeScript_declaration root)
       ∧ forall d, TypeScript_declaration d = true ->
                   (length (f_nodes (TypeScript.parseSource d filePath)) <= 1)%nat).
Proof.
  split_and!; intros root filePath; split_and!.
  - apply walk_nodes, Java_walk_down.
  - apply walk_edges, Java_walk_down.
  - intros d Hd. eapply declaration_fragment_length.
    by apply Java_declaration_fragment.
  - apply walk_nodes, Swift_walk_down.
  - apply walk_edges, Swift_walk_down.
  - intros d Hd. destruct (Swift_declaration_fragment filePath d Hd) as [H|(_ & H & _)].
    + by eapply declaration_fragment_length.
    + unfold Swift.parseSource. rewrite H. simpl. lia.
  - apply walk_nodes, TypeScript_walk_down.
  - apply walk_edges, TypeScript_walk_down.
  - intros d Hd. eapply declaration_fragment_length.
    by apply TypeScript_declaration_fragment.
Qed.

Lemma Java_parseSource_node root filePath n :
  n ∈ f_nodes (Java.parseSource root filePath) ->
  exists d, d ∈ subnodes root ∧ declared_at filePath d n
            ∧ n_kind n ∈ [class; interface; enum].
Proof.
  unfold Java.parseSource.
  rewrite (walk_nodes _ _ (Java_walk_down filePath)).
  intros (d & [Hd Hdecl]%top_declarations_elem & Hn)%elem_of_flat_map.
  exists d. split; [done |].
  pose proof (Java_declaration_fragment filePath d Hdecl) as Hfrag.
  by destruct (declaration_fragment_node _ _ _ _ _ _ Hfrag Hn) as (_ & ? & ? & _).
Qed.

Lemma Swift_parseSource_node root filePath n :
  n ∈ f_nodes (Swift.parseSource root filePath) ->
  exists d, d ∈ subnodes root ∧ declared_at filePath d n
            ∧ n_kind n ∈ [class; protocol; enum].
Proof.
  unfold Swift.parseSource.
  rewrite (walk_nodes _ _ (Swift_walk_down filePath)).
  intros (d & [Hd Hdecl]%top_declarations_elem & Hn)%elem_of_flat_map.
  exists d. split; [done |].
  destruct (Swift_declaration_fragment filePath d Hdecl) as [Hfrag|(_ & Hnil & _)].
  - by destruct (declaration_fragment_node _ _ _ _ _ _ Hfrag Hn) as (_ & ? & ? & _).
  - rewrite Hnil in Hn. by apply elem_of_nil in Hn.
Qed.

Lemma TypeScript_parseSource_node root filePath n :
  n ∈ f_nodes (TypeScript.parseSource root filePath) ->
  exists d, d ∈ subnodes root ∧ declared_at filePath d n
            ∧ n_kind n ∈ [class; interface; type_alias; enum].
Proof.
  unfold TypeScript.parseSource.
  rewrite (walk_nodes _ _ (TypeScript_walk_down filePath)).
  intros (d & [Hd Hdecl]%top_declarations_elem & Hn)%elem_of_flat_map.
  exists d. split; [done |].
  pose proof (TypeScript_declaration_fragment filePath d Hdecl) as Hfrag.
  by destruct (declaration_fragment_node _ _ _ _ _ _ Hfrag Hn) as (_ & ? & ? & _).
Qed.

Lemma Go_parseSource_node root filePath n :
  n ∈ f_nodes (Go.parseSource root filePath) ->
  exists d, d ∈ subnodes root ∧ declared_at filePath d n
            ∧ n_kind n ∈ [class; interface].
Proof.
  intros (decl & spec & Hdecl & _ & Hspec & Hn)%Go_parseSource_nodes.
  exists spec. split.
  - eapply subnodes_child; [done |]. eapply subnodes_child; [done |].
    apply subnodes_self.
  - pose proof (Go_type_spec_fragment filePath spec) as Hfrag.
    by destruct (declaration_fragment_node _ _ _ _ _ _ Hfrag Hn) as (_ & ? & ? & _).
Qed.

Lemma declared_at_safe filePath d n :
  (0 <= s_row d < 2 ^ 32)%Z -> declared_at filePath d n ->
  n_file n = filePath ∧ isSafeInteger (n_line n) = true.
Proof.
  intros Hrow (_ & Hfile & Hline). split; [done |].
  rewrite Hline. simpl. apply Z.leb_le. lia.
Qed.

(** X16. Every node record an extractor emits is read off a node of the
    tree it was given: its name is the text of that node's [name] field,
    its file is the path the extractor was called with, and its line is that
    node's row plus one.  When the rows of the tree are below [2^32], as
    tree-sitter's are, every line is a safe integer. *)
Theorem node_records_are_read_off_the_tree (root : SyntaxNode) (filePath : string)
    (n : GraphNode) :
  n ∈ f_nodes (Go.parseSource root filePath)
  ∨ n ∈ f_nodes (Java.parseSource root filePath)
  ∨ n ∈ f_nodes (Swift.parseSource root filePath)
  ∨ n ∈ f_nodes (TypeScript.parseSource root filePath) ->
  (exists d, d ∈ subnodes root ∧ declared_at filePath d n)
  ∧ ((forall d, d ∈ subnodes root -> (0 <= s_row d < 2 ^ 32)%Z) ->
     isSafeInteger (n_line n) = true).
Proof.
  intros Hn.
  assert (exists d, d ∈ subnodes root ∧ declared_at filePath d n) as (d & Hd & Hat).
  { destruct Hn as [Hn|[Hn|[Hn|Hn]]].
    - apply Go_parseSource_node in Hn as (d & ? & ? & _). by exists d.
    - apply Java_parseSource_node in Hn as (d & ? & ? & _). by exists d.
    - apply Swift_parseSource_node in Hn as (d & ? & ? & _). by exists d.
    - apply TypeScript_parseSource_node in Hn as (d & ? & ? & _). by exists d. }
  split; [by exists d |].
  intros Hrows. by destruct (declared_at_safe filePath d n (Hrows d Hd) Hat).
Qed.

Lemma Java_parseSource_edge root filePath e :
  e ∈ f_edges (Java.parseSource root filePath) ->
  exists n, n ∈ f_nodes (Java.parseSource root filePath)
            ∧ edge_from (n_name n)
                [extends; implements; field_type; method_param; method_return] e.
Proof.
  unfold Java.parseSource.
  rewrite (walk_edges _ _ (Java_walk_down filePath)),
    (walk_nodes _ _ (Java_walk_down filePath)).
  intros (d & Hd & He)%elem_of_flat_map.
  pose proof Hd as [_ Hdecl]%top_declarations_elem.
  pose proof (Java_declaration_fragment filePath d Hdecl) as Hfrag.
  destruct (declaration_fragment_edge _ _ _ _ _ _ Hfrag He) as (n & Hn & Hfrom).
  exists n. split; [|done]. apply elem_of_flat_map. by exists d.
Qed.

Lemma TypeScript_parseSource_edge root filePath e :
  e ∈ f_edges (TypeScript.parseSource root filePath) ->
  exists n, n ∈ f_nodes (TypeScript.parseSource root filePath)
            ∧ edge_from (n_name n)
                [extends; implements; field_type; method_param; method_return] e.
Proof.
  unfold TypeScript.parseSource.
  rewrite (walk_edges _ _ (TypeScript_walk_down filePath)),
    (walk_nodes _ _ (TypeScript_walk_down filePath)).
  intros (d & Hd & He)%elem_of_flat_map.
  pose proof Hd as [_ Hdecl]%top_declarations_elem.
  pose proof (TypeScript_declaration_fragment filePath d Hdecl) as Hfrag.
  destruct (declaration_fragment_edge _ _ _ _ _ _ Hfrag He) as (n & Hn & Hfrom).
  exists n. split; [|done]. apply elem_of_flat_map. by exists d.
Qed.

Lemma Swift_parseSource_edge root filePath e :
  e ∈ f_edges (Swift.parseSource root filePath) ->
  (exists n, n ∈ f_nodes (Swift.parseSource root filePath)
             ∧ edge_from (n_name n)
                 [extends; implements; field_type; method_param; method_return] e)
  ∨ (e_kind e = implements
     ∧ exists d, d ∈ subnodes root ∧ s_type d = "extension_declaration").
Proof.
  unfold Swift.parseSource.
  rewrite (walk_edges _ _ (Swift_walk_down filePath)),
    (walk_nodes _ _ (Swift_walk_down filePath)).
  intros (d & Hd & He)%elem_of_flat_map.
  pose proof Hd as [Hsub Hdecl]%top_declarations_elem.
  destruct (Swift_declaration_fragment filePath d Hdecl) as [Hfrag|(Hext & _ & Himpl)].
  - destruct (declaration_fragment_edge _ _ _ _ _ _ Hfrag He) as (n & Hn & Hfrom).
    left. exists n. split; [|done]. apply elem_of_flat_map. by exists d.
  - right. split; [by apply Himpl | by exists d].
Qed.

Lemma Go_parseSource_edge root filePath e :
  e ∈ f_edges (Go.parseSource root filePath) ->
  (exists n, n ∈ f_nodes (Go.parseSource root filePath)
             ∧ edge_from (n_name n)
                 [extends; field_type; method_param; method_return] e)
  ∨ e_kind e ∈ [method_param; method_return].
Proof.
  intros [(decl & spec & Hdecl & Hty & Hspec & He)|Hm]%Go_parseSource_edges;
    [|by right].
  left. pose proof (Go_type_spec_fragment filePath spec) as Hfrag.
  destruct (declaration_fragment_edge _ _ _ _ _ _ Hfrag He) as (n & Hn & Hfrom).
  exists n. split; [|done]. by eapply Go_type_spec_in_parseSource.
Qed.

(** X17. The kinds an extractor emits.  The Go extractor emits nodes of
    kind class and interface only and no [implements] edge; the Java
    extractor emits no protocol and no type alias; the Swift extractor no
    interface and no type alias; the TypeScript extractor no protocol.  No
    extractor ever emits an edge of kind [import]. *)
Theorem kinds_the_extractors_emit (root : SyntaxNode) (filePath : string) :
  (forall n, n ∈ f_nodes (Go.parseSource root filePath) ->
     n_kind n ∈ [class; interface])
  ∧ (forall n, n ∈ f_nodes (Java.parseSource root filePath) ->
       n_kind n ∈ [class; interface; enum])
  ∧ (forall n, n ∈ f_nodes (Swift.parseSource root filePath) ->
       n_kind n ∈ [class; protocol; enum])
  ∧ (forall n, n ∈ f_nodes (TypeScript.parseSource root filePath) ->
       n_kind n ∈ [class; interface; type_alias; enum])
  ∧ (forall e, e ∈ f_edges (Go.parseSource root filePath) ->
       e_kind e ∈ [extends; field_type; method_param; method_return])
  ∧ (forall e, e ∈ f_edges (Java.parseSource root filePath)
               ∨ e ∈ f_edges (Swift.parseSource root filePath)
               ∨ e ∈ f_edges (TypeScript.parseSource root filePath) ->
       e_kind e ∈ [extends; implements; field_type; method_param; method_return])
  ∧ (forall e, e ∈ f_edges (Go.parseSource root filePath)
               ∨ e ∈ f_edges (Java.parseSource root filePath)
               ∨ e ∈ f_edges (Swift.parseSource root filePath)
               ∨ e ∈ f_edges (TypeScript.parseSource root filePath) ->
       e_kind e ≠ import).
Proof.
  assert (forall e, e ∈ f_edges (Go.parseSource root filePath) ->
            e_kind e ∈ [extends; field_type; method_param; method_return]) as Hgo.
  { intros e [(n & _ & _ & Hk)|Hk]%Go_parseSource_edge; [done |].
    revert Hk. rewrite !elem_of_cons. tauto. }
  assert (forall e, e ∈ f_edges (Java.parseSource root filePath)
               ∨ e ∈ f_edges (Swift.parseSource root filePath)
               ∨ e ∈ f_edges (TypeScript.parseSource root filePath) ->
            e_kind e ∈ [extends; implements; field_type; method_param; method_return])
    as Hrest.
  { intros e [He|[He|He]].
    - by apply Java_parseSource_edge in He as (n & _ & _ & Hk).
    - apply Swift_parseSource_edge in He as [(n & _ & _ & Hk)|[Hk _]]; [done |].
      rewrite Hk, !elem_of_cons. tauto.
    - by apply TypeScript_parseSource_edge in He as (n & _ & _ & Hk). }
  split_and!; [| | | |done|done|].
  - by intros n (d & _ & _ & Hk)%Go_parseSource_node.
  - by intros n (d & _ & _ & Hk)%Java_parseSource_node.
  - by intros n (d & _ & _ & Hk)%Swift_parseSource_node.
  - by intros n (d & _ & _ & Hk)%TypeScript_parseSource_node.
  - intros e [He|He] Himport.
    + apply Hgo in He. rewrite Himport, !elem_of_cons, elem_of_nil in He.
      by repeat destruct He as [He|He].
    + apply Hrest in He. rewrite Himport, !elem_of_cons, elem_of_nil in He.
      by repeat destruct He as [He|He].
Qed.

(** X18. Where edges start.  Every edge the Java extractor or the
    TypeScript extractor emits starts at the name of a node of the same
    result.  So does every edge of the Swift extractor, except the
    [implements] edges of an extension, and every edge of the Go extractor,
    except the parameter and return edges of methods, which start at the
    receiver type. *)
Theorem edges_start_at_declared_types (root : SyntaxNode) (filePath : string)
    (e : GraphEdge) :
  (e ∈ f_edges (Java.parseSource root filePath) ->
   exists n, n ∈ f_nodes (Java.parseSource root filePath) ∧ n_name n = e_from e)
  ∧ (e ∈ f_edges (TypeScript.parseSource root filePath) ->
     exists n, n ∈ f_nodes (TypeScript.parseSource root filePath)
               ∧ n_name n = e_from e)
  ∧ (e ∈ f_edges (Swift.parseSource root filePath) ->
     (exists n, n ∈ f_nodes (Swift.parseSource root filePath)
                ∧ n_name n = e_from e)
     ∨ (e_kind e = implements
        ∧ exists d, d ∈ subnodes root ∧ s_type d = "extension_declaration"))
  ∧ (e ∈ f_edges (Go.parseSource root filePath) ->
     (exists n, n ∈ f_nodes (Go.parseSource root filePath) ∧ n_name n = e_from e)
     ∨ e_kind e ∈ [method_param; method_return]).
Proof.
  split_and!.
  - intros (n & Hn & Hfrom & _)%Java_parseSource_edge. by exists n.
  - intros (n & Hn & Hfrom & _)%TypeScript_parseSource_edge. by exists n.
  - intros [(n & Hn & Hfrom & _)|Hext]%Swift_parseSource_edge; [left | by right].
    by exists n.
  - intros [(n & Hn & Hfrom & _)|Hm]%Go_parseSource_edge; [left | by right].
    by exists n.
Qed.

(** ** Which files are scanned *)

Lemma substring_tail k m s c r :
  String.substring k (S m) s = String c r -> String.substring (S k) m s = r.
Proof.
  revert s. induction k as [|k IH]; intros [|a s]; simpl; try done.
  - intros [= _ <-]. done.
  - apply IH.
Qed.

(** A string that ends with a suffix ends with the tail of the suffix. *)
Lemma endsWith_tail s c suffix :
  endsWith s (String c suffix) = true -> endsWith s suffix = true.
Proof.
  unfold endsWith. simpl String.length.
  intros [Hlen Heq%String.eqb_eq]%andb_true_iff. apply Nat.leb_le in Hlen.
  apply andb_true_iff. split; [apply Nat.leb_le; lia |]. apply String.eqb_eq.
  replace (String.length s - String.length suffix)%nat
    with (S (String.length s - S (String.length suffix))) by lia.
  by eapply substring_tail.
Qed.

Lemma endsWith_last_char s a b :
  endsWith s (String a EmptyString) = true ->
  endsWith s (String b EmptyString) = true -> a = b.
Proof.
  unfold endsWith. simpl String.length.
  intros [_ Ha%String.eqb_eq]%andb_true_iff [_ Hb%String.eqb_eq]%andb_true_iff.
  congruence.
Qed.

(** No path ends with two of the five extensions [.ts], [.tsx], [.java],
    [.swift] and [.go]: their last characters differ. *)
Ltac suffix_clash H1 H2 :=
  exfalso;
  repeat
    match type of H1 with
    | endsWith _ (String _ (String _ _)) = true => apply endsWith_tail in H1
    end;
  repeat
    match type of H2 with
    | endsWith _ (String _ (String _ _)) = true => apply endsWith_tail in H2
    end;
  by pose proof (endsWith_last_char _ _ _ H1 H2).

(** X19. The parser of a file is chosen by its extension alone: a path has
    a parser exactly when it ends with one of the scanned extensions; it is
    the TypeScript parser for [.ts] and [.tsx], the Java parser for [.java]
    and the Swift parser for [.swift].  A path that ends with [.go] has no
    parser: the scan does not reach the Go extractor. *)
Theorem parser_is_chosen_by_extension (env : ScanEnv) (filePath : string) :
  (is_Some (getParserForFile env filePath)
   <-> existsb (fun ext => endsWith filePath ext) getAllExtensions = true)
  ∧ (endsWith filePath ".ts" = true ∨ endsWith filePath ".tsx" = true ->
     getParserForFile env filePath = Some (parseTypeScript env))
  ∧ (endsWith filePath ".java" = true ->
     getParserForFile env filePath = Some (parseJava env))
  ∧ (endsWith filePath ".swift" = true ->
     getParserForFile env filePath = Some (parseSwift env))
  ∧ (endsWith filePath ".go" = true -> getParserForFile env filePath = None).
Proof.
  unfold getParserForFile, getAllExtensions, LANGUAGES,
    TypeScript.TYPESCRIPT_EXTENSIONS, Java.JAVA_EXTENSIONS, Swift.SWIFT_EXTENSIONS.
  cbn [find flat_map extensions existsb app].
  destruct (endsWith filePath ".ts") eqn:Hts,
    (endsWith filePath ".tsx") eqn:Htsx,
    (endsWith filePath ".java") eqn:Hjava,
    (endsWith filePath ".swift") eqn:Hswift,
    (endsWith filePath ".go") eqn:Hgo;
    cbn [orb decide bool_decide fmap option_fmap option_map parse];
    try suffix_clash Hts Htsx; try suffix_clash Hts Hjava;
    try suffix_clash Hts Hswift; try suffix_clash Hts Hgo;
    try suffix_clash Htsx Hjava; try suffix_clash Htsx Hswift;
    try suffix_clash Htsx Hgo; try suffix_clash Hjava Hswift;
    try suffix_clash Hjava Hgo; try suffix_clash Hswift Hgo.
  all: split_and!; try done; try (split; [done | by eexists]);
    try (by intros [?|?]); try (split; [by intros [? ?] | done]).
Qed.

Lemma existsb_elem {A} (f : A -> bool) (l : list A) :
  existsb f l = true <-> exists x, x ∈ l ∧ f x = true.
Proof.
  rewrite existsb_exists. split; intros (x & Hx & Hf); exists x;
    by rewrite ?list_elem_of_In in *.
Qed.

Lemma existsb_ext {A} (f g : A -> bool) (l : list A) :
  (forall x, f x = g x) -> existsb f l = existsb g l.
Proof. intros H. induction l as [|x l IH]; simpl; [done | by rewrite H, IH]. Qed.

(** Is a language selected by the strings of the language filter? *)
Lemma scan_patterns_selected (langs : list string) :
  scan_patterns (Some langs)
  = (if existsb (fun lang => includes ".ts" lang || includes ".tsx" lang) langs
     then ["**/*.ts"; "**/*.tsx"] else [])
    ++ (if existsb (fun lang => includes ".java" lang) langs
        then ["**/*.java"] else [])
    ++ (if existsb (fun lang => includes ".swift" lang) langs
        then ["**/*.swift"] else []).
Proof.
  unfold scan_patterns, LANGUAGES. rewrite !filter_cons, filter_nil.
  cbn [extensions TypeScript.TYPESCRIPT_EXTENSIONS Java.JAVA_EXTENSIONS
       Swift.SWIFT_EXTENSIONS].
  rewrite (existsb_ext _ (fun lang => includes ".ts" lang || includes ".tsx" lang))
    by (intros lang; simpl; by rewrite orb_false_r).
  rewrite (existsb_ext (fun lang => existsb _ [".java"]) (fun lang => includes ".java" lang))
    by (intros lang; simpl; by rewrite orb_false_r).
  rewrite (existsb_ext (fun lang => existsb _ [".swift"]) (fun lang => includes ".swift" lang))
    by (intros lang; simpl; by rewrite orb_false_r).
  destruct (existsb _ langs), (existsb _ langs), (existsb _ langs); reflexivity.
Qed.

Ltac not_in_closed_list :=
  let H := fresh in
  intros H; exfalso; apply (bool_decide_pack _) in H; vm_compute in H; exact H.

(** X20. The language filter of a scan selects whole languages, by
    substring: the patterns of a language are scanned exactly when one of
    the requested strings occurs in one of its extensions.  The filter only
    narrows the scan, [.ts] and [.tsx] are always selected together, and an
    empty list of languages selects nothing; nor does the language [go],
    which the command line offers. *)
Theorem language_filter_selects_by_substring (langs : list string) :
  scan_patterns (Some langs) `sublist_of` scan_patterns None
  ∧ ("**/*.ts" ∈ scan_patterns (Some langs)
     <-> exists lang, lang ∈ langs
           ∧ (includes ".ts" lang = true ∨ includes ".tsx" lang = true))
  ∧ ("**/*.tsx" ∈ scan_patterns (Some langs)
     <-> "**/*.ts" ∈ scan_patterns (Some langs))
  ∧ ("**/*.java" ∈ scan_patterns (Some langs)
     <-> exists lang, lang ∈ langs ∧ includes ".java" lang = true)
  ∧ ("**/*.swift" ∈ scan_patterns (Some langs)
     <-> exists lang, lang ∈ langs ∧ includes ".swift" lang = true)
  ∧ scan_patterns (Some []) = []
  ∧ scan_patterns (Some ["go"]) = [].
Proof.
  rewrite scan_patterns_selected.
  pose proof (existsb_elem (fun lang => includes ".ts" lang || includes ".tsx" lang)
                langs) as Hts.
  pose proof (existsb_elem (fun lang => includes ".java" lang) langs) as Hjava.
  pose proof (existsb_elem (fun lang => includes ".swift" lang) langs) as Hswift.
  setoid_rewrite orb_true_iff in Hts.
  destruct (existsb _ langs), (existsb _ langs), (existsb _ langs);
    rewrite <- ?Hts, <- ?Hjava, <- ?Hswift; split_and!;
    try (vm_compute;
         by repeat first [apply sublist_nil | apply sublist_skip | apply sublist_cons]);
    try reflexivity;
    try (split; [done | intros _; by_eval]);
    try (split; [not_in_closed_list | done]);
    try (split; intros _; by_eval);
    try (split; not_in_closed_list).
Qed.

(** ** Where scanned nodes come from *)

Lemma getParserForFile_cases env file parser :
  getParserForFile env file = Some parser ->
  parser = parseTypeScript env ∨ parser = parseJava env ∨ parser = parseSwift env.
Proof.
  unfold getParserForFile, LANGUAGES. cbn [find].
  repeat (destruct (existsb _ _); [intros [= <-]; tauto |]). done.
Qed.

(** A parser stamps the path it is given on every node it returns. *)
Lemma parser_stamps_file env file parser source relFile r n :
  getParserForFile env file = Some parser ->
  parser source relFile = Ok r -> n ∈ f_nodes r -> n_file n = relFile.
Proof.
  intros [-> | [-> | ->] ]%getParserForFile_cases;
    unfold parseTypeScript, parseJava, parseSwift;
    destruct (ts_parse env _ source) as [tree|]; simpl; try done;
    intros [= <-] Hn.
  - by apply TypeScript_parseSource_node in Hn as (d & _ & (_ & ? & _) & _).
  - by apply Java_parseSource_node in Hn as (d & _ & (_ & ? & _) & _).
  - by apply Swift_parseSource_node in Hn as (d & _ & (_ & ? & _) & _).
Qed.

Lemma scan_files_nodes env absDir files st n :
  n ∈ allNodes (scan_files env absDir files st) ->
  n ∈ allNodes st
  ∨ exists f, f ∈ files ∧ is_Some (getParserForFile env f)
              ∧ n_file n = path_relative env absDir (path_resolve2 env absDir f).
Proof.
  revert st. induction files as [|file files IH]; intros st; [by left |].
  unfold scan_files in *. cbn [fold_left]. intros [Hn|(f & Hf & Hrest)]%IH.
  - unfold scan_step in Hn.
    destruct (getParserForFile env file) as [parser|] eqn:Hparser; [|by left].
    destruct (readFileSync env _) as [source|]; simpl in Hn; [|by left].
    destruct (parser source _) as [r|] eqn:Hr; simpl in Hn; [|by left].
    apply elem_of_app in Hn as [Hn|Hn]; [by left |].
    right. exists file. split_and!; [left | by rewrite Hparser |].
    by eapply parser_stamps_file.
  - right. exists f. split; [by right | done].
Qed.

Lemma assembled_nodes_input w allNodes allEdges dir sha n :
  n ∈ nodes (filterAndDedupe w allNodes allEdges dir sha) -> n ∈ allNodes.
Proof.
  intros (l1 & l2 & -> & _)%assembled_nodes_elem. apply elem_of_app. right. left.
Qed.

(** X21. Every node of the graph a directory scan returns carries the
    relative path of one of the files that [glob] listed and that has a
    parser: the path of that file relative to the scanned directory. *)
Theorem scanned_nodes_carry_their_file env w dir languages g log n :
  scanDirectory env w dir languages = Ok (g, log) -> n ∈ nodes g ->
  let absDir := path_resolve env dir in
  exists files f,
    glob env (scan_patterns languages) absDir = Ok files
    ∧ f ∈ files ∧ is_Some (getParserForFile env f)
    ∧ n_file n = path_relative env absDir (path_resolve2 env absDir f).
Proof.
  intros Hscan Hn absDir. unfold scanDirectory in Hscan. fold absDir in Hscan.
  destruct (glob env _ absDir) as [files|] eqn:Hglob; simpl in Hscan; [|done].
  injection Hscan as <- _.
  apply assembled_nodes_input, scan_files_nodes in Hn
    as [[]%elem_of_nil|(f & Hf & Hp & Hfile)].
  by exists files, f.
Qed.

(** ** Scanning a git revision *)

Lemma git_step_nodes env git gitRoot ref dirPrefix files st n :
  n ∈ f_nodes (fold_left (git_step env git gitRoot ref dirPrefix) files st) ->
  n ∈ f_nodes st
  ∨ exists f, f ∈ files
      ∧ n_file n = if truthy dirPrefix then path_relative env dirPrefix f else f.
Proof.
  revert st. induction files as [|file files IH]; intros st; [by left |].
  cbn [fold_left]. intros [Hn|(f & Hf & Hrest)]%IH.
  - unfold git_step in Hn.
    destruct (getParserForFile env file) as [parser|] eqn:Hparser; [|by left].
    destruct (execSync git _ gitRoot) as [source|]; simpl in Hn; [|by left].
    destruct (parser source _) as [r|] eqn:Hr; simpl in Hn; [|by left].
    apply elem_of_app in Hn as [Hn|Hn]; [by left |].
    right. exists file. split; [left |]. by eapply parser_stamps_file.
  - right. exists f. split; [by right | done].
Qed.

(** X22. When the directory is in no git repository, or the revision
    cannot be listed, [scanFromGit] returns the empty graph, stamped with
    the time and with no commit id.  Compared with it, every graph is all
    new: nothing is reported removed, and every key of the graph is reported
    added. *)
Theorem git_scan_without_history env git w dir ref :
  let absDir := path_resolve env dir in
  (forall root, getGitRoot git absDir = Ok root ->
     exists err,
       execSync git ("git ls-tree -r --name-only " +:+ default "HEAD~1" ref) root
       = Throw err) ->
  scanFromGit env git w dir ref = mkGraph [] [] (clock w) None
  ∧ forall current,
      let d := diffGraphs (scanFromGit env git w dir ref) current in
      removedNodes d = [] ∧ removedEdges d = []
      ∧ (forall k, k ∈ nodeKey <$> addedNodes d <-> k ∈ nodeKey <$> nodes current)
      ∧ (forall k, k ∈ edgeKey <$> addedEdges d <-> k ∈ edgeKey <$> edges current)
      ∧ (NoDup (nodeKey <$> nodes current) -> addedNodes d = nodes current)
      ∧ (NoDup (edgeKey <$> edges current) -> addedEdges d = edges current).
Proof.
  intros absDir Hfail.
  assert (scanFromGit env git w dir ref = mkGraph [] [] (clock w) None) as ->.
  { unfold scanFromGit. fold absDir.
    destruct (getGitRoot git absDir) as [root|]; [|done].
    by destruct (Hfail root eq_refl) as [err ->]. }
  split; [done |]. intros current d. unfold d.
  cbn [diffGraphs addedNodes removedNodes addedEdges removedEdges nodes edges].
  split_and!; try done.
  - intros k. rewrite missing_keys. simpl. rewrite elem_of_nil. tauto.
  - intros k. rewrite missing_keys. simpl. rewrite elem_of_nil. tauto.
  - intros Hnd. rewrite missing_NoDup_filter by done.
    apply filter_all_id, Forall_forall. intros n _. simpl. apply not_elem_of_nil.
  - intros Hnd. rewrite missing_NoDup_filter by done.
    apply filter_all_id, Forall_forall. intros e _. simpl. apply not_elem_of_nil.
Qed.

(** X23. A file of the listing whose text cannot be shown, or on whose
    text the parser throws, is skipped: the graph is the one assembled from
    the other files of the listing, under the commit id of the revision. *)
Theorem git_scan_skips_failed_file env git w dir ref root output pre file post
    parser err :
  let absDir := path_resolve env dir in
  let rev := default "HEAD~1" ref in
  let dirPrefix := path_relative env root absDir in
  let prefixWithSlash := if truthy dirPrefix then dirPrefix +:+ "/" else EmptyString in
  let relFile := if truthy dirPrefix then path_relative env dirPrefix file else file in
  getGitRoot git absDir = Ok root ->
  execSync git ("git ls-tree -r --name-only " +:+ rev) root = Ok output ->
  git_file_list prefixWithSlash output = pre ++ file :: post ->
  getParserForFile env file = Some parser ->
  bind (execSync git ("git show " +:+ rev +:+ ":" +:+ file) root)
    (fun source => parser source relFile) = Throw err ->
  let others :=
    fold_left (git_step env git root rev dirPrefix) (pre ++ post) frag_empty in
  scanFromGit env git w dir ref
  = filterAndDedupe w (f_nodes others) (f_edges others) absDir
      match execSync git ("git rev-parse " +:+ rev) root with
      | Ok out => Some (trim out)
      | Throw _ => None
      end.
Proof.
  intros absDir rev dirPrefix prefixWithSlash relFile Hroot Hlist Hfiles Hparser
    Hthrow others.
  unfold scanFromGit. fold absDir rev. rewrite Hroot. fold dirPrefix.
  fold prefixWithSlash. rewrite Hlist, Hfiles.
  assert (forall st, git_step env git root rev dirPrefix st file = st) as Hstep.
  { intros st. unfold git_step. fold relFile. by rewrite Hparser, Hthrow. }
  unfold others. rewrite !fold_left_app. cbn [fold_left]. by rewrite Hstep.
Qed.

Lemma git_file_list_elem prefixWithSlash output f :
  f ∈ git_file_list prefixWithSlash output ->
  f ∈ split "010" (trim output)
  ∧ startsWith f prefixWithSlash = true
  ∧ existsb (fun ext => endsWith f ext) getAllExtensions = true
  ∧ includes f "node_modules/" = false
  ∧ includes f "dist/" = false
  ∧ includes f "build/" = false.
Proof.
  unfold git_file_list. intros [Hf Hin]%list_elem_of_filter.
  apply Is_true_true in Hf. rewrite !andb_true_iff, !negb_true_iff in Hf.
  tauto.
Qed.

(** X24. Every node of the graph a revision scan returns comes from a
    line of the listing that starts with the prefix of the scanned
    directory, ends with a scanned extension and nowhere contains
    [node_modules/], [dist/] or [build/], and carries that path relative to
    the scanned directory.  Every file of the listing that passes the
    filter has a parser. *)
Theorem git_scanned_nodes_pass_the_filter env git w dir ref n :
  n ∈ nodes (scanFromGit env git w dir ref) ->
  let absDir := path_resolve env dir in
  exists root output f,
    let dirPrefix := path_relative env root absDir in
    let prefixWithSlash :=
      if truthy dirPrefix then dirPrefix +:+ "/" else EmptyString in
    getGitRoot git absDir = Ok root
    ∧ execSync git ("git ls-tree -r --name-only " +:+ default "HEAD~1" ref) root
      = Ok output
    ∧ f ∈ split "010" (trim output)
    ∧ startsWith f prefixWithSlash = true
    ∧ includes f "node_modules/" = false
    ∧ includes f "dist/" = false
    ∧ includes f "build/" = false
    ∧ is_Some (getParserForFile env f)
    ∧ n_file n = if truthy dirPrefix then path_relative env dirPrefix f else f.
Proof.
  intros Hn absDir. unfold scanFromGit in Hn. fold absDir in Hn.
  destruct (getGitRoot git absDir) as [root|] eqn:Hroot;
    [|by apply elem_of_nil in Hn].
  destruct (execSync git _ root) as [output|] eqn:Hlist;
    [|by apply elem_of_nil in Hn].
  apply assembled_nodes_input, git_step_nodes in Hn
    as [[]%elem_of_nil|(f & Hf & Hfile)].
  apply git_file_list_elem in Hf as (Hline & Hprefix & Hext & Hnm & Hdist & Hbuild).
  exists root, output, f. cbv zeta. split_and!; try done.
  unfold getParserForFile, getAllExtensions, LANGUAGES in *.
  cbn [find flat_map extensions existsb app
       TypeScript.TYPESCRIPT_EXTENSIONS Java.JAVA_EXTENSIONS Swift.SWIFT_EXTENSIONS]
    in *.
  destruct (endsWith f ".ts"), (endsWith f ".tsx"), (endsWith f ".java"),
    (endsWith f ".swift"); simpl in *; by eauto.
Qed.

(** ** From a scan to the file it is written to *)

Lemma parser_safe_lines env file parser source relFile r n :
  (forall grammar source tree, ts_parse env grammar source = Ok tree ->
     forall d, d ∈ subnodes tree -> (0 <= s_row d < 2 ^ 32)%Z) ->
  getParserForFile env file = Some parser ->
  parser source relFile = Ok r -> n ∈ f_nodes r ->
  isSafeInteger (n_line n) = true.
Proof.
  intros Hrows [-> | [-> | ->] ]%getParserForFile_cases;
    unfold parseTypeScript, parseJava, parseSwift;
    destruct (ts_parse env _ source) as [tree|] eqn:Htree; simpl; try done;
    intros [= <-] Hn.
  - apply TypeScript_parseSource_node in Hn as (d & Hd & Hat & _).
    by destruct (declared_at_safe _ _ _ (Hrows _ _ _ Htree d Hd) Hat).
  - apply Java_parseSource_node in Hn as (d & Hd & Hat & _).
    by destruct (declared_at_safe _ _ _ (Hrows _ _ _ Htree d Hd) Hat).
  - apply Swift_parseSource_node in Hn as (d & Hd & Hat & _).
    by destruct (declared_at_safe _ _ _ (Hrows _ _ _ Htree d Hd) Hat).
Qed.

Lemma scan_files_safe_lines env absDir files st :
  (forall grammar source tree, ts_parse env grammar source = Ok tree ->
     forall d, d ∈ subnodes tree -> (0 <= s_row d < 2 ^ 32)%Z) ->
  (forall n, n ∈ allNodes st -> isSafeInteger (n_line n) = true) ->
  forall n, n ∈ allNodes (scan_files env absDir files st) ->
            isSafeInteger (n_line n) = true.
Proof.
  intros Hrows. revert st.
  induction files as [|file files IH]; intros st Hst; [done |].
  unfold scan_files in *. cbn [fold_left]. apply IH.
  intros n Hn. unfold scan_step in Hn.
  destruct (getParserForFile env file) as [parser|] eqn:Hparser; [|by apply Hst].
  destruct (readFileSync env _) as [source|]; simpl in Hn; [|by apply Hst].
  destruct (parser source _) as [r|] eqn:Hr; simpl in Hn; [|by apply Hst].
  apply elem_of_app in Hn as [Hn|Hn]; [by apply Hst |].
  by eapply parser_safe_lines.
Qed.

(** The text [JSON.stringify] writes is read back also when a newline
    follows it. *)
Lemma JSON_roundtrip_newline v :
  serializable v = true -> JSON_parse (JSON_stringify v +:+ nl) = Some v.
Proof.
  intros Hser. unfold JSON_parse, JSON_stringify.
  by rewrite (roundtrip_value v Hser EmptyString
                (S (String.length (stringify EmptyString v +:+ nl))) nl
                eq_refl ltac:(rewrite length_append; lia) eq_refl).
Qed.


(** ** Assembly of a longer input *)

Lemma first_wins_app {A} (key : A -> string) seen (l l' : list A) :
  first_wins key seen (l ++ l')
  = first_wins key seen l
    ++ first_wins key (seen ++ (key <$> first_wins key seen l)) l'.
Proof.
  revert seen. induction l as [|x l IH]; intros seen; simpl.
  - by rewrite app_nil_r.
  - case_bool_decide; [done |].
    rewrite IH, fmap_cons. simpl. by rewrite <- app_assoc.
Qed.

(** X26. Assembly is incremental.  The nodes assembled from a list of
    nodes are a prefix of the nodes assembled from any extension of the
    list: a declaration that was kept stays, in its place, when more files
    are scanned after it.  Over the same nodes, the edges assembled from a
    list of edges are a prefix of the edges assembled from any extension of
    that list. *)
Theorem assembly_is_incremental w w' allNodes moreNodes allEdges moreEdges
    dir dir' sha sha' :
  nodes (filterAndDedupe w allNodes allEdges dir sha)
  `prefix_of` nodes (filterAndDedupe w' (allNodes ++ moreNodes) moreEdges dir' sha')
  ∧ edges (filterAndDedupe w allNodes allEdges dir sha)
    `prefix_of` edges (filterAndDedupe w' allNodes (allEdges ++ moreEdges) dir' sha').
Proof.
  rewrite !filterAndDedupe_nodes, !filterAndDedupe_edges, filter_app, !first_wins_app.
  split; by apply prefix_app_r.
Qed.

(** ** The further properties at concrete inputs *)

Lemma diff_ignores_location_witness :
  isDiffEmpty (diffGraphs Config_moved_before Config_moved_after) = true.
Proof.
  apply (diff_ignores_location_and_stamps Config_moved_before Config_moved_after).
  - repeat constructor.
  - reflexivity.
Defined.

Lemma diff_counts_balance_witness :
  (length (nodes kind_after) + length (removedNodes (diffGraphs kind_before kind_after))
   = length (nodes kind_before) + length (addedNodes (diffGraphs kind_before kind_after)))%nat
  ∧ (length (edges kind_after) + length (removedEdges (diffGraphs kind_before kind_after))
     = length (edges kind_before) + length (addedEdges (diffGraphs kind_before kind_after)))%nat.
Proof.
  apply (diff_counts_balance kind_before kind_after); by_eval.
Defined.

Lemma node_records_witness :
  (exists d, d ∈ subnodes Valid_tree
             ∧ declared_at "good.ts" d (mkNode "Valid" class "good.ts" (Int 1)))
  ∧ ((forall d, d ∈ subnodes Valid_tree -> (0 <= s_row d < 2 ^ 32)%Z) ->
     isSafeInteger (Int 1) = true).
Proof.
  apply (node_records_are_read_off_the_tree Valid_tree "good.ts"
           (mkNode "Valid" class "good.ts" (Int 1))).
  right. right. right. by_eval.
Defined.

Lemma scanned_nodes_witness :
  exists files f,
    glob two_file_env (scan_patterns None) (path_resolve two_file_env "proj")
    = Ok files
    ∧ f ∈ files ∧ is_Some (getParserForFile two_file_env f)
    ∧ "good.ts"
      = path_relative two_file_env (path_resolve two_file_env "proj")
          (path_resolve2 two_file_env (path_resolve two_file_env "proj") f).
Proof.
  apply (scanned_nodes_carry_their_file two_file_env world_2026 "proj" None
           (mkGraph [mkNode "Valid" class "good.ts" (Int 1)] []
              "2026-01-01T00:00:00.000Z" (Some "abc123"))
           ["Warning: Failed to parse bad.ts: Error: Invalid argument"]
           (mkNode "Valid" class "good.ts" (Int 1))).
  - reflexivity.
  - by_eval.
Defined.

Lemma git_scan_without_history_witness :
  scanFromGit two_file_env one_commit_git world_2026 "proj" (Some "v1")
  = mkGraph [] [] "2026-01-01T00:00:00.000Z" None.
Proof.
  apply (git_scan_without_history two_file_env one_commit_git world_2026 "proj"
           (Some "v1")).
  intros root _. by eexists.
Defined.

Lemma git_scan_skips_failed_file_witness :
  scanFromGit two_file_env one_commit_git world_2026 "proj" None
  = mkGraph [mkNode "Valid" class "good.ts" (Int 1)] []
      "2026-01-01T00:00:00.000Z" (Some "def456").
Proof.
  etrans.
  - apply (git_scan_skips_failed_file two_file_env one_commit_git world_2026 "proj"
             None "/tmp/proj"
             ("good.ts" +:+ nl +:+ "bad.ts" +:+ nl +:+ "redist/gen.ts" +:+ nl)
             ["good.ts"] "bad.ts" [] (parseTypeScript two_file_env)
             "Error: Invalid argument"); reflexivity.
  - reflexivity.
Defined.

Lemma git_scanned_nodes_witness :
  exists root output f,
    getGitRoot one_commit_git (path_resolve two_file_env "proj") = Ok root
    ∧ execSync one_commit_git ("git ls-tree -r --name-only " +:+ "HEAD~1") root
      = Ok output
    ∧ f ∈ split "010" (trim output)
    ∧ startsWith f
        (if truthy (path_relative two_file_env root (path_resolve two_file_env "proj"))
         then path_relative two_file_env root (path_resolve two_file_env "proj")
              +:+ "/"
         else EmptyString) = true
    ∧ includes f "node_modules/" = false
    ∧ includes f "dist/" = false
    ∧ includes f "build/" = false
    ∧ is_Some (getParserForFile two_file_env f)
    ∧ "good.ts"
      = if truthy (path_relative two_file_env root (path_resolve two_file_env "proj"))
        then path_relative two_file_env
               (path_relative two_file_env root (path_resolve two_file_env "proj")) f
        else f.
Proof.
  apply (git_scanned_nodes_pass_the_filter two_file_env one_commit_git world_2026
           "proj" None (mkNode "Valid" class "good.ts" (Int 1))).
  by_eval.
Defined.


(** ** The parser loader *)

(** Detection answers, and from then on the answer is kept. *)
Lemma detectBackend_spec env st :
  exists b, detectBackend env st = (Ok b, mkLoader (Some b) (wasmInitialized st))
            ∧ forall b0, detectedBackend st = Some b0 -> b0 = b.
Proof.
  unfold detectBackend. destruct st as [[b0|] init]; simpl.
  - exists b0. split; [done |]. by intros ? [= ->].
  - destruct (import_module env "tree-sitter"); eexists; by split.
Qed.

Lemma initWasm_detected env st r st' :
  initWasm env st = (r, st') -> detectedBackend st' = detectedBackend st.
Proof.
  unfold initWasm, a_bind, a_call. destruct (wasmInitialized st).
  - by intros [= _ <-].
  - destruct (import_module env _); [|by intros [= _ <-]].
    destruct (WasmParser_init env); by intros [= _ <-].
Qed.

(** Which backend a language comes from: the native one exactly when the
    native runtime was detected and the grammar package can be imported. *)
Lemma loadLanguage_spec env nativePackage wasmFileName sub st l b st' :
  loadLanguage env nativePackage wasmFileName sub st = (Ok (l, b), st') ->
  language_backend l = b
  ∧ (exists b0, detectedBackend st' = Some b0
                ∧ (forall b1, detectedBackend st = Some b1 -> b1 = b0)
                ∧ b = if bool_decide (b0 = native)
                      then match import_module env nativePackage with
                           | Ok _ => native
                           | Throw _ => wasm
                           end
                      else wasm).
Proof.
  unfold loadLanguage, a_bind.
  destruct (detectBackend_spec env st) as (b0 & -> & Hkeep).
  assert (forall s l b st',
            (let (r, s') := initWasm env s in
             match r with
             | Ok _ =>
                 let (r0, s'0) :=
                   a_call (require_resolve env ("tree-sitter-wasms/out/" +:+ wasmFileName)) s' in
                 match r0 with
                 | Ok wasmPath =>
                     let (r1, s'1) := a_call (WasmLanguage_load env wasmPath) s'0 in
                     match r1 with
                     | Ok _ => a_return (WasmLanguage wasmPath, wasm) s'1
                     | Throw err => (Throw err, s'1)
                     end
                 | Throw err => (Throw err, s'0)
                 end
             | Throw err => (Throw err, s')
             end) = (Ok (l, b), st') ->
            language_backend l = b ∧ b = wasm
            ∧ detectedBackend st' = detectedBackend s) as Hwasm.
  { intros s l0 b1 st0. destruct (initWasm env s) as [[[]|] s'] eqn:Hinit; [|done].
    apply initWasm_detected in Hinit. unfold a_call, a_return.
    destruct (require_resolve env _); [|done].
    destruct (WasmLanguage_load env _); [|done].
    intros [= <- <- <-]. done. }
  case_bool_decide as Hb0.
  - subst b0. destruct (import_module env nativePackage).
    + unfold a_return. intros [= <- <- <-]. split; [done |].
      exists native. by split_and!.
    + intros (Hl & -> & Hd)%Hwasm. split; [done |].
      exists native. rewrite Hd. by split_and!.
  - intros (Hl & -> & Hd)%Hwasm. split; [done |].
    exists b0. rewrite Hd, bool_decide_eq_false_2 by done. by split_and!.
Qed.

Lemma createParser_spec env useWasm st p st' :
  createParser env useWasm st = (Ok p, st') ->
  (useWasm = true -> p = WasmParser)
  ∧ (useWasm = false -> detectedBackend st = Some native -> p = NativeParser).
Proof.
  unfold createParser, a_bind.
  destruct (detectBackend_spec env st) as (b0 & -> & Hkeep).
  destruct (bool_decide (b0 = native) && negb useWasm) eqn:Hcase.
  - unfold a_return. intros [= <- _].
    apply andb_true_iff in Hcase as [_ ?%negb_true_iff]. split; [congruence | done].
  - destruct (initWasm env _) as [[[]|] s']; [|done].
    unfold a_return. intros [= <- _]. split; [done |].
    intros -> Hnative. apply Hkeep in Hnative as <-. done.
Qed.

Lemma in_loader_eq {M A} (m : Async Loader A) (st : Loader) (mo : M) :
  in_loader m (st, mo) = ((m st).1, ((m st).2, mo)).
Proof. unfold in_loader. simpl. by destruct (m st). Qed.

(** The parser made for a loaded language is of the backend of the
    language. *)
Lemma parser_for_language env nativePackage wasmFileName sub st l b st1 p st2 :
  loadLanguage env nativePackage wasmFileName sub st = (Ok (l, b), st1) ->
  createParser env (bool_decide (b = wasm)) st1 = (Ok p, st2) ->
  parser_backend p = language_backend l.
Proof.
  intros (Hl & b0 & Hd & _ & Hb)%loadLanguage_spec [Hw Hn]%createParser_spec.
  rewrite Hl. destruct b.
  - rewrite Hn; [done | done |].
    rewrite Hd. destruct b0; [done |]. by rewrite bool_decide_eq_false_2 in Hb.
  - by rewrite Hw.
Qed.

(** X27. The parser and the grammar an extractor works with always come
    from the same backend.  A call of [getParser] that returns hands out a
    parser together with a language of the parser's own backend, native or
    WebAssembly, also when the native runtime is installed and the native
    grammar is not; and it leaves the variables of the module in a state in
    which the next call does so again.  For the TypeScript module this holds
    for both of its grammars. *)
Theorem parser_and_grammar_share_a_backend (env : LoaderEnv) :
  (forall nativePackage wasmFileName st m p l st' m',
     module_fits m ->
     getParser env nativePackage wasmFileName (st, m) = (Ok (p, l), (st', m')) ->
     fits p l ∧ module_fits m')
  ∧ (forall isTsx st m p l st' m',
       ts_module_fits m ->
       TypeScript_getParser env isTsx (st, m) = (Ok (p, l), (st', m')) ->
       fits p l ∧ ts_module_fits m').
Proof.
  split.
  - intros nativePackage wasmFileName st m p l st' m' Hm.
    unfold getParser, a_bind. cbn [snd fst].
    destruct (parserInstance m) as [p0|] eqn:Hp0.
    + cbn [snd]. rewrite Hp0. intros [= <- <- <- <-]. split; [by apply Hm | done].
    + rewrite in_loader_eq.
      destruct (loadLanguage env nativePackage wasmFileName None st)
        as [[[lang b]|] st1] eqn:Hload; cbn [fst snd]; [|done].
      rewrite in_loader_eq.
      destruct (createParser env (bool_decide (b = wasm)) st1)
        as [[parser|] st2] eqn:Hcreate; cbn [fst snd parserInstance moduleLang]; [|done].
      intros [= <- <- <- <-].
      pose proof (parser_for_language _ _ _ _ _ _ _ _ _ _ Hload Hcreate) as Hfit.
      split; [by exists lang |]. intros p' [= <-]. by exists lang.
  - intros isTsx st m p l st' m' Hm.
    unfold TypeScript_getParser, a_bind. cbn [snd fst].
    destruct (ts_parserInstance m) as [p0|] eqn:Hp0.
    + cbn [snd]. rewrite Hp0. intros [= <- <- <- <-].
      split; [|done]. destruct (Hm p0 Hp0). by destruct isTsx.
    + rewrite in_loader_eq.
      destruct (loadLanguage env "tree-sitter-typescript" "tree-sitter-typescript.wasm"
                  (Some "typescript") st)
        as [[[lang1 b1]|] st1] eqn:Hload1; cbn [fst snd]; [|done].
      rewrite in_loader_eq.
      destruct (loadLanguage env "tree-sitter-typescript" "tree-sitter-tsx.wasm"
                  (Some "tsx") st1)
        as [[[lang2 b2]|] st2] eqn:Hload2; cbn [fst snd]; [|done].
      rewrite in_loader_eq.
      destruct (createParser env (bool_decide (b1 = wasm)) st2)
        as [[parser|] st3] eqn:Hcreate;
        cbn [fst snd ts_parserInstance tsLang tsxLang]; [|done].
      intros [= <- <- <- <-].
      pose proof Hload1 as (Hl1 & c1 & Hd1 & _ & Hb1)%loadLanguage_spec.
      pose proof Hload2 as (Hl2 & c2 & Hd2 & Hkeep & Hb2)%loadLanguage_spec.
      apply Hkeep in Hd1 as ->.
      assert (b1 = b2) as <- by congruence.
      pose proof (parser_for_language _ _ _ _ _ _ _ _ _ _ Hload2 Hcreate) as Hfit2.
      assert (parser_backend parser = language_backend lang1) as Hfit1 by congruence.
      assert (fits parser (Some lang1) ∧ fits parser (Some lang2)) as Hboth.
      { split; eexists; by split. }
      split; [destruct isTsx; tauto |]. by intros p' [= <-].
Qed.

Lemma parser_and_grammar_witness :
  fits WasmParser (Some (WasmLanguage "/node_modules/tree-sitter-wasms/out/tree-sitter-go.wasm"))
  ∧ module_fits
      (mkParserModule (Some WasmParser)
         (Some (WasmLanguage "/node_modules/tree-sitter-wasms/out/tree-sitter-go.wasm"))).
Proof.
  destruct (parser_and_grammar_share_a_backend no_native_go) as [Hgo _].
  apply (Hgo "tree-sitter-go" "tree-sitter-go.wasm" (mkLoader None false)
           (mkParserModule None None) WasmParser
           (Some (WasmLanguage "/node_modules/tree-sitter-wasms/out/tree-sitter-go.wasm"))
           (mkLoader (Some native) true)).
  - by intros p [=].
  - reflexivity.
Defined.

(** ** Names come from the source text *)

Lemma find_elem {A} (f : A -> bool) (l : list A) x : find f l = Some x -> x ∈ l.
Proof. intros [Hin _]%find_some. by apply list_elem_of_In. Qed.

Lemma childForFieldName_child node f c :
  childForFieldName node f = Some c -> c ∈ s_children node.
Proof. apply find_elem. Qed.

Lemma first_of_type_child ty l c : first_of_type ty l = Some c -> c ∈ l.
Proof. apply find_elem. Qed.

Lemma subnodes_trans a b d : d ∈ subnodes a -> a ∈ subnodes b -> d ∈ subnodes b.
Proof.
  intros Hd. induction b as [f ty tx nm row ch IH] using SyntaxNode_ind'.
  rewrite subnodes_unfold. intros [->|(c & Hc & Ha)%elem_of_flat_map]%elem_of_cons.
  - done.
  - right. apply elem_of_flat_map. exists c.
    split; [done |]. rewrite Forall_forall in IH. by apply IH.
Qed.

Lemma text_in_self node : text_in node (s_text node).
Proof. exists node. split; [apply subnodes_self | done]. Qed.

Lemma text_in_child p c s : c ∈ s_children p -> text_in c s -> text_in p s.
Proof.
  intros Hc (d & Hd & Ht). exists d. split; [|done]. by eapply subnodes_child.
Qed.

Lemma text_in_field p f c s :
  childForFieldName p f = Some c -> text_in c s -> text_in p s.
Proof. intros Hc%childForFieldName_child. by apply text_in_child. Qed.

Lemma text_in_first ty p c s :
  first_of_type ty (s_children p) = Some c -> text_in c s -> text_in p s.
Proof. intros Hc%first_of_type_child. by apply text_in_child. Qed.

Lemma text_in_subnode root d s : d ∈ subnodes root -> text_in d s -> text_in root s.
Proof.
  intros Hd (x & Hx & Ht). exists x. split; [|done]. by eapply subnodes_trans.
Qed.

Lemma Java_extractTypeIdentifiers_unfold n :
  Java.extractTypeIdentifiers n
  = if bool_decide (s_type n = "type_identifier") then [s_text n]
    else if bool_decide (s_type n = "scoped_type_identifier") then
      match childForFieldName n "name" with
      | Some nameNode => [s_text nameNode]
      | None => []
      end
    else flat_map Java.extractTypeIdentifiers (s_children n).
Proof. destruct n. cbn [Java.extractTypeIdentifiers]. by repeat case_bool_decide. Qed.

Lemma Swift_extractTypeIdentifiers_unfold n :
  Swift.extractTypeIdentifiers n
  = if bool_decide (s_type n = "user_type")
       || bool_decide (s_type n = "type_identifier")
    then
      match childForFieldName n "name" with
      | Some nameChild => [s_text nameChild]
      | None =>
          if bool_decide (s_type n = "type_identifier") then [s_text n]
          else
            match first_of_type "type_identifier" (s_children n) with
            | Some child => [s_text child]
            | None => []
            end
      end
      ++ flat_map
           (fun child =>
              if bool_decide (s_type child = "type_arguments")
              then Swift.extractTypeIdentifiers child else [])
           (s_children n)
    else flat_map Swift.extractTypeIdentifiers (s_children n).
Proof. by destruct n. Qed.

Lemma TypeScript_extractTypeIdentifiers_unfold n :
  TypeScript.extractTypeIdentifiers n
  = if bool_decide (s_type n = "type_identifier")
       || bool_decide (s_type n = "identifier")
       || (bool_decide (s_type n = "nested_type_identifier")
           || bool_decide (s_type n = "member_expression"))
    then [s_text n]
    else flat_map TypeScript.extractTypeIdentifiers (s_children n).
Proof.
  destruct n. cbn [TypeScript.extractTypeIdentifiers].
  by repeat case_bool_decide.
Qed.

Lemma Go_extractAllTypeIdentifiers_unfold n :
  Go.extractAllTypeIdentifiers n
  = match Go.extractTypeIdentifier n with
    | Some id =>
        if truthy id then [id]
        else flat_map Go.extractAllTypeIdentifiers (s_children n)
    | None => flat_map Go.extractAllTypeIdentifiers (s_children n)
    end.
Proof. by destruct n. Qed.

(** The identifiers found under a node are texts of nodes under it. *)
Section identifiers_are_texts.
Context (ids : SyntaxNode -> list string).
Context (n : SyntaxNode).
Hypothesis below : Forall (fun c => forall id, id ∈ ids c -> text_in c id) (s_children n).

Lemma children_ids_text id : id ∈ flat_map ids (s_children n) -> text_in n id.
Proof using below.
  intros (c & Hc & Hid)%elem_of_flat_map. rewrite Forall_forall in below.
  apply (text_in_child n c); [done | by apply below].
Qed.

End identifiers_are_texts.

Lemma Java_extractTypeIdentifiers_text n id :
  id ∈ Java.extractTypeIdentifiers n -> text_in n id.
Proof.
  revert id. induction n as [f ty tx nm row ch IH] using SyntaxNode_ind'.
  intros id. set (n := SNode f ty tx nm row ch). change ch with (s_children n) in IH.
  rewrite Java_extractTypeIdentifiers_unfold.
  destruct (bool_decide (s_type n = "type_identifier")).
  { intros ->%list_elem_of_singleton. apply text_in_self. }
  destruct (bool_decide (s_type n = "scoped_type_identifier")).
  { destruct (childForFieldName n "name") as [nameNode|] eqn:Hname;
      [|by intros []%elem_of_nil].
    intros ->%list_elem_of_singleton.
    eapply text_in_field; [done | apply text_in_self]. }
  by apply children_ids_text.
Qed.

Lemma TypeScript_extractTypeIdentifiers_text n id :
  id ∈ TypeScript.extractTypeIdentifiers n -> text_in n id.
Proof.
  revert id. induction n as [f ty tx nm row ch IH] using SyntaxNode_ind'.
  intros id. set (n := SNode f ty tx nm row ch). change ch with (s_children n) in IH.
  rewrite TypeScript_extractTypeIdentifiers_unfold.
  destruct (_ || _).
  { intros ->%list_elem_of_singleton. apply text_in_self. }
  by apply children_ids_text.
Qed.

Lemma Swift_extractTypeIdentifiers_text n id :
  id ∈ Swift.extractTypeIdentifiers n -> text_in n id.
Proof.
  revert id. induction n as [f ty tx nm row ch IH] using SyntaxNode_ind'.
  intros id. set (n := SNode f ty tx nm row ch). change ch with (s_children n) in IH.
  rewrite Swift_extractTypeIdentifiers_unfold.
  destruct (_ || _); [|by apply children_ids_text].
  intros [Hid|(c & Hc & Hid)%elem_of_flat_map]%elem_of_app.
  - destruct (childForFieldName n "name") as [nameChild|] eqn:Hname.
    { apply list_elem_of_singleton in Hid as ->.
      eapply text_in_field; [done | apply text_in_self]. }
    destruct (bool_decide (s_type n = "type_identifier")).
    { apply list_elem_of_singleton in Hid as ->. apply text_in_self. }
    destruct (first_of_type "type_identifier" (s_children n)) as [child|] eqn:Hchild;
      [|by apply elem_of_nil in Hid].
    apply list_elem_of_singleton in Hid as ->.
    eapply text_in_first; [done | apply text_in_self].
  - destruct (bool_decide _); [|by apply elem_of_nil in Hid].
    rewrite Forall_forall in IH.
    apply (text_in_child n c); [done | by apply IH].
Qed.

Lemma Go_extractTypeIdentifier_text node id :
  Go.extractTypeIdentifier node = Some id -> text_in node id.
Proof.
  unfold Go.extractTypeIdentifier, or_else. intros H.
  repeat (match type of H with
          | context [bool_decide ?P] => destruct (bool_decide P)
          | context [first_of_type ?ty ?l] => destruct (first_of_type ty l) eqn:?
          | context [childForFieldName ?n ?f] =>
              destruct (childForFieldName n f) eqn:?
          end; simpl in H);
    try discriminate; injection H as <-;
    first [ apply text_in_self
          | eapply text_in_first; [done | apply text_in_self]
          | eapply text_in_field; [done | apply text_in_self] ].
Qed.

Lemma Go_extractAllTypeIdentifiers_text n id :
  id ∈ Go.extractAllTypeIdentifiers n -> text_in n id.
Proof.
  revert id. induction n as [f ty tx nm row ch IH] using SyntaxNode_ind'.
  intros id. set (n := SNode f ty tx nm row ch). change ch with (s_children n) in IH.
  rewrite Go_extractAllTypeIdentifiers_unfold.
  destruct (Go.extractTypeIdentifier n) as [id0|] eqn:Hid0;
    [|by apply children_ids_text].
  destruct (truthy id0); [|by apply children_ids_text].
  intros ->%list_elem_of_singleton. by apply Go_extractTypeIdentifier_text.
Qed.

(** Case analysis on the membership of an edge in what a declaration
    pushes, keeping where the nodes were found. *)
Ltac text_cases H :=
  repeat first
    [ by apply elem_of_nil in H
    | apply elem_of_app in H as [H|H]
    | apply elem_of_flat_map in H as (? & ? & H)
    | apply edges_to_elem in H as (? & -> & H)
    | apply list_elem_of_filter in H as [_ H]
    | match type of H with
      | _ ∈ (if ?b then _ else _) => destruct b
      | _ ∈ match ?o with Some _ => _ | None => _ end => destruct o eqn:?
      end ].

Create HintDb texts.
#[local] Hint Resolve text_in_self text_in_child text_in_field text_in_first : texts.
#[local] Hint Resolve Java_extractTypeIdentifiers_text Swift_extractTypeIdentifiers_text
  TypeScript_extractTypeIdentifiers_text Go_extractAllTypeIdentifiers_text
  Go_extractTypeIdentifier_text : texts.

Ltac text_done := split; [done | simpl; eauto 12 with texts].

Lemma edge_into_child name p c e :
  c ∈ s_children p -> edge_into name c e -> edge_into name p e.
Proof. intros Hc [Hfrom Hto]. split; [done | by eapply text_in_child]. Qed.

Lemma edge_into_field name p f c e :
  childForFieldName p f = Some c -> edge_into name c e -> edge_into name p e.
Proof. intros Hc [Hfrom Hto]. split; [done | by eapply text_in_field]. Qed.

Lemma edge_into_texts node nameNode e :
  childForFieldName node "name" = Some nameNode ->
  edge_into (s_text nameNode) node e ->
  text_in node (e_from e) ∧ text_in node (e_to e).
Proof.
  intros Hname [-> Hto]. split; [|done].
  eapply text_in_field; [done | apply text_in_self].
Qed.

Lemma Java_member_texts name member e :
  e ∈ Java.member_edges name member -> edge_into name member e.
Proof.
  unfold Java.member_edges, Java.field_edges. intros H. text_cases H; text_done.
Qed.

Lemma Java_extractClass_texts node filePath kind e :
  e ∈ f_edges (Java.extractClass node filePath kind) ->
  text_in node (e_from e) ∧ text_in node (e_to e).
Proof.
  unfold Java.extractClass.
  destruct (childForFieldName node "name") as [nameNode|] eqn:Hname;
    [|by intros []%elem_of_nil].
  simpl. unfold Java.field_edges. intros H.
  apply (edge_into_texts node nameNode); [done |].
  repeat (apply elem_of_app in H as [H|H]).
  1-3: text_cases H; text_done.
  destruct (childForFieldName node "body") as [body|] eqn:Hbody;
    [|by apply elem_of_nil in H].
  apply elem_of_flat_map in H as (member & Hm & H%Java_member_texts).
  eapply edge_into_field; [done |]. by eapply edge_into_child.
Qed.

Lemma Java_declaration_texts filePath d e :
  e ∈ f_edges (Java.walk filePath d) -> Java_declaration d = true ->
  text_in d (e_from e) ∧ text_in d (e_to e).
Proof.
  unfold Java_declaration. intros He Hd. destruct d as [f ty tx nm row ch].
  cbn [Java.walk s_type] in *.
  destruct (bool_decide (ty = "class_declaration"));
    [by eapply Java_extractClass_texts |].
  destruct (bool_decide (ty = "interface_declaration"));
    [by eapply Java_extractClass_texts |].
  destruct (bool_decide (ty = "enum_declaration")); [|done].
  unfold enum_fragment in He. destruct (childForFieldName _ _); by apply elem_of_nil in He.
Qed.

Lemma Swift_member_texts name member e :
  e ∈ Swift.member_edges name member -> edge_into name member e.
Proof.
  unfold Swift.member_edges, Swift.field_edges. intros H. text_cases H; text_done.
Qed.

Lemma Swift_inheritance_texts node name kind e :
  e ∈ Swift.inheritance_edges node name kind -> edge_into name node e.
Proof. unfold Swift.inheritance_edges. intros H. text_cases H; text_done. Qed.

Lemma Swift_extractDeclaration_texts node filePath kind e :
  e ∈ f_edges (Swift.extractDeclaration node filePath kind) ->
  text_in node (e_from e) ∧ text_in node (e_to e).
Proof.
  unfold Swift.extractDeclaration.
  destruct (childForFieldName node "name") as [nameNode|] eqn:Hname;
    [|by intros []%elem_of_nil].
  simpl. intros H. apply (edge_into_texts node nameNode); [done |].
  apply elem_of_app in H as [H|H]; [by eapply Swift_inheritance_texts |].
  destruct (childForFieldName node "body") as [body|] eqn:Hbody;
    [|by apply elem_of_nil in H].
  apply elem_of_flat_map in H as (member & Hm & H%Swift_member_texts).
  eapply edge_into_field; [done |]. by eapply edge_into_child.
Qed.

Lemma Swift_declaration_texts filePath d e :
  e ∈ f_edges (Swift.walk filePath d) -> Swift_declaration d = true ->
  text_in d (e_from e) ∧ text_in d (e_to e).
Proof.
  unfold Swift_declaration. intros He Hd. destruct d as [f ty tx nm row ch].
  cbn [Swift.walk s_type] in *. set (d := SNode f ty tx nm row ch) in *.
  assert (e ∈ f_edges (enum_fragment d filePath) -> False) as Henum.
  { unfold enum_fragment. destruct (childForFieldName _ _); by intros []%elem_of_nil. }
  destruct (bool_decide (ty = "class_declaration")).
  { destruct (Swift.has_enum_keyword d); [by destruct Henum |].
    by eapply Swift_extractDeclaration_texts. }
  destruct (bool_decide (ty = "protocol_declaration"));
    [by eapply Swift_extractDeclaration_texts |].
  destruct (bool_decide (ty = "enum_declaration")); [by destruct Henum |].
  destruct (bool_decide (ty = "extension_declaration")); [|done].
  destruct (childForFieldName d "name") as [nameNode|] eqn:Hname;
    [|by apply elem_of_nil in He].
  apply (edge_into_texts d nameNode); [done |].
  by eapply Swift_inheritance_texts.
Qed.

Lemma TypeScript_member_texts name member e :
  e ∈ TypeScript.member_edges name member -> edge_into name member e.
Proof.
  unfold TypeScript.member_edges, TypeScript.field_edges. intros H.
  text_cases H; text_done.
Qed.

Lemma TypeScript_heritage_texts name child e :
  e ∈ TypeScript.heritage_edges name child -> edge_into name child e.
Proof. unfold TypeScript.heritage_edges. intros H. text_cases H; text_done. Qed.

Lemma TypeScript_extract_texts node filePath kind e :
  e ∈ f_edges (TypeScript.extractFromClassOrInterface node filePath kind) ->
  text_in node (e_from e) ∧ text_in node (e_to e).
Proof.
  unfold TypeScript.extractFromClassOrInterface.
  destruct (childForFieldName node "name") as [nameNode|] eqn:Hname;
    [|by intros []%elem_of_nil].
  simpl. intros H. apply (edge_into_texts node nameNode); [done |].
  apply elem_of_app in H as [H|H].
  - apply elem_of_flat_map in H as (child & Hc & H%TypeScript_heritage_texts).
    by eapply edge_into_child.
  - destruct (childForFieldName node "body") as [body|] eqn:Hbody;
      [|by apply elem_of_nil in H].
    apply elem_of_flat_map in H as (member & Hm & H%TypeScript_member_texts).
    eapply edge_into_field; [done |]. by eapply edge_into_child.
Qed.

Lemma TypeScript_declaration_texts filePath d e :
  e ∈ f_edges (TypeScript.walk filePath d) -> TypeScript_declaration d = true ->
  text_in d (e_from e) ∧ text_in d (e_to e).
Proof.
  unfold TypeScript_declaration. intros He Hd. destruct d as [f ty tx nm row ch].
  cbn [TypeScript.walk s_type] in *. set (d := SNode f ty tx nm row ch) in *.
  destruct (bool_decide (ty = "class_declaration")
            || bool_decide (ty = "abstract_class_declaration"));
    [by eapply TypeScript_extract_texts |].
  destruct (bool_decide (ty = "interface_declaration"));
    [by eapply TypeScript_extract_texts |].
  destruct (bool_decide (ty = "type_alias_declaration")).
  { destruct (childForFieldName d "name") as [nameNode|] eqn:Hname;
      [|by apply elem_of_nil in He].
    apply (edge_into_texts d nameNode); [done |].
    simpl in He. unfold TypeScript.field_edges in He. text_cases He. text_done. }
  destruct (bool_decide (ty = "enum_declaration")); [|done].
  unfold enum_fragment in He. destruct (childForFieldName _ _); by apply elem_of_nil in He.
Qed.

Lemma Go_struct_field_texts nameText field e :
  e ∈ Go.struct_field_edges nameText field -> edge_into nameText field e.
Proof.
  unfold Go.struct_field_edges. intros H. text_cases H; try text_done.
  all: apply list_elem_of_singleton in H as ->; text_done.
Qed.

Lemma Go_extractMethodEdges_texts method ownerName e :
  e ∈ Go.extractMethodEdges method ownerName -> edge_into ownerName method e.
Proof.
  unfold Go.extractMethodEdges. intros H. text_cases H; text_done.
Qed.

Lemma Go_getReceiverType_text method receiverType :
  Go.getReceiverType method = Some receiverType -> text_in method receiverType.
Proof.
  unfold Go.getReceiverType.
  destruct (first_of_type _ _) as [receiver|] eqn:Hr; [|done].
  destruct (find _ _) as [param|] eqn:Hp; [|done].
  destruct (childForFieldName param "type") as [t|] eqn:Ht; [|done].
  intros Hid%Go_extractTypeIdentifier_text. apply find_elem in Hp.
  eauto 8 with texts.
Qed.

Lemma Go_type_spec_texts filePath spec e :
  e ∈ f_edges (Go.type_spec_fragment filePath spec) ->
  text_in spec (e_from e) ∧ text_in spec (e_to e).
Proof.
  unfold Go.type_spec_fragment.
  destruct (negb _); [by intros []%elem_of_nil |].
  destruct (childForFieldName spec "name") as [nameNode|] eqn:Hname;
    [|by intros []%elem_of_nil].
  destruct (childForFieldName spec "type") as [typeNode|] eqn:Htype;
    [|by intros []%elem_of_nil].
  intros H. apply (edge_into_texts spec nameNode); [done |].
  apply (edge_into_field _ spec "type" typeNode); [done |].
  destruct (bool_decide (s_type typeNode = "struct_type")).
  { unfold Go.extractStruct, Go.findChild in H.
    destruct (childForFieldName typeNode "fields") as [fieldList|] eqn:Hfields.
    - apply elem_of_flat_map in H as (field & Hf & H%Go_struct_field_texts).
      eapply edge_into_field; [done |]. by eapply edge_into_child.
    - destruct (first_of_type _ _) as [fieldList|] eqn:Hlist;
        [|by apply elem_of_nil in H].
      apply elem_of_flat_map in H as (field & Hf & H%Go_struct_field_texts).
      apply first_of_type_child in Hlist.
      eapply edge_into_child; [done |]. by eapply edge_into_child. }
  destruct (bool_decide (s_type typeNode = "interface_type"));
    [|by apply elem_of_nil in H].
  unfold Go.extractInterface in H. simpl in H.
  apply elem_of_flat_map in H as (child & Hc & [H|H]%elem_of_app).
  - text_cases H. apply list_elem_of_singleton in H as ->. text_done.
  - destruct (bool_decide _); [|by apply elem_of_nil in H].
    apply Go_extractMethodEdges_texts in H. by eapply edge_into_child.
Qed.

(** X28. Names come from the source text: both ends of every edge that an
    extractor emits are texts of nodes of the syntax tree it was given. *)
Theorem edge_ends_are_texts_of_the_tree (root : SyntaxNode) (filePath : string)
    (e : GraphEdge) :
  e ∈ f_edges (Go.parseSource root filePath)
  ∨ e ∈ f_edges (Java.parseSource root filePath)
  ∨ e ∈ f_edges (Swift.parseSource root filePath)
  ∨ e ∈ f_edges (TypeScript.parseSource root filePath) ->
  (exists d, d ∈ subnodes root ∧ s_text d = e_from e)
  ∧ (exists d, d ∈ subnodes root ∧ s_text d = e_to e).
Proof.
  change (e ∈ f_edges (Go.parseSource root filePath)
          ∨ e ∈ f_edges (Java.parseSource root filePath)
          ∨ e ∈ f_edges (Swift.parseSource root filePath)
          ∨ e ∈ f_edges (TypeScript.parseSource root filePath) ->
          text_in root (e_from e) ∧ text_in root (e_to e)).
  assert (forall d, d ∈ subnodes root ->
            text_in d (e_from e) ∧ text_in d (e_to e) ->
            text_in root (e_from e) ∧ text_in root (e_to e)) as Hlift.
  { intros d Hd [Hfrom Hto]. split; by eapply text_in_subnode. }
  intros [He|[He|[He|He]]].
  - unfold Go.parseSource in He. rewrite frag_concat_edges_eq, flat_map_fmap in He.
    apply elem_of_flat_map in He as (decl & Hdecl & He).
    apply (Hlift decl); [eapply subnodes_child; [done | apply subnodes_self] |].
    unfold Go.top_level_fragment in He. simpl in He.
    apply elem_of_app in He as [He|He].
    + destruct (bool_decide _); [|by apply elem_of_nil in He].
      rewrite frag_concat_edges_eq, flat_map_fmap in He.
      apply elem_of_flat_map in He as (spec & Hspec & [Hfrom Hto]%Go_type_spec_texts).
      split; by eapply text_in_child.
    + destruct (bool_decide _); [|by apply elem_of_nil in He].
      destruct (Go.getReceiverType decl) as [receiverType|] eqn:Hrecv;
        [|by apply elem_of_nil in He].
      destruct (truthy receiverType); [|by apply elem_of_nil in He].
      apply Go_extractMethodEdges_texts in He as [-> Hto].
      split; [by apply Go_getReceiverType_text | done].
  - unfold Java.parseSource in He.
    rewrite (walk_edges _ _ (Java_walk_down filePath)) in He.
    apply elem_of_flat_map in He as (d & [Hd Hdecl]%top_declarations_elem & He).
    apply (Hlift d); [done | by eapply Java_declaration_texts].
  - unfold Swift.parseSource in He.
    rewrite (walk_edges _ _ (Swift_walk_down filePath)) in He.
    apply elem_of_flat_map in He as (d & [Hd Hdecl]%top_declarations_elem & He).
    apply (Hlift d); [done | by eapply Swift_declaration_texts].
  - unfold TypeScript.parseSource in He.
    rewrite (walk_edges _ _ (TypeScript_walk_down filePath)) in He.
    apply elem_of_flat_map in He as (d & [Hd Hdecl]%top_declarations_elem & He).
    apply (Hlift d); [done | by eapply TypeScript_declaration_texts].
Qed.

Lemma edge_ends_witness :
  (exists d, d ∈ subnodes go_struct_User ∧ s_text d = "User")
  ∧ (exists d, d ∈ subnodes go_struct_User ∧ s_text d = "Address").
Proof.
  apply (edge_ends_are_texts_of_the_tree go_struct_User "user.go"
           (mkEdge "User" "Address" field_type)).
  left. by_eval.
Defined.

(** ** The Go extractor reads the top level *)

Lemma Go_top_level_other filePath child :
  s_type child ≠ "type_declaration" -> s_type child ≠ "method_declaration" ->
  Go.top_level_fragment filePath child = frag_empty.
Proof.
  intros Ht Hm. unfold Go.top_level_fragment.
  by rewrite !bool_decide_eq_false_2 by done.
Qed.

Lemma frag_concat_empty (l : list Fragment) :
  Forall (fun r => r = frag_empty) l -> frag_concat l = frag_empty.
Proof.
  unfold frag_concat. induction 1 as [|r l -> _ IH]; [done |]. simpl. apply IH.
Qed.

Lemma Go_type_spec_type filePath spec n :
  n ∈ f_nodes (Go.type_spec_fragment filePath spec) -> s_type spec = "type_spec".
Proof.
  unfold Go.type_spec_fragment. case_bool_decide; [done |].
  by intros []%elem_of_nil.
Qed.

(** X29. The Go extractor looks at the top level of a file only.  Every
    node it emits is read off a [type_spec] child of a [type_declaration]
    child of the root, so a type declared inside a function body is not
    extracted; and a root that has neither a [type_declaration] nor a
    [method_declaration] among its children yields no node and no edge. *)
Theorem Go_extractor_reads_the_top_level (root : SyntaxNode) (filePath : string) :
  (forall n, n ∈ f_nodes (Go.parseSource root filePath) ->
     exists decl spec,
       decl ∈ s_children root ∧ s_type decl = "type_declaration"
       ∧ spec ∈ s_children decl ∧ s_type spec = "type_spec"
       ∧ declared_at filePath spec n)
  ∧ ((forall child, child ∈ s_children root ->
        s_type child ≠ "type_declaration" ∧ s_type child ≠ "method_declaration") ->
     Go.parseSource root filePath = mkFragment [] []).
Proof.
  split.
  - intros n (decl & spec & Hdecl & Hty & Hspec & Hn)%Go_parseSource_nodes.
    exists decl, spec. split_and!; [done | done | done | by eapply Go_type_spec_type |].
    pose proof (Go_type_spec_fragment filePath spec) as Hfrag.
    by destruct (declaration_fragment_node _ _ _ _ _ _ Hfrag Hn) as (_ & ? & _).
  - intros Hother. unfold Go.parseSource. apply frag_concat_empty.
    apply Forall_fmap, Forall_forall. intros child [Ht Hm]%Hother.
    by apply Go_top_level_other.
Qed.
